(** * Radiation pattern of a nonaxisymmetric dipole in cylindrical coordinates

    A shallow embedding of the example script
    [python/examples/dipole_in_vacuum_cyl_nonaxisymmetric.py] and the proofs of
    the properties its description states.

    Modelling choices, all of them visible in the definitions below:
    - a Python [float] and a NumPy [float64] are IEEE 754 binary64 numbers:
      Rocq's primitive [float], whose operations are the hardware ones;
      [complex128] is a pair of them;
    - a 1-D array is a list; a 2-D complex array is a list of rows together
      with its number of columns, and lives in a heap, because the script
      passes such arrays by reference and updates them in place;
    - a function of the script is a computation in a state and exception
      monad over the heap, the log of solver runs and the printed lines;
    - what the script takes from libraries whose result is not fixed by
      IEEE 754 (the sine and cosine of the C library and of NumPy, the
      summation order of [np.sum] and [np.linalg.norm]) and the simulation
      engine itself are fields of one record of external functions;
    - the main loop is [while True]: it is run with fuel. *)

From Stdlib Require Import ZArith List Floats Lia Bool.
From stdpp Require Import base list.

(** ** Python exceptions *)

(** The exceptions the modelled operations raise. [BadRef] is the model's own:
    a heap location that was never allocated, which no Python reference is. *)
Inductive exn : Set := IndexError | ValueError | BadRef.

Inductive result (A : Type) : Type :=
| Ok (a : A)
| Raise (e : exn).
Arguments Ok {A} a.
Arguments Raise {A} e.

Definition rbind {A B} (r : result A) (k : A -> result B) : result B :=
  match r with
  | Ok a => k a
  | Raise e => Raise e
  end.

(** ** Scalars: binary64 and complex128 *)

Definition is_nan (x : float) : bool := negb (PrimFloat.eqb x x).

(** [int] to [float], for the small non-negative integers of the script. *)
Definition float_of_nat (n : nat) : float :=
  PrimFloat.of_uint63 (Uint63.of_Z (Z.of_nat n)).

(** [math.pi]. *)
Definition math_pi : float := 0x1.921fb54442d18p+1%float.

Record complex : Set := Cx { re : float; im : float }.

Definition c0 : complex := Cx 0 0.

Definition cadd (a b : complex) : complex :=
  Cx (re a + re b) (im a + im b).

Definition csub (a b : complex) : complex :=
  Cx (re a - re b) (im a - im b).

(** The product as NumPy's scalar loop computes it. *)
Definition cmul (a b : complex) : complex :=
  Cx (re a * re b - im a * im b) (re a * im b + im a * re b).

Definition conj (a : complex) : complex := Cx (re a) (- im a).

(** ** NumPy: 1-D arrays *)

(** [xs[i]] for a non-negative index. *)
Definition py_index {A} (xs : list A) (i : nat) : result A :=
  match xs !! i with
  | Some x => Ok x
  | None => Raise IndexError
  end.

(** A binary elementwise operation with NumPy's broadcasting of 1-D operands:
    equal lengths pair up, an operand of length 1 is repeated, anything else
    raises. *)
Definition np_binop {A B C} (f : A -> B -> C) (xs : list A) (ys : list B)
  : result (list C) :=
  if Nat.eqb (length xs) (length ys) then Ok (zip_with f xs ys)
  else match xs, ys with
       | [x], _ => Ok (map (f x) ys)
       | _, [y] => Ok (map (fun x => f x y) xs)
       | _, _ => Raise ValueError
       end.

Definition np_real (xs : list complex) : list float := map re xs.
Definition np_square (xs : list float) : list float :=
  map (fun x => PrimFloat.mul x x) xs.
Definition np_sqrt (xs : list float) : list float := map PrimFloat.sqrt xs.

(** [np.maximum] on two scalars: the first operand when it is at least the
    second or is a NaN. *)
Definition np_maximum (a b : float) : float :=
  if PrimFloat.leb b a || is_nan a then a else b.

(** [np.max] of a 1-D array; the empty array has no maximum. *)
Definition np_max (xs : list float) : result float :=
  match xs with
  | [] => Raise ValueError
  | x :: r => Ok (fold_left np_maximum r x)
  end.

(** [np.linspace(start, stop, num)] with the default [endpoint=True]:
    [num - 1] steps of [(stop - start) / (num - 1)] from [start], and the last
    sample set to [stop] itself. *)
Definition np_linspace (start stop : float) (num : nat) : list float :=
  let delta := (stop - start)%float in
  match num with
  | 0 => []
  | 1 => [(float_of_nat 0 * delta + start)%float]
  | S d =>
      let step := (delta / float_of_nat d)%float in
      let y i :=
        if PrimFloat.eqb step 0
        then (float_of_nat i / float_of_nat d * delta + start)%float
        else (float_of_nat i * step + start)%float in
      map y (seq 0 d) ++ [stop]
  end.

(** ** NumPy: 2-D complex arrays *)

Record ndarray2 : Set := Arr2 { ncols : nat; rows : list (list complex) }.

Definition nrows (a : ndarray2) : nat := length (rows a).
Definition shape (a : ndarray2) : nat * nat := (nrows a, ncols a).

(** Every row has [ncols] entries: what makes the rows an array. *)
Definition rect (a : ndarray2) : Prop :=
  Forall (fun r => length r = ncols a) (rows a).

(** [np.zeros((n, k), dtype=np.complex128)]. *)
Definition np_zeros2 (n k : nat) : ndarray2 :=
  Arr2 k (replicate n (replicate k c0)).

Definition get2 (a : ndarray2) (i j : nat) : complex :=
  nth j (nth i (rows a) []) c0.

(** [a[:, j]]. *)
Definition column (a : ndarray2) (j : nat) : result (list complex) :=
  if j <? ncols a then Ok (map (fun r => nth j r c0) (rows a))
  else Raise IndexError.

(** [a[n, :] = row] for a Python list [row], broadcast to the row's length. *)
Definition set_row (a : ndarray2) (n : nat) (row : list complex)
  : result ndarray2 :=
  if n <? nrows a then
    if Nat.eqb (length row) (ncols a)
    then Ok (Arr2 (ncols a) (<[n := row]> (rows a)))
    else match row with
         | [x] => Ok (Arr2 (ncols a) (<[n := replicate (ncols a) x]> (rows a)))
         | _ => Raise ValueError
         end
  else Raise IndexError.

(** The index read along an axis of extent [n] that is broadcast to a longer
    one: an axis of extent 1 repeats its only entry. *)
Definition bidx (n k : nat) : nat := if Nat.eqb n 1 then 0 else k.

Definition bcompat (dst src : nat) : bool := Nat.eqb src dst || Nat.eqb src 1.

(** [dst += src] on 2-D arrays: [src] is broadcast to the shape of [dst],
    which the in-place sum keeps. *)
Definition np_iadd2 (dst src : ndarray2) : result ndarray2 :=
  if bcompat (nrows dst) (nrows src) && bcompat (ncols dst) (ncols src) then
    Ok (Arr2 (ncols dst)
          (imap (fun i row =>
                   imap (fun j x =>
                           cadd x (get2 src (bidx (nrows src) i)
                                            (bidx (ncols src) j)))
                        row)
                (rows dst)))
  else Raise ValueError.

(** ** The external functions *)

(** A point [mp.Vector3(x, y, z)]. *)
Record vector3 : Set := Vector3 { v_x : float; v_y : float; v_z : float }.

(** A [mp.Simulation] of the script after [sim.run], with its near-to-far
    monitor: every other argument of the constructor is a constant of the
    script, so the radial position of the dipole and the angular mode number
    identify it. *)
Record simulation : Set := Simulation { dipole_pos : float; sim_m : Z }.

Record externals : Type := Externals {
  (** [math.sin] and [math.cos]: the C library's. *)
  math_sin : float -> float;
  math_cos : float -> float;
  (** [np.sin] and [np.cos] on one element. *)
  np_sin1 : float -> float;
  np_cos1 : float -> float;
  (** [np.sum] of a 1-D [float64] array, in NumPy's own summation order. *)
  np_sum : list float -> float;
  (** [np.linalg.norm] of a 1-D [float64] array. *)
  np_linalg_norm : list float -> float;
  (** [sim.get_farfield(n2f_mon, x)]: the far field of the simulation at the
      point [x], as the sequence (Ex, Ey, Ez, Hx, Hy, Hz) of the engine. *)
  mp_get_farfield : simulation -> vector3 -> list complex
}.

(** ** The store and the monad of the script *)

Definition loc : Set := nat.

(** A line the script prints. *)
Inductive output : Set :=
| PowerDecay (m : Z) (flux flux_max power_decay : float)
| RelativeError (relative_error : float).

Record state : Set := State {
  heap : list ndarray2;   (** the 2-D arrays allocated so far *)
  runs : list Z;          (** the mode numbers of the solver runs so far *)
  stdout : list output    (** the lines printed so far *)
}.

Definition M (A : Type) : Type := state -> result (A * state).

Definition ret {A} (a : A) : M A := fun s => Ok (a, s).

Definition bind {A B} (c : M A) (k : A -> M B) : M B :=
  fun s => match c s with
           | Ok (a, s') => k a s'
           | Raise e => Raise e
           end.

Definition lift {A} (r : result A) : M A :=
  fun s => match r with
           | Ok a => Ok (a, s)
           | Raise e => Raise e
           end.

Declare Scope py_scope.
Delimit Scope py_scope with py.
Notation "x <- c ;; k" := (bind c (fun x => k))
  (at level 100, c at next level, right associativity) : py_scope.
Notation "c ;; k" := (bind c (fun _ => k))
  (at level 100, right associativity) : py_scope.

(** A fresh array object. *)
Definition alloc (a : ndarray2) : M loc :=
  fun s => Ok (length (heap s), State (heap s ++ [a]) (runs s) (stdout s)).

Definition load (l : loc) : M ndarray2 :=
  fun s => match heap s !! l with
           | Some a => Ok (a, s)
           | None => Raise BadRef
           end.

Definition store (l : loc) (a : ndarray2) : M unit :=
  fun s => if l <? length (heap s)
           then Ok (tt, State (<[l := a]> (heap s)) (runs s) (stdout s))
           else Raise BadRef.

Definition print (o : output) : M unit :=
  fun s => Ok (tt, State (heap s) (runs s) (stdout s ++ [o])).

Definition log_run (m : Z) : M unit :=
  fun s => Ok (tt, State (heap s) (runs s ++ [m]) (stdout s)).

(** [for x in xs: body(x)]. *)
Fixpoint for_each {A} (xs : list A) (body : A -> M unit) : M unit :=
  match xs with
  | [] => ret tt
  | x :: r => bind (body x) (fun _ => for_each r body)
  end.

(** [[f(x) for x in xs]]. *)
Fixpoint comprehension {A B} (f : A -> result B) (xs : list A)
  : result (list B) :=
  match xs with
  | [] => Ok []
  | x :: r => rbind (f x) (fun y => rbind (comprehension f r)
                                          (fun ys => Ok (y :: ys)))
  end.

Definition range (n : nat) : list nat := seq 0 n.

(** ** The script *)

Section Script.

Variable X : externals.

Open Scope py_scope.

Definition RESOLUTION_UM : Z := 50.
Definition WAVELENGTH_UM : float := 1.
Definition PML_UM : float := 1.
Definition FARFIELD_RADIUS_UM : float := Eval cbv in (1e6 * WAVELENGTH_UM)%float.
Definition NUM_FARFIELD_PTS : nat := 50.
Definition POWER_DECAY_THRESHOLD : float := 0x1.a36e2eb1c432dp-14%float.

Definition polar_rad : list float :=
  np_linspace 0 (0.5 * math_pi) NUM_FARFIELD_PTS.

(** [FARFIELD_RADIUS_UM**2]. *)
Definition FARFIELD_RADIUS_UM_sq : float :=
  (FARFIELD_RADIUS_UM * FARFIELD_RADIUS_UM)%float.

(** [ax.plot(x, y)] refuses arrays of different lengths; the figure itself is
    a file on disk and is not modelled. *)
Definition ax_plot (x y : list float) : result unit :=
  if Nat.eqb (length x) (length y) then Ok tt else Raise ValueError.

Definition plot_radiation_pattern (radial_flux : list float) : M unit :=
  mx <- lift (np_max radial_flux) ;;
  let normalized_radial_flux := map (fun x => (x / mx)%float) radial_flux in
  let dipole_radial_flux := np_square (map (np_cos1 X) polar_rad) in
  lift (ax_plot polar_rad normalized_radial_flux) ;;
  lift (ax_plot polar_rad dipole_radial_flux) ;;
  d <- lift (np_binop PrimFloat.sub normalized_radial_flux
                      dipole_radial_flux) ;;
  let relative_error :=
    (np_linalg_norm X d / np_linalg_norm X dipole_radial_flux)%float in
  print (RelativeError relative_error).

Definition radiation_pattern (e_field h_field : loc) : M (list float) :=
  e <- load e_field ;;
  h <- load h_field ;;
  e1 <- lift (column e 1) ;;
  h2 <- lift (column h 2) ;;
  e1h2 <- lift (np_binop cmul e1 h2) ;;
  e2 <- lift (column e 2) ;;
  h1 <- lift (column h 1) ;;
  e2h1 <- lift (np_binop cmul e2 h1) ;;
  dx <- lift (np_binop csub e1h2 e2h1) ;;
  let flux_x := np_real dx in
  e0 <- lift (column e 0) ;;
  h1' <- lift (column h 1) ;;
  e0h1 <- lift (np_binop cmul e0 h1') ;;
  e1' <- lift (column e 1) ;;
  h0 <- lift (column h 0) ;;
  e1h0 <- lift (np_binop cmul e1' h0) ;;
  dz <- lift (np_binop csub e0h1 e1h0) ;;
  let flux_z := np_real dz in
  s <- lift (np_binop PrimFloat.add (np_square flux_x) (np_square flux_z)) ;;
  let flux_r := np_sqrt s in
  ret flux_r.

Definition get_farfields (sim : simulation) : M (loc * loc) :=
  e_field <- alloc (np_zeros2 NUM_FARFIELD_PTS 3) ;;
  h_field <- alloc (np_zeros2 NUM_FARFIELD_PTS 3) ;;
  for_each (range NUM_FARFIELD_PTS) (fun n =>
    t <- lift (py_index polar_rad n) ;;
    let far_field :=
      mp_get_farfield X sim
        (Vector3 (FARFIELD_RADIUS_UM * math_sin X t) 0
                 (FARFIELD_RADIUS_UM * math_cos X t)) in
    erow <- lift (comprehension
                    (fun j => rbind (py_index far_field j)
                                    (fun c => Ok (conj c)))
                    (range 3)) ;;
    e <- load e_field ;;
    e' <- lift (set_row e n erow) ;;
    store e_field e' ;;
    hrow <- lift (comprehension (fun j => py_index far_field (j + 3))
                                (range 3)) ;;
    h <- load h_field ;;
    h' <- lift (set_row h n hrow) ;;
    store h_field h') ;;
  ret (e_field, h_field).

(** The simulation is built from constants, the position and the mode number,
    and run; the layout figure of [DEBUG_OUTPUT] is a file on disk. *)
Definition dipole_in_vacuum (dipole_pos_r : float) (m : Z) : M (loc * loc) :=
  log_run m ;;
  let sim := Simulation dipole_pos_r m in
  get_farfields sim.

Definition flux_from_farfields (e_field h_field : loc) : M float :=
  let dphi := (2 * math_pi)%float in
  let dtheta :=
    (0.5 * math_pi / float_of_nat (NUM_FARFIELD_PTS - 1))%float in
  dipole_radiation_pattern <- radiation_pattern e_field h_field ;;
  p <- lift (np_binop PrimFloat.mul dipole_radiation_pattern
                      (map (np_sin1 X) polar_rad)) ;;
  let flux :=
    (np_sum X p * FARFIELD_RADIUS_UM_sq * dtheta * dphi)%float in
  ret flux.

(** [dst += src]. *)
Definition iadd (dst src : loc) : M unit :=
  d <- load dst ;;
  s <- load src ;;
  d' <- lift (np_iadd2 d s) ;;
  store dst d'.

(** The variables of the main block that outlive an iteration. *)
Record locals : Set := Locals {
  e_field_total : loc;
  h_field_total : loc;
  flux_max : float;
  m : Z
}.

(** One pass through the body of [while True]; the Boolean tells whether the
    pass ended in [break]. The pair [eh] is ([e_field], [h_field]), which the
    branch of [m > 0] binds anew. *)
Definition loop_body (dipole_pos_r : float) (L : locals) : M (bool * locals) :=
  eh <- dipole_in_vacuum dipole_pos_r (m L) ;;
  iadd (e_field_total L) (fst eh) ;;
  iadd (h_field_total L) (snd eh) ;;
  eh <- (if (0 <? m L)%Z then
           eh <- dipole_in_vacuum dipole_pos_r (- m L) ;;
           iadd (e_field_total L) (fst eh) ;;
           iadd (h_field_total L) (snd eh) ;;
           ret eh
         else ret eh) ;;
  flux <- flux_from_farfields (fst eh) (snd eh) ;;
  let flux_max := if PrimFloat.ltb (flux_max L) flux then flux
                  else flux_max L in
  let power_decay := (flux / flux_max)%float in
  print (PowerDecay (m L) flux flux_max power_decay) ;;
  if (0 <? m L)%Z && PrimFloat.ltb power_decay POWER_DECAY_THRESHOLD
  then ret (true, Locals (e_field_total L) (h_field_total L) flux_max (m L))
  else ret (false,
            Locals (e_field_total L) (h_field_total L) flux_max (m L + 1)).

(** [while True] with fuel: [None] when the fuel ran out before [break]. *)
Fixpoint while_true (fuel : nat) (dipole_pos_r : float) (L : locals)
  : M (option locals) :=
  match fuel with
  | O => ret None
  | S fuel' =>
      r <- loop_body dipole_pos_r L ;;
      if fst r then ret (Some (snd r)) else while_true fuel' dipole_pos_r (snd r)
  end.

(** The main block up to the loop. *)
Definition main_init : M locals :=
  e_field_total <- alloc (np_zeros2 NUM_FARFIELD_PTS 3) ;;
  h_field_total <- alloc (np_zeros2 NUM_FARFIELD_PTS 3) ;;
  ret (Locals e_field_total h_field_total 0 0).

(** The main block after the loop; it returns the pattern saved to disk. *)
Definition main_finish (L : locals) : M (list float) :=
  dipole_radiation_pattern <-
    radiation_pattern (e_field_total L) (h_field_total L) ;;
  let dipole_radiation_pattern_scaled :=
    map (fun x => (x * FARFIELD_RADIUS_UM_sq)%float)
        dipole_radiation_pattern in
  plot_radiation_pattern dipole_radiation_pattern_scaled ;;
  ret dipole_radiation_pattern.

(** The main block up to the end of the loop. *)
Definition main_loop (fuel : nat) (dipole_pos_r : float) : M (option locals) :=
  L <- main_init ;;
  while_true fuel dipole_pos_r L.

Definition main (fuel : nat) (dipole_pos_r : float)
  : M (option (locals * list float)) :=
  r <- main_loop fuel dipole_pos_r ;;
  match r with
  | None => ret None
  | Some L' => p <- main_finish L' ;; ret (Some (L', p))
  end.

Definition initial_state : state := State [] [] [].

End Script.

(** ** What the functions compute, point by point

    The definitions of this section say in closed form, as the description
    does, what the script computes; the proofs below show that the code of
    the previous section computes them. *)

Section Pointwise.

Variable X : externals.

(** The Cartesian components of the Poynting vector at far-field point [n]. *)
Definition flux_x_at (e h : ndarray2) (n : nat) : float :=
  re (csub (cmul (get2 e n 1) (get2 h n 2)) (cmul (get2 e n 2) (get2 h n 1))).

Definition flux_z_at (e h : ndarray2) (n : nat) : float :=
  re (csub (cmul (get2 e n 0) (get2 h n 1)) (cmul (get2 e n 1) (get2 h n 0))).

(** The radial flux at far-field point [n]. *)
Definition flux_r_at (e h : ndarray2) (n : nat) : float :=
  let fx := flux_x_at e h n in
  let fz := flux_z_at e h n in
  PrimFloat.sqrt (fx * fx + fz * fz).

Definition pattern_of (e h : ndarray2) : list float :=
  map (flux_r_at e h) (range (nrows e)).

(** The angular steps of the flux integral. *)
Definition dtheta_spec : float :=
  (math_pi / 2 / float_of_nat (NUM_FARFIELD_PTS - 1))%float.
Definition dphi_spec : float := (2 * math_pi)%float.

(** The flux integral over the quarter circle. *)
Definition flux_of (e h : ndarray2) : float :=
  (np_sum X (map (fun n => flux_r_at e h n * np_sin1 X (nth n polar_rad 0))
                 (range NUM_FARFIELD_PTS))
   * FARFIELD_RADIUS_UM_sq * dtheta_spec * dphi_spec)%float.

(** The far field of a simulation at polar angle [t], and the rows the
    script extracts from it. *)
Definition far_field_at (sim : simulation) (t : float) : list complex :=
  mp_get_farfield X sim
    (Vector3 (FARFIELD_RADIUS_UM * math_sin X t) 0
             (FARFIELD_RADIUS_UM * math_cos X t)).

Definition e_row (sim : simulation) (t : float) : list complex :=
  map (fun j => conj (nth j (far_field_at sim t) c0)) (range 3).

Definition h_row (sim : simulation) (t : float) : list complex :=
  map (fun j => nth (j + 3) (far_field_at sim t) c0) (range 3).

Definition e_farfield (sim : simulation) : ndarray2 :=
  Arr2 3 (map (e_row sim) polar_rad).

Definition h_farfield (sim : simulation) : ndarray2 :=
  Arr2 3 (map (h_row sim) polar_rad).

(** The elementwise sum of two arrays of one shape. *)
Definition add2 (a b : ndarray2) : ndarray2 :=
  Arr2 (ncols a) (zip_with (zip_with cadd) (rows a) (rows b)).

(** The solver runs of the pass for mode number [m]. *)
Definition runs_of_mode (m : Z) : list Z :=
  if (0 <? m)%Z then [m; (- m)%Z] else [m].

(** The mode number whose far fields the convergence test of pass [m] sees. *)
Definition tested_mode (m : Z) : Z := if (0 <? m)%Z then (- m)%Z else m.

(** The flux the convergence test of the pass for mode number [m] sees. *)
Definition mode_flux (r : float) (m : Z) : float :=
  let sim := Simulation r (tested_mode m) in
  flux_of (e_farfield sim) (h_farfield sim).

(** [flux_max] after the update of a pass. *)
Definition next_flux_max (fm flux : float) : float :=
  if PrimFloat.ltb fm flux then flux else fm.

(** The line a pass prints, and the variables it leaves. *)
Definition pass_line (r : float) (L : locals) : output :=
  let f := mode_flux r (m L) in
  let fm := next_flux_max (flux_max L) f in
  PowerDecay (m L) f fm (f / fm).

(** The accumulators after the far fields of the runs [ks] were added. *)
Definition add_runs_e (r : float) (ks : list Z) (e : ndarray2) : ndarray2 :=
  fold_left (fun acc k => add2 acc (e_farfield (Simulation r k))) ks e.

Definition add_runs_h (r : float) (ks : list Z) (h : ndarray2) : ndarray2 :=
  fold_left (fun acc k => add2 acc (h_farfield (Simulation r k))) ks h.

(** The engine's contract: six field components at every point. *)
Definition six_components : Prop :=
  forall sim x, length (mp_get_farfield X sim x) = 6.

End Pointwise.

(** The printed lines of the loop, read back. *)
Definition line_m (o : output) : Z :=
  match o with
  | PowerDecay m _ _ _ => m
  | RelativeError _ => (-1)%Z
  end.

Definition line_flux (o : output) : float :=
  match o with
  | PowerDecay _ f _ _ => f
  | RelativeError _ => nan
  end.

Definition line_flux_max (o : output) : float :=
  match o with
  | PowerDecay _ _ f _ => f
  | RelativeError _ => nan
  end.

Definition line_power_decay (o : output) : float :=
  match o with
  | PowerDecay _ _ _ p => p
  | RelativeError _ => nan
  end.

(** The test of [break] on a printed line. *)
Definition exit_line (o : output) : bool :=
  match o with
  | PowerDecay m _ _ p => (0 <? m)%Z && PrimFloat.ltb p POWER_DECAY_THRESHOLD
  | RelativeError _ => false
  end.

(** What a computation returns, without the state. *)
Definition outcome {A} (r : result (A * state)) : result A :=
  match r with
  | Ok (a, _) => Ok a
  | Raise e => Raise e
  end.

Section Passes.

Variable X : externals.

Definition pass_locals (r : float) (L : locals) : locals :=
  let o := pass_line X r L in
  Locals (e_field_total L) (h_field_total L) (line_flux_max o)
         (if exit_line o then m L else (m L + 1)%Z).

(** The lines the loop prints within [fuel] passes, and how it ends. *)
Fixpoint loop_lines (fuel : nat) (r : float) (L : locals) : list output :=
  match fuel with
  | O => []
  | S f =>
      let o := pass_line X r L in
      o :: (if exit_line o then [] else loop_lines f r (pass_locals r L))
  end.

Fixpoint loop_result (fuel : nat) (r : float) (L : locals) : option locals :=
  match fuel with
  | O => None
  | S f =>
      if exit_line (pass_line X r L) then Some (pass_locals r L)
      else loop_result f r (pass_locals r L)
  end.

Definition loop_runs (fuel : nat) (r : float) (L : locals) : list Z :=
  flat_map runs_of_mode (map line_m (loop_lines fuel r L)).

(** The rows of [get_farfields] after [k] of them were filled in, and the
    state then. *)
Definition zrow : list complex := replicate 3 c0.

Definition partial_rows (f : float -> list complex) (k : nat)
  : list (list complex) :=
  take k (map f polar_rad) ++ replicate (NUM_FARFIELD_PTS - k) zrow.

Definition ff_state (s : state) (sim : simulation) (k : nat) : state :=
  State (heap s ++ [Arr2 3 (partial_rows (e_row X sim) k);
                    Arr2 3 (partial_rows (h_row X sim) k)])
        (runs s) (stdout s).

(** The heap after one solver run was added into the accumulators. *)
Definition acc_heap (hp : list ndarray2) (et ht : loc) (e h : ndarray2)
    (sim : simulation) : list ndarray2 :=
  <[ht := add2 h (h_farfield X sim)]>
    (<[et := add2 e (e_farfield X sim)]>
       (hp ++ [e_farfield X sim; h_farfield X sim])).

End Passes.

(** The variables of the main block when the loop starts. *)
Definition locals0 : locals := Locals 0 1 0 0.

(** The radial flux of one pair of rows. *)
Definition row_flux (er hr : list complex) : float :=
  let fx := re (csub (cmul (nth 1 er c0) (nth 2 hr c0))
                     (cmul (nth 2 er c0) (nth 1 hr c0))) in
  let fz := re (csub (cmul (nth 0 er c0) (nth 1 hr c0))
                     (cmul (nth 1 er c0) (nth 0 hr c0))) in
  PrimFloat.sqrt (fx * fx + fz * fz).

(** ** Binary64 through its specification *)

Definition sf_is_nan (x : spec_float) : bool :=
  match x with S754_nan => true | _ => false end.

(** The sign of a number that has one. *)
Definition sf_signed (s : bool) (x : spec_float) : Prop :=
  match x with
  | S754_zero s' | S754_infinity s' | S754_finite s' _ _ => s' = s
  | S754_nan => False
  end.

Definition sf_one : spec_float := S754_finite false 4503599627370496 (-52).

(** The loop leaves after printing line [i] of [lines]. *)
Definition exits_at (res : option locals) (lines : list output) (i : nat) : Prop :=
  is_Some res /\ S i = length lines.

(** The class, exponent and mantissa of a number, ordered as the number. *)
Definition sf_key (x : spec_float) : Z * Z * Z :=
  match x with
  | S754_infinity true => (-2, 0, 0)
  | S754_finite true m e => (-1, - e, - Zpos m)
  | S754_zero _ | S754_nan => (0, 0, 0)
  | S754_finite false m e => (1, e, Zpos m)
  | S754_infinity false => (2, 0, 0)
  end%Z.

Definition key_le (a b : Z * Z * Z) : Prop :=
  let '(c1, e1, m1) := a in
  let '(c2, e2, m2) := b in
  (c1 < c2 \/ (c1 = c2 /\ (e1 < e2 \/ (e1 = e2 /\ m1 <= m2))))%Z.

(** A computation that leaves the state as it found it. *)
Definition reads_only {A} (c : M A) : Prop :=
  forall s, match c s with
            | Ok (_, s') => s' = s
            | Raise _ => True
            end.

(** ** Concrete external functions, to run the script on *)

(** Left-to-right summation. *)
Definition seq_sum (xs : list float) : float := fold_left PrimFloat.add xs 0%float.

Definition seq_norm (xs : list float) : float :=
  PrimFloat.sqrt (seq_sum (map (fun x => (x * x)%float) xs)).

(** Truncated Taylor series. *)
Definition taylor_sin (x : float) : float := (x - x * x * x / 6)%float.
Definition taylor_cos (x : float) : float := (1 - x * x / 2)%float.

Fixpoint pow8 (n : nat) : float :=
  match n with
  | O => 1%float
  | S k => (0.125 * pow8 k)%float
  end.

(** A far field that falls off with the mode number: Ex = Hy = 8^-|m| cos θ. *)
Definition sample_farfield (sim : simulation) (x : vector3) : list complex :=
  let a := (pow8 (Z.abs_nat (sim_m sim)) * (v_z x / FARFIELD_RADIUS_UM))%float in
  [Cx a 0; c0; c0; c0; Cx a 0; c0].

Definition sample_externals : externals :=
  Externals taylor_sin taylor_cos taylor_sin taylor_cos seq_sum seq_norm
            sample_farfield.

(** 1e200, whose square overflows. *)
Definition huge : float := 0x1.4e718d7d7625ap+664%float.

(** A far field of finite but large components in every mode but the
    first. *)
Definition overflow_farfield (sim : simulation) (x : vector3) : list complex :=
  if (sim_m sim =? 0)%Z then sample_farfield sim x
  else replicate 6 (Cx huge 0).

Definition overflow_externals : externals :=
  Externals taylor_sin taylor_cos taylor_sin taylor_cos seq_sum seq_norm
            overflow_farfield.

(** The two arrays of one far-field point with components 1e200. *)
Definition overflow_state : state :=
  State [Arr2 3 [[c0; Cx huge 0; Cx huge 0]];
         Arr2 3 [[c0; Cx huge 0; Cx huge 0]]] [] [].

(** Two arrays of two far-field points. *)
Definition two_point_state : state :=
  State [Arr2 3 [[Cx 1 0; Cx 0 1; Cx 2 0]; [Cx 0 0; Cx 3 0; Cx 1 1]];
         Arr2 3 [[Cx 0 1; Cx 1 0; Cx 1 1]; [Cx 2 0; Cx 0 0; Cx 1 0]]] [] [].

(** The far fields of the sample solver for mode 0, as [get_farfields]
    leaves them. *)
Definition sample_state : state :=
  State [e_farfield sample_externals (Simulation 0.5 0);
         h_farfield sample_externals (Simulation 0.5 0)] [] [].

(** ** Further inputs and auxiliary definitions *)

(** The body of the loop of [get_farfields], for the arrays at [e_field] and
    [h_field]. *)
Definition ff_body (X : externals) (sim : simulation) (e_field h_field : loc)
  : nat -> M unit :=
  fun n =>
    (t <- lift (py_index polar_rad n) ;;
     let far_field :=
       mp_get_farfield X sim
         (Vector3 (FARFIELD_RADIUS_UM * math_sin X t) 0
                  (FARFIELD_RADIUS_UM * math_cos X t)) in
     erow <- lift (comprehension
                     (fun j => rbind (py_index far_field j)
                                     (fun c => Ok (conj c)))
                     (range 3)) ;;
     e <- load e_field ;;
     e' <- lift (set_row e n erow) ;;
     store e_field e' ;;
     hrow <- lift (comprehension (fun j => py_index far_field (j + 3))
                                 (range 3)) ;;
     h <- load h_field ;;
     h' <- lift (set_row h n hrow) ;;
     store h_field h')%py.

(** A solver whose far field lacks the last component. *)
Definition short_externals : externals :=
  Externals taylor_sin taylor_cos taylor_sin taylor_cos seq_sum seq_norm
            (fun _ _ => replicate 5 c0).

(** One row of electric and two rows of magnetic far field. *)
Definition one_row_state : state :=
  State [Arr2 3 [[Cx 1 0; Cx 0 1; Cx 2 0]];
         Arr2 3 [[Cx 0 1; Cx 1 0; Cx 1 1]; [Cx 2 0; Cx 0 0; Cx 1 0]]] [] [].

(** A solver whose far field is zero everywhere. *)
Definition zero_farfield (sim : simulation) (x : vector3) : list complex :=
  replicate 6 c0.

Definition zero_externals : externals :=
  Externals taylor_sin taylor_cos taylor_sin taylor_cos seq_sum seq_norm
            zero_farfield.

(** * Proofs *)

(** ** Running the monad *)

Lemma bind_run {A B} (c : M A) (k : A -> M B) s :
  bind c k s = match c s with Ok (a, s') => k a s' | Raise e => Raise e end.
Proof. reflexivity. Qed.

Lemma lift_ok {A B} (r : result A) (a : A) (k : A -> M B) s :
  r = Ok a -> bind (lift r) k s = k a s.
Proof. intros ->. reflexivity. Qed.

Lemma load_ok {B} l a (k : ndarray2 -> M B) s :
  heap s !! l = Some a -> bind (load l) k s = k a s.
Proof. intros H. unfold bind, load. rewrite H. reflexivity. Qed.

Lemma column_ok a j :
  j < ncols a -> column a j = Ok (map (fun r => nth j r c0) (rows a)).
Proof.
  intros H. unfold column.
  destruct (Nat.ltb_spec j (ncols a)); [reflexivity | lia].
Qed.

Lemma np_binop_same {A B C} (f : A -> B -> C) xs ys :
  length xs = length ys -> np_binop f xs ys = Ok (zip_with f xs ys).
Proof. intros H. unfold np_binop. rewrite H, Nat.eqb_refl. reflexivity. Qed.

Lemma zip_with_nth {A B C} (g : A -> B -> C) da db xs : forall ys,
  length xs = length ys ->
  zip_with g xs ys = map (fun n => g (nth n xs da) (nth n ys db)) (seq 0 (length xs)).
Proof.
  induction xs as [|x xs IH]; intros [|y ys] H; simpl in *; try lia; [reflexivity|].
  f_equal. rewrite <- seq_shift, map_map. apply IH. lia.
Qed.

Lemma pattern_rows (er hr : list (list complex)) :
  length er = length hr ->
  let c j (a : list (list complex)) := map (fun r => nth j r c0) a in
  np_sqrt
    (zip_with PrimFloat.add
       (np_square (np_real (zip_with csub (zip_with cmul (c 1 er) (c 2 hr))
                                          (zip_with cmul (c 2 er) (c 1 hr)))))
       (np_square (np_real (zip_with csub (zip_with cmul (c 0 er) (c 1 hr))
                                          (zip_with cmul (c 1 er) (c 0 hr))))))
  = zip_with row_flux er hr.
Proof.
  revert hr. induction er as [|r er IH]; intros [|r' hr] H; simpl in *; try lia; [reflexivity|].
  f_equal. apply IH. lia.
Qed.

Lemma length_zip_with_same {A B C} (f : A -> B -> C) xs ys :
  length xs = length ys -> length (zip_with f xs ys) = length xs.
Proof. intros H. rewrite length_zip_with. lia. Qed.

Lemma radiation_pattern_run s e_field h_field e h N :
  heap s !! e_field = Some e -> heap s !! h_field = Some h ->
  shape e = (N, 3) -> shape h = (N, 3) ->
  radiation_pattern e_field h_field s = Ok (pattern_of e h, s).
Proof.
  intros He Hh Se Sh. unfold shape, nrows in *.
  injection Se as Ne Ce. injection Sh as Nh Ch.
  unfold radiation_pattern.
  rewrite (load_ok _ _ _ _ He), (load_ok _ _ _ _ Hh).
  assert (Hlen : length (rows e) = length (rows h)) by congruence.
  repeat match goal with
  | |- bind (lift (column ?a ?j)) _ _ = _ =>
      rewrite (lift_ok _ _ _ _ (column_ok a j ltac:(lia)))
  | |- bind (lift (np_binop ?f ?xs ?ys)) _ _ = _ =>
      rewrite (lift_ok _ _ _ _ (np_binop_same f xs ys
        ltac:(unfold np_square, np_real;
              repeat first [rewrite length_map | rewrite length_zip_with_same];
              congruence)))
  end.
  unfold ret. f_equal. f_equal.
  rewrite (pattern_rows _ _ Hlen).
  rewrite (zip_with_nth _ [] [] _ _ Hlen).
  reflexivity.
Qed.

(** ** The far fields of one run *)

Lemma length_polar_rad : length polar_rad = NUM_FARFIELD_PTS.
Proof. reflexivity. Qed.

Lemma py_index_ok {A} (xs : list A) i x : xs !! i = Some x -> py_index xs i = Ok x.
Proof. unfold py_index. intros ->. reflexivity. Qed.

Section FF.
Variable X : externals.
Hypothesis H6 : six_components X.

Lemma e_comprehension sim t :
  comprehension (fun j => rbind (py_index (far_field_at X sim t) j) (fun c => Ok (conj c))) (range 3)
  = Ok (e_row X sim t).
Proof.
  unfold e_row, far_field_at. pose proof (H6 sim (Vector3 (FARFIELD_RADIUS_UM * math_sin X t) 0
             (FARFIELD_RADIUS_UM * math_cos X t))) as Hl.
  destruct (mp_get_farfield X sim _) as [|a0 [|a1 [|a2 [|a3 [|a4 [|a5 [|a6 l]]]]]]]; simpl in Hl; try discriminate.
  reflexivity.
Qed.

Lemma h_comprehension sim t :
  comprehension (fun j => py_index (far_field_at X sim t) (j + 3)) (range 3)
  = Ok (h_row X sim t).
Proof.
  unfold h_row, far_field_at. pose proof (H6 sim (Vector3 (FARFIELD_RADIUS_UM * math_sin X t) 0
             (FARFIELD_RADIUS_UM * math_cos X t))) as Hl.
  destruct (mp_get_farfield X sim _) as [|a0 [|a1 [|a2 [|a3 [|a4 [|a5 [|a6 l]]]]]]]; simpl in Hl; try discriminate.
  reflexivity.
Qed.

Lemma partial_rows_length f k : k <= NUM_FARFIELD_PTS -> length (partial_rows f k) = NUM_FARFIELD_PTS.
Proof.
  intros Hk. unfold partial_rows. rewrite length_app, length_take, length_replicate, length_map, length_polar_rad. lia.
Qed.

Lemma partial_rows_step f k t :
  polar_rad !! k = Some t ->
  <[k := f t]> (partial_rows f k) = partial_rows f (S k).
Proof.
  intros Ht. pose proof (lookup_lt_Some _ _ _ Ht) as Hk. rewrite length_polar_rad in Hk.
  unfold partial_rows.
  assert (Hlen : length (take k (map f polar_rad)) = k).
  { rewrite length_take, length_map, length_polar_rad. lia. }
  rewrite insert_app_r_alt by lia. rewrite Hlen, Nat.sub_diag.
  replace (NUM_FARFIELD_PTS - k) with (S (NUM_FARFIELD_PTS - S k)) by lia.
  rewrite (take_S_r _ _ (f t)).
  - rewrite <- app_assoc. reflexivity.
  - change (map f polar_rad) with (f <$> polar_rad). rewrite list_lookup_fmap, Ht. reflexivity.
Qed.

Lemma lookup_pair_l {A} (l : list A) x y : (l ++ [x; y]) !! length l = Some x.
Proof. rewrite lookup_app_r by lia. rewrite Nat.sub_diag. reflexivity. Qed.

Lemma lookup_pair_r {A} (l : list A) x y : (l ++ [x; y]) !! S (length l) = Some y.
Proof.
  rewrite lookup_app_r by lia.
  replace (S (length l) - length l) with 1 by lia. reflexivity.
Qed.

Lemma insert_pair_l {A} (l : list A) x y z :
  <[length l := z]> (l ++ [x; y]) = l ++ [z; y].
Proof. rewrite insert_app_r_alt by lia. rewrite Nat.sub_diag. reflexivity. Qed.

Lemma insert_pair_r {A} (l : list A) x y z :
  <[S (length l) := z]> (l ++ [x; y]) = l ++ [x; z].
Proof.
  rewrite insert_app_r_alt by lia.
  replace (S (length l) - length l) with 1 by lia. reflexivity.
Qed.

Lemma store_ok {B} l a (k : unit -> M B) s :
  l < length (heap s) ->
  bind (store l a) k s = k tt (State (<[l := a]> (heap s)) (runs s) (stdout s)).
Proof.
  intros H. unfold bind, store.
  destruct (Nat.ltb_spec l (length (heap s))); [reflexivity | lia].
Qed.

Lemma set_row_ok a n row :
  n < nrows a -> length row = ncols a ->
  set_row a n row = Ok (Arr2 (ncols a) (<[n := row]> (rows a))).
Proof.
  intros Hn Hl. unfold set_row.
  destruct (Nat.ltb_spec n (nrows a)); [|lia].
  rewrite Hl, Nat.eqb_refl. reflexivity.
Qed.

Lemma ff_rows_run s sim k n :
  k + n <= NUM_FARFIELD_PTS ->
  for_each (seq k n) (fun n =>
    t <- lift (py_index polar_rad n) ;;
    let far_field :=
      mp_get_farfield X sim
        (Vector3 (FARFIELD_RADIUS_UM * math_sin X t) 0
                 (FARFIELD_RADIUS_UM * math_cos X t)) in
    erow <- lift (comprehension
                    (fun j => rbind (py_index far_field j)
                                    (fun c => Ok (conj c)))
                    (range 3)) ;;
    e <- load (length (heap s)) ;;
    e' <- lift (set_row e n erow) ;;
    store (length (heap s)) e' ;;
    hrow <- lift (comprehension (fun j => py_index far_field (j + 3))
                                (range 3)) ;;
    h <- load (S (length (heap s))) ;;
    h' <- lift (set_row h n hrow) ;;
    store (S (length (heap s))) h')%py (ff_state X s sim k)
  = Ok (tt, ff_state X s sim (k + n)).
Proof.
  revert k. induction n as [|n IH]; intros k Hk.
  - simpl. rewrite Nat.add_0_r. reflexivity.
  - cbn [seq for_each].
    assert (Hlt : k < length polar_rad) by (rewrite length_polar_rad; lia).
    destruct (lookup_lt_is_Some_2 _ _ Hlt) as [t Ht].
    rewrite bind_run. rewrite (lift_ok _ _ _ _ (py_index_ok _ _ _ Ht)).
    cbv zeta. unfold ff_state at 1.
    rewrite (lift_ok _ _ _ _ (e_comprehension sim t)).
    erewrite load_ok; [| cbn [heap]; apply lookup_pair_l].
    erewrite lift_ok;
      [| apply set_row_ok; [unfold nrows; cbn [rows]; rewrite partial_rows_length; lia | reflexivity]].
    rewrite store_ok by (simpl; rewrite length_app; simpl; lia).
    cbn [heap runs stdout rows ncols].
    rewrite insert_pair_l.
    rewrite (lift_ok _ _ _ _ (h_comprehension sim t)).
    erewrite load_ok; [| cbn [heap]; apply lookup_pair_r].
    erewrite lift_ok;
      [| apply set_row_ok; [unfold nrows; cbn [rows]; rewrite partial_rows_length; lia | reflexivity]].
    unfold store at 1. cbn [heap runs stdout rows ncols].
    destruct (Nat.ltb_spec (S (length (heap s))) (length (heap s ++ [Arr2 3 (<[k:=e_row X sim t]> (partial_rows (e_row X sim) k)); Arr2 3 (partial_rows (h_row X sim) k)]))) as [_|Hbad];
      [| rewrite length_app in Hbad; simpl in Hbad; lia].
    rewrite insert_pair_r.
    rewrite !(partial_rows_step _ _ _ Ht).
    replace (k + S n) with (S k + n) by lia.
    apply IH. lia.
Qed.

Lemma partial_rows_full f : partial_rows f NUM_FARFIELD_PTS = map f polar_rad.
Proof.
  unfold partial_rows. rewrite Nat.sub_diag. simpl replicate. rewrite app_nil_r.
  apply take_ge. rewrite length_map, length_polar_rad. lia.
Qed.

Lemma get_farfields_run sim s :
  get_farfields X sim s =
  Ok ((length (heap s), S (length (heap s))),
      State (heap s ++ [e_farfield X sim; h_farfield X sim]) (runs s) (stdout s)).
Proof.
  unfold get_farfields.
  rewrite bind_run. unfold alloc at 1. cbn [heap runs stdout].
  rewrite bind_run. unfold alloc at 1. cbn [heap runs stdout].
  rewrite length_app. simpl length. rewrite Nat.add_1_r.
  rewrite bind_run.
  pose proof (ff_rows_run s sim 0 NUM_FARFIELD_PTS ltac:(lia)) as Hrun.
  unfold ff_state at 1 in Hrun.
  change (partial_rows _ 0) with (rows (np_zeros2 NUM_FARFIELD_PTS 3)) in Hrun.
  rewrite <- app_assoc. simpl app.
  unfold range.
  etransitivity; [| etransitivity; [ exact (f_equal (fun r => match r with Ok (_, s') => ret (length (heap s), S (length (heap s))) s' | Raise e => Raise e end) Hrun) |] ].
  - reflexivity.
  - unfold ret, ff_state. simpl. rewrite !partial_rows_full. reflexivity.
Qed.
End FF.

(** ** Adding into the accumulators *)

Lemma bidx_lt n i : i < n -> bidx n i = i.
Proof.
  unfold bidx. destruct (Nat.eqb_spec n 1); [lia | reflexivity].
Qed.

Lemma bcompat_refl n : bcompat n n = true.
Proof. unfold bcompat. rewrite Nat.eqb_refl. reflexivity. Qed.

Lemma get2_lookup a i j r x :
  rows a !! i = Some r -> r !! j = Some x -> get2 a i j = x.
Proof.
  intros Hr Hx. unfold get2.
  rewrite (nth_lookup_Some _ _ _ _ Hr). apply (nth_lookup_Some _ _ _ _ Hx).
Qed.

Lemma np_iadd2_same d a :
  shape a = shape d -> rect d -> rect a -> np_iadd2 d a = Ok (add2 d a).
Proof.
  intros Hs Rd Ra. unfold shape in Hs. injection Hs as Hn Hc.
  unfold np_iadd2, add2. rewrite Hn, Hc, !bcompat_refl. cbn [andb].
  f_equal. f_equal. apply list_eq. intros i.
  rewrite list_lookup_imap, lookup_zip_with.
  destruct (rows d !! i) as [rd|] eqn:Hrd; [|reflexivity].
  cbn [fmap option_fmap option_map mbind option_bind].
  pose proof (lookup_lt_Some _ _ _ Hrd) as Hi.
  assert (Hia : i < length (rows a)) by (unfold nrows in Hn; lia).
  destruct (lookup_lt_is_Some_2 _ _ Hia) as [ra Hra]. rewrite Hra.
  cbn [mbind option_bind]. f_equal.
  pose proof (proj1 (Forall_lookup _ _) Rd _ _ Hrd) as Lrd.
  pose proof (proj1 (Forall_lookup _ _) Ra _ _ Hra) as Lra.
  cbn beta in Lrd, Lra.
  apply list_eq. intros j.
  rewrite list_lookup_imap, lookup_zip_with.
  destruct (rd !! j) as [x|] eqn:Hx; [|reflexivity].
  cbn [fmap option_fmap option_map mbind option_bind].
  pose proof (lookup_lt_Some _ _ _ Hx) as Hj.
  assert (Hja : j < length ra) by lia.
  destruct (lookup_lt_is_Some_2 _ _ Hja) as [y Hy]. rewrite Hy.
  cbn [mbind option_bind]. f_equal. f_equal.
  rewrite !bidx_lt by (unfold nrows; lia).
  apply (get2_lookup _ _ _ _ _ Hra Hy).
Qed.

Lemma add2_shape d a : shape a = shape d -> shape (add2 d a) = shape d.
Proof.
  unfold shape, nrows, add2. cbn [rows ncols]. intros [= Hn Hc].
  rewrite length_zip_with. f_equal. lia.
Qed.

Lemma add2_rect d a : ncols a = ncols d -> rect d -> rect a -> rect (add2 d a).
Proof.
  unfold rect, add2. cbn [rows ncols]. intros Hc Rd Ra.
  apply Forall_lookup. intros i r Hr.
  rewrite lookup_zip_with in Hr.
  destruct (rows d !! i) as [rd|] eqn:Hrd; [|discriminate].
  destruct (rows a !! i) as [ra|] eqn:Hra; [|discriminate].
  cbn in Hr. injection Hr as <-.
  pose proof (proj1 (Forall_lookup _ _) Rd _ _ Hrd) as Lrd.
  pose proof (proj1 (Forall_lookup _ _) Ra _ _ Hra) as Lra.
  cbn beta in Lrd, Lra. rewrite length_zip_with. lia.
Qed.

Lemma iadd_run dst src d a s :
  heap s !! dst = Some d -> heap s !! src = Some a ->
  shape a = shape d -> rect d -> rect a ->
  iadd dst src s = Ok (tt, State (<[dst := add2 d a]> (heap s)) (runs s) (stdout s)).
Proof.
  intros Hd Ha Hs Rd Ra. unfold iadd.
  rewrite (load_ok _ _ _ _ Hd), (load_ok _ _ _ _ Ha).
  rewrite (lift_ok _ _ _ _ (np_iadd2_same _ _ Hs Rd Ra)).
  unfold store. destruct (Nat.ltb_spec dst (length (heap s))) as [_|Hbad]; [reflexivity|].
  apply lookup_lt_Some in Hd. lia.
Qed.

Lemma dtheta_code :
  (0.5 * math_pi / float_of_nat (NUM_FARFIELD_PTS - 1))%float = dtheta_spec.
Proof. vm_compute. reflexivity. Qed.

Section Run.
Variable X : externals.
Hypothesis H6 : six_components X.

Lemma e_farfield_shape sim : shape (e_farfield X sim) = (NUM_FARFIELD_PTS, 3).
Proof. unfold shape, nrows, e_farfield. cbn [rows ncols]. rewrite length_map. reflexivity. Qed.

Lemma h_farfield_shape sim : shape (h_farfield X sim) = (NUM_FARFIELD_PTS, 3).
Proof. unfold shape, nrows, h_farfield. cbn [rows ncols]. rewrite length_map. reflexivity. Qed.

Lemma e_farfield_rect sim : rect (e_farfield X sim).
Proof.
  unfold rect, e_farfield. cbn [rows ncols]. apply Forall_forall. intros r Hr.
  apply list_elem_of_In, in_map_iff in Hr. destruct Hr as (t & <- & _). reflexivity.
Qed.

Lemma h_farfield_rect sim : rect (h_farfield X sim).
Proof.
  unfold rect, h_farfield. cbn [rows ncols]. apply Forall_forall. intros r Hr.
  apply list_elem_of_In, in_map_iff in Hr. destruct Hr as (t & <- & _). reflexivity.
Qed.

Lemma dipole_in_vacuum_run r m s :
  dipole_in_vacuum X r m s =
  Ok ((length (heap s), S (length (heap s))),
      State (heap s ++ [e_farfield X (Simulation r m); h_farfield X (Simulation r m)])
            (runs s ++ [m]) (stdout s)).
Proof.
  unfold dipole_in_vacuum. rewrite bind_run. unfold log_run at 1. cbv zeta.
  rewrite (get_farfields_run X H6). reflexivity.
Qed.

Lemma flux_from_farfields_run s e_field h_field e h :
  heap s !! e_field = Some e -> heap s !! h_field = Some h ->
  shape e = (NUM_FARFIELD_PTS, 3) -> shape h = (NUM_FARFIELD_PTS, 3) ->
  flux_from_farfields X e_field h_field s = Ok (flux_of X e h, s).
Proof.
  intros He Hh Se Sh. unfold flux_from_farfields. cbv zeta.
  rewrite bind_run, (radiation_pattern_run _ _ _ _ _ _ He Hh Se Sh).
  assert (Hn : nrows e = NUM_FARFIELD_PTS) by (unfold shape in Se; congruence).
  erewrite lift_ok;
    [| apply np_binop_same; unfold pattern_of, range;
       rewrite !length_map, length_seq, length_polar_rad; exact Hn].
  unfold ret, flux_of. f_equal. f_equal.
  unfold pattern_of. rewrite Hn, dtheta_code. reflexivity.
Qed.
End Run.

(** ** One pass of the loop *)

Section Pass.
Variable X : externals.
Hypothesis H6 : six_components X.

Lemma acc_heap_et hp et ht e h sim :
  et <> ht -> et < length hp ->
  acc_heap X hp et ht e h sim !! et = Some (add2 e (e_farfield X sim)).
Proof.
  intros Hne Hlt. unfold acc_heap.
  rewrite list_lookup_insert_ne by congruence.
  apply list_lookup_insert_eq. rewrite length_app. lia.
Qed.

Lemma acc_heap_ht hp et ht e h sim :
  ht < length hp ->
  acc_heap X hp et ht e h sim !! ht = Some (add2 h (h_farfield X sim)).
Proof.
  intros Hlt. unfold acc_heap.
  apply list_lookup_insert_eq. rewrite length_insert, length_app. lia.
Qed.

Lemma acc_heap_new_e hp et ht e h sim :
  et < length hp -> ht < length hp ->
  acc_heap X hp et ht e h sim !! length hp = Some (e_farfield X sim).
Proof.
  intros He Hh. unfold acc_heap.
  rewrite !list_lookup_insert_ne by lia. apply lookup_pair_l.
Qed.

Lemma acc_heap_new_h hp et ht e h sim :
  et < length hp -> ht < length hp ->
  acc_heap X hp et ht e h sim !! S (length hp) = Some (h_farfield X sim).
Proof.
  intros He Hh. unfold acc_heap.
  rewrite !list_lookup_insert_ne by lia. apply lookup_pair_r.
Qed.

Lemma accumulate_run {B} r k et ht e h s (K : loc * loc -> M B) :
  et <> ht ->
  heap s !! et = Some e -> shape e = (NUM_FARFIELD_PTS, 3) -> rect e ->
  heap s !! ht = Some h -> shape h = (NUM_FARFIELD_PTS, 3) -> rect h ->
  (eh <- dipole_in_vacuum X r k ;;
   iadd et (fst eh) ;;
   iadd ht (snd eh) ;;
   K eh)%py s
  = K (length (heap s), S (length (heap s)))
      (State (acc_heap X (heap s) et ht e h (Simulation r k))
             (runs s ++ [k]) (stdout s)).
Proof.
  intros Hne He Se Re Hh Sh Rh.
  pose proof (lookup_lt_Some _ _ _ He) as Let.
  pose proof (lookup_lt_Some _ _ _ Hh) as Lht.
  rewrite bind_run, (dipole_in_vacuum_run X H6). cbn [fst snd].
  rewrite bind_run.
  erewrite iadd_run; cbn [heap runs stdout].
  2:{ rewrite lookup_app_l by lia. exact He. }
  2:{ apply lookup_pair_l. }
  2:{ rewrite e_farfield_shape. congruence. }
  2:{ exact Re. }
  2:{ apply e_farfield_rect. }
  rewrite bind_run.
  erewrite iadd_run; cbn [heap runs stdout].
  2:{ rewrite list_lookup_insert_ne by congruence. rewrite lookup_app_l by lia. exact Hh. }
  2:{ rewrite list_lookup_insert_ne by lia. apply lookup_pair_r. }
  2:{ rewrite h_farfield_shape. congruence. }
  2:{ exact Rh. }
  2:{ apply h_farfield_rect. }
  reflexivity.
Qed.

End Pass.

Section PassSpec.
Variable X : externals.

Hypothesis H6 : six_components X.

Lemma add2_e_ok e sim :
  shape e = (NUM_FARFIELD_PTS, 3) -> rect e ->
  shape (add2 e (e_farfield X sim)) = (NUM_FARFIELD_PTS, 3) /\
  rect (add2 e (e_farfield X sim)).
Proof.
  intros Se Re. split.
  - rewrite add2_shape; [exact Se | rewrite e_farfield_shape; congruence].
  - apply add2_rect; [| exact Re | apply e_farfield_rect].
    unfold shape in Se. injection Se as _ ->. reflexivity.
Qed.

Lemma add2_h_ok h sim :
  shape h = (NUM_FARFIELD_PTS, 3) -> rect h ->
  shape (add2 h (h_farfield X sim)) = (NUM_FARFIELD_PTS, 3) /\
  rect (add2 h (h_farfield X sim)).
Proof.
  intros Sh Rh. split.
  - rewrite add2_shape; [exact Sh | rewrite h_farfield_shape; congruence].
  - apply add2_rect; [| exact Rh | apply h_farfield_rect].
    unfold shape in Sh. injection Sh as _ ->. reflexivity.
Qed.

Lemma loop_body_run r L s e h :
  e_field_total L <> h_field_total L ->
  heap s !! e_field_total L = Some e -> shape e = (NUM_FARFIELD_PTS, 3) -> rect e ->
  heap s !! h_field_total L = Some h -> shape h = (NUM_FARFIELD_PTS, 3) -> rect h ->
  exists s',
    loop_body X r L s = Ok ((exit_line (pass_line X r L), pass_locals X r L), s') /\
    runs s' = runs s ++ runs_of_mode (m L) /\
    stdout s' = stdout s ++ [pass_line X r L] /\
    heap s' !! e_field_total L = Some (add_runs_e X r (runs_of_mode (m L)) e) /\
    heap s' !! h_field_total L = Some (add_runs_h X r (runs_of_mode (m L)) h).
Proof.
  intros Hne He Se Re Hh Sh Rh.
  pose proof (lookup_lt_Some _ _ _ He) as Let.
  pose proof (lookup_lt_Some _ _ _ Hh) as Lht.
  unfold loop_body.
  rewrite (accumulate_run X H6 r (m L) _ _ e h s _ Hne He Se Re Hh Sh Rh).
  set (s1 := State (acc_heap X (heap s) _ _ e h (Simulation r (m L))) _ _).
  destruct (add2_e_ok e (Simulation r (m L)) Se Re) as [Se1 Re1].
  destruct (add2_h_ok h (Simulation r (m L)) Sh Rh) as [Sh1 Rh1].
  assert (He1 : heap s1 !! e_field_total L = Some (add2 e (e_farfield X (Simulation r (m L)))))
    by (apply acc_heap_et; assumption).
  assert (Hh1 : heap s1 !! h_field_total L = Some (add2 h (h_farfield X (Simulation r (m L)))))
    by (apply acc_heap_ht; assumption).
  rewrite bind_run.
  unfold pass_locals, pass_line, mode_flux, runs_of_mode, tested_mode, add_runs_e, add_runs_h.
  destruct (0 <? m L)%Z eqn:Hm.
  - rewrite (accumulate_run X H6 r (- m L) _ _ _ _ s1 _ Hne He1 Se1 Re1 Hh1 Sh1 Rh1).
    unfold ret at 1.
    set (s2 := State (acc_heap X (heap s1) _ _ _ _ (Simulation r (- m L))) _ _).
    assert (Let1 : e_field_total L < length (heap s1)) by (apply lookup_lt_Some in He1; exact He1).
    assert (Lht1 : h_field_total L < length (heap s1)) by (apply lookup_lt_Some in Hh1; exact Hh1).
    cbn [fst snd].
    rewrite bind_run.
    rewrite (flux_from_farfields_run X s2 _ _ (e_farfield X (Simulation r (- m L))) (h_farfield X (Simulation r (- m L)))).
    2:{ apply acc_heap_new_e; assumption. }
    2:{ apply acc_heap_new_h; assumption. }
    2:{ apply e_farfield_shape. }
    2:{ apply h_farfield_shape. }
    cbv zeta. rewrite bind_run. unfold print at 1.
    cbn [exit_line line_flux_max]. rewrite Hm. cbn [andb].
    unfold next_flux_max.
    destruct (PrimFloat.ltb _ POWER_DECAY_THRESHOLD);
      (eexists; split; [reflexivity|]; cbn [heap runs stdout s2 s1 fold_left];
       repeat split;
       [ rewrite <- app_assoc; reflexivity
       | apply acc_heap_et; assumption
       | apply acc_heap_ht; assumption ]).
  - unfold ret at 1. cbn [fst snd].
    rewrite bind_run.
    rewrite (flux_from_farfields_run X s1 _ _ (e_farfield X (Simulation r (m L))) (h_farfield X (Simulation r (m L)))).
    2:{ apply acc_heap_new_e; assumption. }
    2:{ apply acc_heap_new_h; assumption. }
    2:{ apply e_farfield_shape. }
    2:{ apply h_farfield_shape. }
    cbv zeta. rewrite bind_run. unfold print at 1.
    cbn [exit_line line_flux_max]. rewrite Hm. cbn [andb].
    eexists; split; [reflexivity|]. cbn [heap runs stdout s1 fold_left].
    repeat split; assumption.
Qed.
End PassSpec.

(** ** Binary64 facts, from the specification of the primitive operations *)

Lemma SFcompare_swap a b :
  SFcompare b a = option_map CompOpp (SFcompare a b).
Proof.
  destruct a as [sa|sa| |sa ma ea], b as [sb|sb| |sb mb eb]; try reflexivity;
    try (destruct sa; reflexivity); try (destruct sb; reflexivity);
    try (destruct sa, sb; reflexivity).
  destruct sa, sb; try reflexivity; cbn [SFcompare option_map]; f_equal;
    rewrite (Z.compare_antisym ea eb); destruct (ea ?= eb)%Z; cbn [CompOpp]; try reflexivity.
  - rewrite (Pos.compare_cont_antisym ma mb Eq). reflexivity.
  - rewrite (Pos.compare_cont_antisym ma mb Eq). reflexivity.
Qed.

Lemma SFcompare_refl a : sf_is_nan a = false -> SFcompare a a = Some Eq.
Proof.
  destruct a as [s|s| |s m e]; cbn; try discriminate; intros _;
    destruct s; try reflexivity; f_equal;
    rewrite Z.compare_refl; rewrite Pos.compare_cont_refl; reflexivity.
Qed.

Lemma SFcompare_nan a b :
  SFcompare a b = None <-> sf_is_nan a = true \/ sf_is_nan b = true.
Proof.
  destruct a as [sa|sa| |sa ma ea], b as [sb|sb| |sb mb eb]; cbn;
    split; intros H; try discriminate; try (destruct H; discriminate); auto.
Qed.

Lemma is_nan_spec x : is_nan x = sf_is_nan (Prim2SF x).
Proof.
  unfold is_nan. rewrite FloatAxioms.eqb_spec. unfold SFeqb.
  destruct (sf_is_nan (Prim2SF x)) eqn:H.
  - destruct (Prim2SF x); try discriminate. reflexivity.
  - rewrite (SFcompare_refl _ H). reflexivity.
Qed.

Lemma ltb_leb a b : PrimFloat.ltb a b = true -> PrimFloat.leb a b = true.
Proof.
  rewrite FloatAxioms.ltb_spec, FloatAxioms.leb_spec. unfold SFltb, SFleb.
  destruct (SFcompare _ _) as [[]|]; congruence.
Qed.

Lemma ltb_not_nan a b :
  PrimFloat.ltb a b = true -> is_nan a = false /\ is_nan b = false.
Proof.
  rewrite FloatAxioms.ltb_spec, !is_nan_spec. unfold SFltb.
  destruct (SFcompare _ _) as [c|] eqn:H; [|discriminate]. intros _.
  destruct (sf_is_nan (Prim2SF a)) eqn:Ha, (sf_is_nan (Prim2SF b)) eqn:Hb; auto;
    assert (SFcompare (Prim2SF a) (Prim2SF b) = None) by (apply SFcompare_nan; auto);
    congruence.
Qed.

Lemma leb_not_nan a b :
  PrimFloat.leb a b = true -> is_nan a = false /\ is_nan b = false.
Proof.
  rewrite FloatAxioms.leb_spec, !is_nan_spec. unfold SFleb.
  destruct (SFcompare _ _) as [c|] eqn:H; [|discriminate]. intros _.
  destruct (sf_is_nan (Prim2SF a)) eqn:Ha, (sf_is_nan (Prim2SF b)) eqn:Hb; auto;
    assert (SFcompare (Prim2SF a) (Prim2SF b) = None) by (apply SFcompare_nan; auto);
    congruence.
Qed.

Lemma leb_refl a : is_nan a = false -> PrimFloat.leb a a = true.
Proof.
  rewrite is_nan_spec, FloatAxioms.leb_spec. intros H. unfold SFleb.
  rewrite (SFcompare_refl _ H). reflexivity.
Qed.

(** Two numbers are comparable: when [a < b] fails, [b <= a] holds. *)
Lemma not_ltb_leb a b :
  is_nan a = false -> is_nan b = false ->
  PrimFloat.ltb a b = false -> PrimFloat.leb b a = true.
Proof.
  rewrite !is_nan_spec, FloatAxioms.ltb_spec, FloatAxioms.leb_spec. unfold SFltb, SFleb.
  intros Ha Hb. rewrite (SFcompare_swap (Prim2SF a) (Prim2SF b)).
  destruct (SFcompare (Prim2SF a) (Prim2SF b)) as [[]|] eqn:H; cbn; try congruence.
  apply SFcompare_nan in H. destruct H; congruence.
Qed.

(** [a >= b] excludes [a < b]. *)
Lemma leb_not_ltb a b : PrimFloat.leb b a = true -> PrimFloat.ltb a b = false.
Proof.
  rewrite FloatAxioms.ltb_spec, FloatAxioms.leb_spec. unfold SFltb, SFleb.
  rewrite (SFcompare_swap (Prim2SF b) (Prim2SF a)).
  destruct (SFcompare (Prim2SF b) (Prim2SF a)) as [[]|]; cbn; congruence.
Qed.

Lemma iter_pos_inv {A} (P : A -> Prop) (f : A -> A) :
  (forall x, P x -> P (f x)) -> forall p x, P x -> P (SpecFloat.iter_pos f p x).
Proof.
  intros Hf p. induction p as [p IH|p IH|]; intros x Hx; cbn [SpecFloat.iter_pos]; auto.
Qed.

Lemma shr_1_nonneg mrs : (0 <= shr_m mrs)%Z -> (0 <= shr_m (shr_1 mrs))%Z.
Proof.
  destruct mrs as [m r s]. cbn [shr_m]. intros H.
  destruct m as [|[p|p|]|p]; cbn; lia.
Qed.

Lemma shr_nonneg mrs e n :
  (0 <= shr_m mrs)%Z -> (0 <= shr_m (fst (shr mrs e n)))%Z.
Proof.
  intros H. destruct n as [|p|p]; cbn [shr fst]; auto.
  apply iter_pos_inv; auto using shr_1_nonneg.
Qed.

Lemma shr_m_of_loc m l : shr_m (shr_record_of_loc m l) = m.
Proof. destruct l as [|[]]; reflexivity. Qed.

Lemma shr_fexp_nonneg m e l :
  (0 <= m)%Z -> (0 <= shr_m (fst (shr_fexp prec emax m e l)))%Z.
Proof.
  intros H. unfold shr_fexp. apply shr_nonneg. rewrite shr_m_of_loc. exact H.
Qed.

Lemma round_nearest_even_nonneg m l :
  (0 <= m)%Z -> (0 <= round_nearest_even m l)%Z.
Proof.
  intros H. destruct l as [|[]]; cbn; try lia. destruct (Z.even m); lia.
Qed.

Lemma binary_round_aux_signed s m e l :
  (0 <= m)%Z -> sf_signed s (binary_round_aux prec emax s m e l).
Proof.
  intros H. unfold binary_round_aux.
  pose proof (shr_fexp_nonneg m e l H) as H1.
  destruct (shr_fexp prec emax m e l) as [mrs' e'] eqn:E1. cbn [fst] in H1.
  pose proof (shr_fexp_nonneg _ e' loc_Exact
                (round_nearest_even_nonneg _ (loc_of_shr_record mrs') H1)) as H2.
  destruct (shr_fexp prec emax (round_nearest_even _ _) e' loc_Exact) as [mrs'' e''].
  cbn [fst] in H2.
  destruct (shr_m mrs'') as [|p|p]; [reflexivity | | lia].
  destruct (e'' <=? emax - prec)%Z; reflexivity.
Qed.

Lemma SF64mul_self a :
  sf_is_nan a = false -> sf_signed false (SF64mul a a).
Proof.
  destruct a as [s|s| |s m e]; cbn [sf_is_nan]; try discriminate; intros _;
    unfold SF64mul; cbn [SFmul sf_signed]; try apply xorb_nilpotent.
  rewrite xorb_nilpotent. apply binary_round_aux_signed. lia.
Qed.

Lemma binary_round_signed s m e : sf_signed s (binary_round prec emax s m e).
Proof.
  unfold binary_round. destruct (shl_align _ _ _) as [mz ez].
  apply binary_round_aux_signed. lia.
Qed.

Lemma SF64add_signed a b :
  sf_signed false a -> sf_signed false b -> sf_signed false (SF64add a b).
Proof.
  destruct a as [sa|sa| |sa ma ea], b as [sb|sb| |sb mb eb]; cbn [sf_signed];
    try contradiction; intros -> ->; try reflexivity.
  unfold SF64add. cbn [SFadd cond_Zopp].
  cbn [Z.add binary_normalize]. apply binary_round_signed.
Qed.

Lemma SF64sqrt_signed a : sf_signed false a -> sf_signed false (SF64sqrt a).
Proof.
  destruct a as [s|s| |s m e]; cbn [sf_signed]; try contradiction; intros ->;
    try reflexivity.
  unfold SF64sqrt. cbn [SFsqrt]. unfold SFsqrt_core_binary.
  set (m' := match _ with Zpos _ => _ | Z0 => _ | Zneg _ => _ end).
  assert (Hm' : (0 <= m')%Z).
  { subst m'. destruct (_ - _)%Z; try lia. apply Z.shiftl_nonneg. lia. }
  pose proof (Z.sqrtrem_spec m' Hm') as Hs.
  destruct (Z.sqrtrem m') as [q r].
  apply binary_round_aux_signed. lia.
Qed.

Lemma leb0_signed x : sf_signed false (Prim2SF x) -> PrimFloat.leb 0 x = true.
Proof.
  rewrite FloatAxioms.leb_spec. change (Prim2SF 0) with (S754_zero false).
  destruct (Prim2SF x) as [s|s| |s m e]; cbn [sf_signed]; try contradiction;
    intros ->; reflexivity.
Qed.

(** The radial flux of two components that are numbers is a number, and not
    a negative one. *)
Lemma norm2_nonneg fx fz :
  is_nan fx = false -> is_nan fz = false ->
  PrimFloat.leb 0 (PrimFloat.sqrt (fx * fx + fz * fz)) = true.
Proof.
  rewrite !is_nan_spec. intros Hx Hz. apply leb0_signed.
  rewrite sqrt_spec, add_spec, !mul_spec.
  apply SF64sqrt_signed, SF64add_signed; apply SF64mul_self; assumption.
Qed.

(** A NaN component, and nothing else, makes the radial flux a NaN. *)
Lemma norm2_nan fx fz :
  is_nan (PrimFloat.sqrt (fx * fx + fz * fz)) = is_nan fx || is_nan fz.
Proof.
  destruct (is_nan fx) eqn:Hx; [|destruct (is_nan fz) eqn:Hz]; cbn [orb].
  - rewrite is_nan_spec in *. rewrite sqrt_spec, add_spec, !mul_spec.
    destruct (Prim2SF fx); try discriminate. reflexivity.
  - rewrite is_nan_spec in *. rewrite sqrt_spec, add_spec, !mul_spec.
    destruct (Prim2SF fz); try discriminate.
    destruct (SF64mul (Prim2SF fx) (Prim2SF fx)); reflexivity.
  - pose proof (norm2_nonneg fx fz Hx Hz) as H.
    apply leb_not_nan in H. tauto.
Qed.

(** The argument of the square root is never negative. *)
Lemma norm2_arg_not_negative fx fz :
  PrimFloat.ltb (fx * fx + fz * fz) 0 = false.
Proof.
  destruct (is_nan fx) eqn:Hx; [|destruct (is_nan fz) eqn:Hz].
  - rewrite FloatAxioms.ltb_spec, add_spec, !mul_spec. rewrite is_nan_spec in Hx.
    destruct (Prim2SF fx); try discriminate. reflexivity.
  - rewrite FloatAxioms.ltb_spec, add_spec, !mul_spec. rewrite is_nan_spec in Hz.
    destruct (Prim2SF fz); try discriminate.
    destruct (SF64mul (Prim2SF fx) (Prim2SF fx)); reflexivity.
  - apply leb_not_ltb, leb0_signed. rewrite add_spec, !mul_spec.
    rewrite is_nan_spec in Hx, Hz.
    apply SF64add_signed; apply SF64mul_self; assumption.
Qed.

(** The argument of the square root of two components that are numbers is
    a number, and not a negative one. *)
Lemma norm2_arg_nonneg fx fz :
  is_nan fx = false -> is_nan fz = false ->
  PrimFloat.leb 0 (fx * fx + fz * fz) = true.
Proof.
  rewrite !is_nan_spec. intros Hx Hz. apply leb0_signed.
  rewrite add_spec, !mul_spec.
  apply SF64add_signed; apply SF64mul_self; assumption.
Qed.

(** ** A quotient of at most one *)

Section DivLeOne.
Local Open Scope Z_scope.

Lemma fexp_eq z : fexp prec emax z = Z.max (z - 53) (-1074).
Proof. reflexivity. Qed.

Lemma digits2_size p : digits2_pos p = Pos.size p.
Proof. induction p; cbn; congruence. Qed.

Lemma digits2_lower p : 2 ^ Zpos (digits2_pos p) <= 2 * Zpos p.
Proof.
  rewrite digits2_size. pose proof (Pos.size_le p) as H.
  apply Pos2Z.pos_le_pos in H. rewrite Pos2Z.inj_pow in H.
  change (Zpos p~0) with (2 * Zpos p) in H. exact H.
Qed.

Lemma digits2_upper p : Zpos p < 2 ^ Zpos (digits2_pos p).
Proof.
  rewrite digits2_size. pose proof (Pos.size_gt p) as H.
  apply Pos2Z.pos_lt_pos in H. rewrite Pos2Z.inj_pow in H. exact H.
Qed.

Lemma Zdigits2_le q k : 0 <= q -> 0 <= k -> q < 2 ^ k -> Zdigits2 q <= k.
Proof.
  intros Hq Hk Hlt. destruct q as [|p|p]; cbn [Zdigits2]; try lia.
  pose proof (digits2_lower p) as Hl.
  assert (H : 2 ^ Zpos (digits2_pos p) < 2 ^ (k + 1)).
  { replace (k + 1) with (Z.succ k) by lia. rewrite Z.pow_succ_r by lia. lia. }
  apply Z.pow_lt_mono_r_iff in H; lia.
Qed.

Lemma shr_1_div2 mrs : 0 <= shr_m mrs -> shr_m (shr_1 mrs) = Z.div2 (shr_m mrs).
Proof.
  destruct mrs as [m r s]. cbn [shr_m]. intros H.
  destruct m as [|[p|p|]|p]; cbn; try reflexivity; lia.
Qed.

Lemma iter_shr_1 p : forall mrs,
  0 <= shr_m mrs ->
  shr_m (SpecFloat.iter_pos shr_1 p mrs) = Z.shiftr (shr_m mrs) (Zpos p).
Proof.
  induction p as [p IH|p IH|]; intros mrs H; cbn [SpecFloat.iter_pos].
  - rewrite IH, IH, shr_1_div2, Z.div2_spec by
      (repeat first [apply shr_1_nonneg | apply iter_pos_inv; [apply shr_1_nonneg|] | exact H]).
    rewrite !Z.shiftr_shiftr by lia. f_equal. lia.
  - rewrite IH, IH by
      (repeat first [apply iter_pos_inv; [apply shr_1_nonneg|] | exact H]).
    rewrite !Z.shiftr_shiftr by lia. f_equal. lia.
  - rewrite shr_1_div2, Z.div2_spec by exact H. reflexivity.
Qed.

(** What [shr_fexp] does to a non-negative mantissa: nothing, or a shift to
    the exponent [fexp] gives. *)
Lemma shr_fexp_cases m e l :
  0 <= m ->
  let r := shr_fexp prec emax m e l in
  (shr_m (fst r) = m /\ snd r = e) \/
  (e < fexp prec emax (Zdigits2 m + e) /\
   snd r = fexp prec emax (Zdigits2 m + e) /\
   shr_m (fst r) = m / 2 ^ (snd r - e)).
Proof.
  intros H. unfold shr_fexp, shr.
  destruct (fexp prec emax (Zdigits2 m + e) - e) as [|p|p] eqn:E; cbn [fst snd].
  - left. split; [apply shr_m_of_loc | reflexivity].
  - right. rewrite iter_shr_1 by (rewrite shr_m_of_loc; exact H).
    rewrite shr_m_of_loc, Z.shiftr_div_pow2 by lia.
    repeat split; try lia. f_equal. f_equal. lia.
  - left. split; [apply shr_m_of_loc | reflexivity].
Qed.

(** A mantissa below [2 ^ - e] keeps that bound through [shr_fexp]. *)
Lemma shr_fexp_below m e l b :
  0 <= m -> e <= -52 -> m < 2 ^ (- e) + b -> 0 <= b <= 1 ->
  let r := shr_fexp prec emax m e l in
  snd r <= -52 /\ 0 <= shr_m (fst r) /\ shr_m (fst r) < 2 ^ (- snd r) + b.
Proof.
  intros Hm He Hlt Hb r. subst r.
  pose proof (shr_fexp_nonneg m e l Hm) as Hnn.
  destruct (shr_fexp_cases m e l Hm) as [[-> ->]|(Hsh & He1 & Hm1)].
  - auto.
  - assert (Hpow : 0 < 2 ^ (- e)) by (apply Z.pow_pos_nonneg; lia).
    assert (Hd : Zdigits2 m <= - e + 1).
    { apply Zdigits2_le; try lia.
      replace (- e + 1) with (Z.succ (- e)) by lia. rewrite Z.pow_succ_r by lia. lia. }
    rewrite fexp_eq in He1, Hsh.
    set (e1 := snd (shr_fexp prec emax m e l)) in *.
    assert (He1' : e1 <= -52) by lia.
    split; [exact He1'|]. split; [exact Hnn|].
    rewrite Hm1.
    assert (Hsplit : 2 ^ (- e) = 2 ^ (- e1) * 2 ^ (e1 - e)).
    { rewrite <- Z.pow_add_r by lia. f_equal. lia. }
    assert (Hp1 : 0 < 2 ^ (e1 - e)) by (apply Z.pow_pos_nonneg; lia).
    assert (Hp2 : 0 < 2 ^ (- e1)) by (apply Z.pow_pos_nonneg; lia).
    assert (Hle : m / 2 ^ (e1 - e) <= 2 ^ (- e1)).
    { apply Z.div_le_upper_bound; [lia|]. rewrite Z.mul_comm. lia. }
    destruct (Z.eq_dec b 1) as [->|Hb1]; [lia|].
    assert (b = 0) by lia. subst b.
    assert (m / 2 ^ (e1 - e) < 2 ^ (- e1)); [|lia].
    apply Z.div_lt_upper_bound; [lia|]. rewrite Z.mul_comm. lia.
Qed.

Lemma round_nearest_even_le m l : round_nearest_even m l <= m + 1.
Proof. destruct l as [|[]]; cbn; try lia. destruct (Z.even m); lia. Qed.

(** Rounding a ratio below one gives at most one. *)
Lemma binary_round_aux_le_one q e l :
  0 <= q -> e <= -52 -> q < 2 ^ (- e) ->
  SFleb (binary_round_aux prec emax false q e l) sf_one = true.
Proof.
  intros Hq He Hlt. unfold binary_round_aux.
  pose proof (shr_fexp_below q e l 0 Hq He ltac:(lia) ltac:(lia)) as H1.
  destruct (shr_fexp prec emax q e l) as [mrs1 e1]. cbn [fst snd] in H1.
  destruct H1 as (He1 & Hm1 & Hlt1).
  pose proof (round_nearest_even_le (shr_m mrs1) (loc_of_shr_record mrs1)) as Hr.
  pose proof (round_nearest_even_nonneg _ (loc_of_shr_record mrs1) Hm1) as Hrn.
  pose proof (shr_fexp_below _ e1 loc_Exact 1 Hrn He1 ltac:(lia) ltac:(lia)) as H2.
  destruct (shr_fexp prec emax (round_nearest_even _ _) e1 loc_Exact) as [mrs2 e2].
  cbn [fst snd] in H2. destruct H2 as (He2 & Hm2 & Hlt2).
  destruct (shr_m mrs2) as [|m|m] eqn:Em; [reflexivity | | lia].
  destruct (Z.leb_spec e2 (emax - prec)) as [_|Hbad];
    [| change (emax - prec) with 971 in Hbad; lia].
  unfold SFleb, sf_one. cbn [SFcompare].
  destruct (Z.compare_spec e2 (-52)) as [->|Hlt'|Hgt]; [| reflexivity | lia].
  change (2 ^ (- -52)) with 4503599627370496 in Hlt2.
  rewrite Pos.compare_cont_spec. cbn [Pos.switch_Eq].
  destruct (Pos.compare_spec m 4503599627370496); try reflexivity. lia.
Qed.

Lemma bounded_facts m e :
  bounded prec emax m e = true ->
  -1074 <= e /\ Zpos (digits2_pos m) <= 53 /\
  (-1074 < e -> Zpos (digits2_pos m) = 53).
Proof.
  unfold bounded, canonical_mantissa. intros H.
  apply andb_true_iff in H. destruct H as [H _].
  apply Z.eqb_eq in H. rewrite fexp_eq in H. lia.
Qed.

Lemma div_eucl_div a b : fst (Z.div_eucl a b) = a / b.
Proof. reflexivity. Qed.

(** The quotient of the mantissas of [x < y], both positive and finite, and
    its exponent. *)
Lemma div_core_below mx ex my ey :
  bounded prec emax mx ex = true -> bounded prec emax my ey = true ->
  ex < ey \/ (ex = ey /\ Zpos mx < Zpos my) ->
  let r := SFdiv_core_binary prec emax (Zpos mx) ex (Zpos my) ey in
  0 <= fst (fst r) /\ snd (fst r) <= -52 /\
  fst (fst r) < 2 ^ (- snd (fst r)).
Proof.
  intros Bx By Hlt.
  destruct (bounded_facts _ _ Bx) as (Ex & Dx & _).
  destruct (bounded_facts _ _ By) as (Ey & Dy & Ny).
  pose proof (digits2_lower mx) as Lx. pose proof (digits2_upper mx) as Ux.
  pose proof (digits2_lower my) as Ly. pose proof (digits2_upper my) as Uy.
  unfold SFdiv_core_binary. cbn [Zdigits2].
  set (d1 := Zpos (digits2_pos mx)) in *. set (d2 := Zpos (digits2_pos my)) in *.
  rewrite fexp_eq.
  set (e' := Z.min (Z.max (d1 + ex - (d2 + ey) - 53) (-1074)) (ex - ey)).
  set (s := ex - ey - e').
  assert (Hd : d1 + ex <= d2 + ey).
  { destruct Hlt as [Hlt|[-> Hm]].
    - specialize (Ny ltac:(lia)). lia.
    - assert (H : 2 ^ d1 < 2 ^ (Z.succ d2)) by (rewrite Z.pow_succ_r by lia; lia).
      apply Z.pow_lt_mono_r_iff in H; lia. }
  assert (He' : e' <= -52) by (subst e'; lia).
  assert (Hs : 0 <= s) by (subst s e'; lia).
  assert (Hscale : Zpos mx * 2 ^ s < Zpos my * 2 ^ (- e')).
  { destruct Hlt as [Hlt|[-> Hm]].
    - specialize (Ny ltac:(lia)).
      assert (H53 : 2 ^ d1 <= 2 ^ 53) by (apply Z.pow_le_mono_r; lia).
      rewrite Ny in Ly.
      assert (Hm : Zpos mx < 2 * Zpos my) by lia.
      assert (Hp : 2 ^ (Z.succ s) <= 2 ^ (- e')) by (apply Z.pow_le_mono_r; subst s; lia).
      rewrite Z.pow_succ_r in Hp by lia.
      assert (0 < 2 ^ s) by (apply Z.pow_pos_nonneg; lia).
      nia.
    - replace (- e') with s by (subst s; lia).
      assert (0 < 2 ^ s) by (apply Z.pow_pos_nonneg; lia).
      nia. }
  assert (Hm' : match s with
                | Zpos _ => Z.shiftl (Zpos mx) s
                | Z0 => Zpos mx
                | Zneg _ => Z0
                end = Zpos mx * 2 ^ s).
  { destruct s as [|p|p] eqn:Es; [cbn; lia | | lia].
    apply Z.shiftl_mul_pow2. lia. }
  rewrite Hm'.
  pose proof (div_eucl_div (Zpos mx * 2 ^ s) (Zpos my)) as Hq.
  destruct (Z.div_eucl (Zpos mx * 2 ^ s) (Zpos my)) as [q r].
  cbn [fst snd] in *. subst q.
  assert (0 < 2 ^ s) by (apply Z.pow_pos_nonneg; lia).
  split; [apply Z.div_pos; lia|]. split; [exact He'|].
  apply Z.div_lt_upper_bound; lia.
Qed.

Lemma div_core_nonneg mx ex my ey :
  0 <= fst (fst (SFdiv_core_binary prec emax (Zpos mx) ex (Zpos my) ey)).
Proof.
  unfold SFdiv_core_binary.
  set (m' := match _ with Zpos _ => _ | Z0 => _ | Zneg _ => _ end).
  assert (Hm' : 0 <= m').
  { subst m'. destruct (_ - _ - _); try lia. apply Z.shiftl_nonneg. lia. }
  pose proof (div_eucl_div m' (Zpos my)) as Hq.
  destruct (Z.div_eucl m' (Zpos my)) as [q r]. cbn [fst snd] in *. subst q.
  apply Z.div_pos; lia.
Qed.

(** A number divided by itself. *)
Lemma div_core_self m e :
  SFdiv_core_binary prec emax (Zpos m) e (Zpos m) e = (2 ^ 53, -53, loc_Exact).
Proof.
  unfold SFdiv_core_binary.
  replace (Zdigits2 (Zpos m) + e - (Zdigits2 (Zpos m) + e)) with 0 by lia.
  replace (e - e) with 0 by lia.
  change (Z.min (fexp prec emax 0) 0) with (-53).
  change (0 - -53) with 53.
  cbv iota. rewrite Z.shiftl_mul_pow2 by lia.
  pose proof (div_eucl_div (Zpos m * 2 ^ 53) (Zpos m)) as Hq.
  pose proof (Z.div_eucl_eq (Zpos m * 2 ^ 53) (Zpos m) ltac:(lia)) as Heq.
  destruct (Z.div_eucl (Zpos m * 2 ^ 53) (Zpos m)) as [q r]. cbn [fst] in Hq.
  rewrite (Z.mul_comm (Zpos m)), Z.div_mul in Hq by lia. subst q.
  assert (r = 0) by lia. subst r.
  unfold new_location. destruct (Z.even (Zpos m)); reflexivity.
Qed.

Lemma signed_true_le_one a : sf_signed true a -> SFleb a sf_one = true.
Proof.
  destruct a as [s|s| |s m e]; cbn [sf_signed]; try contradiction;
    intros ->; reflexivity.
Qed.

Lemma SF64div_le_one a b :
  valid_binary a = true -> valid_binary b = true ->
  SFleb a b = true ->
  SFltb (S754_zero false) b = true -> SFltb b (S754_infinity false) = true ->
  SFleb (SF64div a b) sf_one = true.
Proof.
  intros Va Vb Hle Hpos Hfin.
  destruct b as [sb|sb| |sb mb eb]; try discriminate.
  { destruct sb; discriminate. }
  destruct sb; [discriminate|]. clear Hpos Hfin.
  destruct a as [sa|sa| |sa ma ea]; try discriminate.
  - reflexivity.
  - destruct sa; [reflexivity | discriminate].
  - unfold SF64div. cbn [SFdiv].
    destruct sa.
    + pose proof (div_core_nonneg ma ea mb eb) as Hq.
      destruct (SFdiv_core_binary _ _ _ _ _ _) as [[q e'] l]. cbn [fst] in Hq.
      apply signed_true_le_one, binary_round_aux_signed, Hq.
    + cbn [valid_binary] in Va, Vb.
      unfold SFleb in Hle. cbn [SFcompare] in Hle.
      assert (Hcases : (ea < eb \/ (ea = eb /\ Zpos ma < Zpos mb)) \/ (ea = eb /\ ma = mb)).
      { destruct (Z.compare_spec ea eb) as [->|?|?]; [| lia | discriminate].
        rewrite Pos.compare_cont_spec in Hle. cbn [Pos.switch_Eq] in Hle.
        destruct (Pos.compare_spec ma mb) as [->|?|?]; [right; auto | left; right; lia | discriminate]. }
      destruct Hcases as [Hlt|[-> ->]].
      * pose proof (div_core_below ma ea mb eb Va Vb Hlt) as Hb.
        destruct (SFdiv_core_binary _ _ _ _ _ _) as [[q e'] l]. cbn [fst snd] in Hb.
        destruct Hb as (Hq & He' & Hlt').
        cbn [xorb]. apply binary_round_aux_le_one; assumption.
      * rewrite div_core_self. vm_compute. reflexivity.
Qed.

(** The quotient by a positive finite number that is at least the dividend
    is at most one. *)
Lemma div_le_one x y :
  PrimFloat.leb x y = true ->
  PrimFloat.ltb 0 y = true -> PrimFloat.ltb y infinity = true ->
  PrimFloat.leb (x / y) 1 = true.
Proof.
  rewrite !FloatAxioms.leb_spec, !FloatAxioms.ltb_spec, div_spec.
  change (Prim2SF 0) with (S754_zero false).
  change (Prim2SF infinity) with (S754_infinity false).
  change (Prim2SF 1) with sf_one.
  apply SF64div_le_one; apply Prim2SF_valid.
Qed.

End DivLeOne.

(** ** The loop *)

Section Loop.
Variable X : externals.

Hypothesis H6 : six_components X.

Lemma add_runs_e_ok r ks : forall e,
  shape e = (NUM_FARFIELD_PTS, 3) -> rect e ->
  shape (add_runs_e X r ks e) = (NUM_FARFIELD_PTS, 3) /\
  rect (add_runs_e X r ks e).
Proof.
  induction ks as [|k ks IH]; intros e Se Re; cbn [add_runs_e fold_left]; [auto|].
  destruct (add2_e_ok X e (Simulation r k) Se Re). apply IH; assumption.
Qed.

Lemma add_runs_h_ok r ks : forall h,
  shape h = (NUM_FARFIELD_PTS, 3) -> rect h ->
  shape (add_runs_h X r ks h) = (NUM_FARFIELD_PTS, 3) /\
  rect (add_runs_h X r ks h).
Proof.
  induction ks as [|k ks IH]; intros h Sh Rh; cbn [add_runs_h fold_left]; [auto|].
  destruct (add2_h_ok X h (Simulation r k) Sh Rh). apply IH; assumption.
Qed.

Lemma line_m_pass r L : line_m (pass_line X r L) = m L.
Proof. reflexivity. Qed.

Lemma while_true_run r fuel : forall L s e h,
  e_field_total L <> h_field_total L ->
  heap s !! e_field_total L = Some e -> shape e = (NUM_FARFIELD_PTS, 3) -> rect e ->
  heap s !! h_field_total L = Some h -> shape h = (NUM_FARFIELD_PTS, 3) -> rect h ->
  exists s',
    while_true X fuel r L s = Ok (loop_result X fuel r L, s') /\
    stdout s' = stdout s ++ loop_lines X fuel r L /\
    runs s' = runs s ++ loop_runs X fuel r L /\
    heap s' !! e_field_total L = Some (add_runs_e X r (loop_runs X fuel r L) e) /\
    heap s' !! h_field_total L = Some (add_runs_h X r (loop_runs X fuel r L) h).
Proof.
  induction fuel as [|fuel IH]; intros L s e h Hne He Se Re Hh Sh Rh.
  - exists s. cbn. rewrite !app_nil_r. auto.
  - destruct (loop_body_run X H6 r L s e h Hne He Se Re Hh Sh Rh)
      as (s1 & Hrun & Hruns & Hout & He1 & Hh1).
    cbn [while_true]. rewrite bind_run, Hrun. cbn [fst snd].
    unfold loop_runs. cbn [loop_lines loop_result].
    destruct (exit_line (pass_line X r L)) eqn:Hexit.
    + exists s1. cbn [map flat_map]. rewrite line_m_pass, app_nil_r. auto.
    + destruct (add_runs_e_ok r (runs_of_mode (m L)) e Se Re) as [Se1 Re1].
      destruct (add_runs_h_ok r (runs_of_mode (m L)) h Sh Rh) as [Sh1 Rh1].
      assert (Hlocs : e_field_total (pass_locals X r L) = e_field_total L /\
                      h_field_total (pass_locals X r L) = h_field_total L) by (split; reflexivity).
      destruct Hlocs as [Hle Hlh].
      destruct (IH (pass_locals X r L) s1 _ _
                  ltac:(rewrite Hle, Hlh; exact Hne)
                  ltac:(rewrite Hle; exact He1) Se1 Re1
                  ltac:(rewrite Hlh; exact Hh1) Sh1 Rh1)
        as (s2 & Hrun2 & Hout2 & Hruns2 & He2 & Hh2).
      exists s2. rewrite Hle in He2. rewrite Hlh in Hh2.
      split; [exact Hrun2|].
      cbn [map flat_map]. rewrite line_m_pass.
      split; [rewrite Hout2, Hout, <- app_assoc; reflexivity|].
      split; [rewrite Hruns2, Hruns, <- app_assoc; reflexivity|].
      unfold add_runs_e, add_runs_h in *. rewrite !fold_left_app. auto.
Qed.

(** ** The printed lines, as a list *)

Lemma loop_lines_modes r fuel : forall L,
  map line_m (loop_lines X fuel r L) =
  map (fun i => (m L + Z.of_nat i)%Z) (seq 0 (length (loop_lines X fuel r L))).
Proof.
  induction fuel as [|fuel IH]; intros L; [reflexivity|].
  cbn [loop_lines]. destruct (exit_line (pass_line X r L)) eqn:Hexit.
  - cbn. f_equal. lia.
  - cbn [map length seq]. rewrite line_m_pass. f_equal; [lia|].
    rewrite IH, <- seq_shift, map_map. unfold pass_locals. rewrite Hexit. cbn [m].
    apply map_ext. intros i. lia.
Qed.

Lemma loop_lines_ratio r fuel : forall L,
  Forall (fun o => line_power_decay o =
                   (line_flux o / line_flux_max o)%float)
         (loop_lines X fuel r L).
Proof.
  induction fuel as [|fuel IH]; intros L; [constructor|].
  cbn [loop_lines]. constructor; [reflexivity|].
  destruct (exit_line _); [constructor | apply IH].
Qed.

Lemma loop_result_none r fuel : forall L,
  loop_result X fuel r L = None ->
  length (loop_lines X fuel r L) = fuel /\
  Forall (fun o => exit_line o = false) (loop_lines X fuel r L).
Proof.
  induction fuel as [|fuel IH]; intros L H; [split; [reflexivity|constructor]|].
  cbn [loop_lines loop_result] in *.
  destruct (exit_line (pass_line X r L)) eqn:Hexit; [discriminate|].
  destruct (IH _ H) as [Hl Hf]. split; [cbn; lia|]. constructor; assumption.
Qed.

Lemma loop_result_some r fuel : forall L Lf,
  loop_result X fuel r L = Some Lf ->
  exists init last,
    loop_lines X fuel r L = init ++ [last] /\
    Forall (fun o => exit_line o = false) init /\
    exit_line last = true /\
    m Lf = line_m last /\ flux_max Lf = line_flux_max last.
Proof.
  induction fuel as [|fuel IH]; intros L Lf H; [discriminate|].
  cbn [loop_lines loop_result] in *.
  destruct (exit_line (pass_line X r L)) eqn:Hexit.
  - injection H as <-. exists [], (pass_line X r L).
    unfold pass_locals. rewrite Hexit. repeat split; auto.
  - destruct (IH _ _ H) as (init & last & Hl & Hf & He & Hm & Hfm).
    exists (pass_line X r L :: init), last. rewrite Hl.
    repeat split; auto.
Qed.
End Loop.

Section Main.
Variable X : externals.
Hypothesis H6 : six_components X.

Lemma zeros_shape n k : shape (np_zeros2 n k) = (n, k).
Proof. unfold shape, nrows, np_zeros2. cbn [rows ncols]. rewrite length_replicate. reflexivity. Qed.

Lemma zeros_rect n k : rect (np_zeros2 n k).
Proof.
  unfold rect, np_zeros2. cbn [rows ncols]. apply Forall_forall. intros r Hr.
  apply elem_of_replicate in Hr. destruct Hr as [-> _]. apply length_replicate.
Qed.

Lemma main_loop_run fuel r :
  exists s,
    main_loop X fuel r initial_state = Ok (loop_result X fuel r locals0, s) /\
    stdout s = loop_lines X fuel r locals0 /\
    runs s = loop_runs X fuel r locals0 /\
    heap s !! e_field_total locals0 =
      Some (add_runs_e X r (loop_runs X fuel r locals0) (np_zeros2 NUM_FARFIELD_PTS 3)) /\
    heap s !! h_field_total locals0 =
      Some (add_runs_h X r (loop_runs X fuel r locals0) (np_zeros2 NUM_FARFIELD_PTS 3)).
Proof.
  unfold main_loop, main_init. rewrite bind_run.
  change ((e_field_total <- alloc (np_zeros2 NUM_FARFIELD_PTS 3);;
           h_field_total <- alloc (np_zeros2 NUM_FARFIELD_PTS 3);;
           ret (Locals e_field_total h_field_total 0 0))%py initial_state)
    with (Ok (locals0, State [np_zeros2 NUM_FARFIELD_PTS 3; np_zeros2 NUM_FARFIELD_PTS 3] [] [])).
  destruct (while_true_run X H6 r fuel locals0
              (State [np_zeros2 NUM_FARFIELD_PTS 3; np_zeros2 NUM_FARFIELD_PTS 3] [] [])
              (np_zeros2 NUM_FARFIELD_PTS 3) (np_zeros2 NUM_FARFIELD_PTS 3)
              ltac:(discriminate) eq_refl (zeros_shape _ _) (zeros_rect _ _)
              eq_refl (zeros_shape _ _) (zeros_rect _ _))
    as (s & Hrun & Hout & Hruns & He & Hh).
  exists s. cbn [stdout runs app] in *. auto.
Qed.
End Main.

(** ** The loop from the initial state *)

Lemma exit_line_eq o :
  exit_line o =
  (0 <? line_m o)%Z && PrimFloat.ltb (line_power_decay o) POWER_DECAY_THRESHOLD.
Proof. destruct o; reflexivity. Qed.

Lemma exits_at_iff X fuel r L i o :
  loop_lines X fuel r L !! i = Some o ->
  exit_line o = true <->
  exits_at (loop_result X fuel r L) (loop_lines X fuel r L) i.
Proof.
  intros Hi. unfold exits_at.
  destruct (loop_result X fuel r L) as [Lf|] eqn:Hres.
  - destruct (loop_result_some X r fuel L Lf Hres)
      as (init & last & Hl & Hf & He & _).
    rewrite Hl in *. rewrite length_app. cbn [length].
    destruct (Nat.lt_ge_cases i (length init)) as [Hlt|Hge].
    + rewrite lookup_app_l in Hi by exact Hlt.
      rewrite (proj1 (Forall_lookup _ _) Hf _ _ Hi).
      split; [discriminate | intros [_ ?]; lia].
    + rewrite lookup_app_r in Hi by exact Hge.
      destruct (i - length init) as [|k] eqn:Hk; [|destruct k; discriminate].
      injection Hi as <-. rewrite He. split; [|reflexivity].
      intros _. split; [eexists; reflexivity | lia].
  - destruct (loop_result_none X r fuel L Hres) as [_ Hf].
    rewrite (proj1 (Forall_lookup _ _) Hf _ _ Hi).
    split; [discriminate | intros [[? ?] _]; discriminate].
Qed.


Lemma loop_lines_flux X r fuel : forall L,
  Forall (fun o => line_flux o = mode_flux X r (line_m o)) (loop_lines X fuel r L).
Proof.
  induction fuel as [|fuel IH]; intros L; [constructor|].
  cbn [loop_lines]. constructor; [reflexivity|].
  destruct (exit_line _); [constructor | apply IH].
Qed.

Lemma mode_flux_ext X X' r k :
  math_sin X' = math_sin X -> math_cos X' = math_cos X ->
  np_sin1 X' = np_sin1 X -> np_sum X' = np_sum X ->
  (forall x, mp_get_farfield X' (Simulation r (tested_mode k)) x =
             mp_get_farfield X (Simulation r (tested_mode k)) x) ->
  mode_flux X' r k = mode_flux X r k.
Proof.
  intros Hs Hc Hn Hsum Hff. unfold mode_flux. cbv zeta.
  assert (He : e_farfield X' (Simulation r (tested_mode k)) =
               e_farfield X (Simulation r (tested_mode k))).
  { unfold e_farfield, e_row, far_field_at. rewrite Hs, Hc. f_equal.
    apply map_ext. intros t. apply map_ext. intros j. rewrite Hff. reflexivity. }
  assert (Hh : h_farfield X' (Simulation r (tested_mode k)) =
               h_farfield X (Simulation r (tested_mode k))).
  { unfold h_farfield, h_row, far_field_at. rewrite Hs, Hc. f_equal.
    apply map_ext. intros t. apply map_ext. intros j. rewrite Hff. reflexivity. }
  rewrite He, Hh. unfold flux_of. rewrite Hn, Hsum. reflexivity.
Qed.

(** ** The running maximum of the flux *)

Lemma next_flux_max_not_nan fm f :
  is_nan fm = false -> is_nan (next_flux_max fm f) = false.
Proof.
  intros H. unfold next_flux_max.
  destruct (PrimFloat.ltb fm f) eqn:E; [|exact H].
  apply ltb_not_nan in E. tauto.
Qed.

Lemma next_flux_max_ge_old fm f :
  is_nan fm = false -> PrimFloat.leb fm (next_flux_max fm f) = true.
Proof.
  intros H. unfold next_flux_max.
  destruct (PrimFloat.ltb fm f) eqn:E; [apply ltb_leb, E | apply leb_refl, H].
Qed.

Lemma next_flux_max_ge_flux fm f :
  is_nan fm = false -> is_nan f = false ->
  PrimFloat.leb f (next_flux_max fm f) = true.
Proof.
  intros H Hf. unfold next_flux_max.
  destruct (PrimFloat.ltb fm f) eqn:E; [apply leb_refl, Hf | apply not_ltb_leb; assumption].
Qed.

Lemma loop_lines_flux_max X r fuel : forall L,
  is_nan (flux_max L) = false ->
  (forall i o, loop_lines X fuel r L !! i = Some o ->
     is_nan (line_flux_max o) = false /\
     (is_nan (line_flux o) = false ->
      PrimFloat.leb (line_flux o) (line_flux_max o) = true)) /\
  (forall o, loop_lines X fuel r L !! 0 = Some o ->
     PrimFloat.leb (flux_max L) (line_flux_max o) = true) /\
  (forall i o o', loop_lines X fuel r L !! i = Some o ->
     loop_lines X fuel r L !! S i = Some o' ->
     PrimFloat.leb (line_flux_max o) (line_flux_max o') = true).
Proof.
  induction fuel as [|fuel IH]; intros L HL.
  { repeat split; intros; discriminate. }
  cbn [loop_lines].
  set (o0 := pass_line X r L).
  assert (Hnn : is_nan (line_flux_max o0) = false)
    by (apply next_flux_max_not_nan, HL).
  assert (H0 : forall o, Some o0 = Some o ->
                 is_nan (line_flux_max o) = false /\
                 (is_nan (line_flux o) = false ->
                  PrimFloat.leb (line_flux o) (line_flux_max o) = true)).
  { intros o [= <-]. split; [exact Hnn|].
    intros Hf. apply next_flux_max_ge_flux; assumption. }
  assert (H1 : forall o, Some o0 = Some o ->
                 PrimFloat.leb (flux_max L) (line_flux_max o) = true).
  { intros o [= <-]. apply next_flux_max_ge_old, HL. }
  destruct (exit_line o0) eqn:Hexit.
  - split; [|split].
    + intros [|i] o Hi; [apply H0; exact Hi | destruct i; discriminate].
    + exact H1.
    + intros [|i] o o' _ Ho'; discriminate.
  - destruct (IH (pass_locals X r L) Hnn) as (Ha & Hb & Hc).
    split; [|split].
    + intros [|i] o Hi; [apply H0; exact Hi | apply (Ha i o); exact Hi].
    + exact H1.
    + intros [|i] o o' Ho Ho'.
      * cbn in Ho. injection Ho as <-. apply (Hb o'). exact Ho'.
      * apply (Hc i o o'); assumption.
Qed.

Lemma exit_needs_two_passes X r fuel :
  is_Some (loop_result X fuel r locals0) ->
  2 <= length (loop_lines X fuel r locals0).
Proof.
  intros [Lf Hres].
  destruct (loop_result_some X r fuel locals0 Lf Hres)
    as (init & last & Hl & _ & He & _).
  pose proof (loop_lines_modes X r fuel locals0) as Hm.
  rewrite Hl in *. rewrite length_app in *. cbn [length] in *.
  assert (Hlast : line_m last = Z.of_nat (length init)).
  { apply (f_equal (fun l => nth (length init) l 0%Z)) in Hm.
    rewrite map_app, app_nth2, length_map, Nat.sub_diag in Hm by (rewrite length_map; lia).
    cbn [map nth] in Hm. rewrite Hm.
    rewrite (nth_indep _ 0%Z (0 + Z.of_nat 0)%Z)
      by (rewrite length_map, length_seq; lia).
    rewrite (map_nth (fun i => (m locals0 + Z.of_nat i)%Z)), seq_nth by lia.
    cbn. lia. }
  rewrite exit_line_eq in He. apply andb_true_iff in He. destruct He as [He _].
  apply Z.ltb_lt in He. lia.
Qed.

Lemma overflow_six : six_components overflow_externals.
Proof.
  intros sim x. unfold overflow_externals, overflow_farfield. cbn.
  destruct (sim_m sim =? 0)%Z; reflexivity.
Qed.

(** ** The order of binary64, and [np.max] *)

Lemma SFleb_key a b :
  SFleb a b = true <->
  sf_is_nan a = false /\ sf_is_nan b = false /\ key_le (sf_key a) (sf_key b).
Proof.
  unfold SFleb.
  destruct a as [sa|sa| |sa ma ea], b as [sb|sb| |sb mb eb];
    try destruct sa; try destruct sb; cbn [SFcompare sf_is_nan sf_key key_le];
    try (split; [intros; repeat split; try reflexivity; try discriminate; lia
                | intros (? & ? & ?); try reflexivity; try discriminate; lia]).
  - destruct (Z.compare_spec ea eb) as [->|?|?]; cbn [CompOpp].
    + rewrite Pos.compare_cont_spec. cbn [Pos.switch_Eq].
      destruct (Pos.compare_spec ma mb) as [->|?|?]; cbn [CompOpp];
        (split; [intros; repeat split; try reflexivity; try discriminate; lia
                | intros (? & ? & ?); try reflexivity; try discriminate; lia]).
    + split; [intros; repeat split; try reflexivity; try discriminate; lia
             | intros (? & ? & ?); try reflexivity; try discriminate; lia].
    + split; [intros; repeat split; try reflexivity; try discriminate; lia
             | intros (? & ? & ?); try reflexivity; try discriminate; lia].
  - destruct (Z.compare_spec ea eb) as [->|?|?].
    + rewrite Pos.compare_cont_spec. cbn [Pos.switch_Eq].
      destruct (Pos.compare_spec ma mb) as [->|?|?];
        (split; [intros; repeat split; try reflexivity; try discriminate; lia
                | intros (? & ? & ?); try reflexivity; try discriminate; lia]).
    + split; [intros; repeat split; try reflexivity; try discriminate; lia
             | intros (? & ? & ?); try reflexivity; try discriminate; lia].
    + split; [intros; repeat split; try reflexivity; try discriminate; lia
             | intros (? & ? & ?); try reflexivity; try discriminate; lia].
Qed.

Lemma leb_trans a b c :
  PrimFloat.leb a b = true -> PrimFloat.leb b c = true ->
  PrimFloat.leb a c = true.
Proof.
  rewrite !FloatAxioms.leb_spec, !SFleb_key.
  intros (Ha & Hb & Hab) (_ & Hc & Hbc). repeat split; try assumption.
  destruct (sf_key (Prim2SF a)) as [[c1 e1] m1],
           (sf_key (Prim2SF b)) as [[c2 e2] m2],
           (sf_key (Prim2SF c)) as [[c3 e3] m3].
  cbn in *. lia.
Qed.

Lemma np_maximum_cases a b : np_maximum a b = a \/ np_maximum a b = b.
Proof. unfold np_maximum. destruct (_ || _); auto. Qed.

Lemma np_maximum_ge a b :
  is_nan a = false -> is_nan b = false ->
  is_nan (np_maximum a b) = false /\
  PrimFloat.leb a (np_maximum a b) = true /\
  PrimFloat.leb b (np_maximum a b) = true.
Proof.
  intros Ha Hb. unfold np_maximum. rewrite Ha, orb_false_r.
  destruct (PrimFloat.leb b a) eqn:E.
  - auto using leb_refl.
  - repeat split; auto using leb_refl.
    apply not_ltb_leb; auto.
    destruct (PrimFloat.ltb b a) eqn:E'; [|reflexivity].
    apply ltb_leb in E'. congruence.
Qed.

Lemma fold_maximum_in r : forall x, In (fold_left np_maximum r x) (x :: r).
Proof.
  induction r as [|y r IH]; intros x; cbn [fold_left]; [left; reflexivity|].
  destruct (IH (np_maximum x y)) as [H|H].
  - rewrite <- H. destruct (np_maximum_cases x y) as [-> | ->]; cbn; auto.
  - right. right. exact H.
Qed.

Lemma fold_maximum_ge r : forall x,
  is_nan x = false -> Forall (fun y => is_nan y = false) r ->
  is_nan (fold_left np_maximum r x) = false /\
  PrimFloat.leb x (fold_left np_maximum r x) = true /\
  Forall (fun y => PrimFloat.leb y (fold_left np_maximum r x) = true) r.
Proof.
  induction r as [|y r IH]; intros x Hx Hr; cbn [fold_left].
  - auto using leb_refl.
  - apply Forall_cons in Hr. destruct Hr as [Hy Hr].
    destruct (np_maximum_ge x y Hx Hy) as (Hn & Hxm & Hym).
    destruct (IH _ Hn Hr) as (Hn' & Hm & Hall).
    split; [exact Hn'|]. split; [exact (leb_trans _ _ _ Hxm Hm)|].
    constructor; [exact (leb_trans _ _ _ Hym Hm) | exact Hall].
Qed.

(** [np.max] returns an element of the array, the greatest one when no
    element is a NaN. *)
Lemma np_max_spec xs :
  xs <> [] ->
  exists mx, np_max xs = Ok mx /\ In mx xs /\
    (Forall (fun y => is_nan y = false) xs ->
     Forall (fun y => PrimFloat.leb y mx = true) xs).
Proof.
  destruct xs as [|x r]; [congruence|]. intros _.
  exists (fold_left np_maximum r x). split; [reflexivity|].
  split; [apply fold_maximum_in|].
  intros H. apply Forall_cons in H. destruct H as [Hx Hr].
  destruct (fold_maximum_ge r x Hx Hr) as (_ & Hm & Hall).
  constructor; assumption.
Qed.

(** ** The final comparison *)

Lemma polar_rad_samples :
  polar_rad =
  map (fun i => (float_of_nat i * (math_pi / 2 / float_of_nat 49))%float)
      (seq 0 49) ++ [(math_pi / 2)%float].
Proof. vm_compute. reflexivity. Qed.

Lemma plot_radiation_pattern_run X radial_flux s :
  length radial_flux = NUM_FARFIELD_PTS ->
  exists mx,
    np_max radial_flux = Ok mx /\
    plot_radiation_pattern X radial_flux s =
    Ok (tt, State (heap s) (runs s)
              (stdout s ++
               [RelativeError
                  (np_linalg_norm X
                     (zip_with PrimFloat.sub
                        (map (fun x => (x / mx)%float) radial_flux)
                        (map (fun t => (np_cos1 X t * np_cos1 X t)%float)
                             polar_rad))
                   / np_linalg_norm X
                       (map (fun t => (np_cos1 X t * np_cos1 X t)%float)
                            polar_rad))])).
Proof.
  intros Hlen.
  destruct (np_max_spec radial_flux) as (mx & Hmx & _).
  { intros ->. discriminate. }
  exists mx. split; [exact Hmx|].
  unfold plot_radiation_pattern.
  rewrite (lift_ok _ _ _ _ Hmx).
  erewrite lift_ok; [| unfold ax_plot; rewrite length_map, Hlen; reflexivity].
  erewrite lift_ok; [| unfold ax_plot, np_square; rewrite !length_map; reflexivity].
  erewrite lift_ok;
    [| apply np_binop_same; unfold np_square; rewrite !length_map; exact Hlen].
  unfold print, np_square. rewrite !map_map. reflexivity.
Qed.

(** ** Computations that only read the store *)

Lemma reads_only_ret {A} (a : A) : reads_only (ret a).
Proof. intros s. reflexivity. Qed.

Lemma reads_only_lift {A} (r : result A) : reads_only (lift r).
Proof. intros s. unfold lift. destruct r; trivial. Qed.

Lemma reads_only_load l : reads_only (load l).
Proof. intros s. unfold load. destruct (heap s !! l); trivial. Qed.

Lemma reads_only_bind {A B} (c : M A) (k : A -> M B) :
  reads_only c -> (forall a, reads_only (k a)) -> reads_only (bind c k).
Proof.
  intros Hc Hk s. unfold bind. specialize (Hc s).
  destruct (c s) as [[a s']|]; [|trivial]. subst s'. apply Hk.
Qed.

Lemma outcome_bind {A B} (c1 c2 : M A) (k1 k2 : A -> M B) s1 s2 :
  reads_only c1 -> reads_only c2 ->
  outcome (c1 s1) = outcome (c2 s2) ->
  (forall a, outcome (k1 a s1) = outcome (k2 a s2)) ->
  outcome (bind c1 k1 s1) = outcome (bind c2 k2 s2).
Proof.
  intros H1 H2 Ho Hk. unfold bind. specialize (H1 s1). specialize (H2 s2).
  destruct (c1 s1) as [[a1 s1']|x1], (c2 s2) as [[a2 s2']|x2];
    cbn [outcome] in Ho; try discriminate.
  - injection Ho as ->. subst. apply Hk.
  - injection Ho as ->. reflexivity.
Qed.

Lemma outcome_lift {A} (r : result A) s1 s2 :
  outcome (lift r s1) = outcome (lift r s2).
Proof. unfold lift. destruct r; reflexivity. Qed.

Lemma outcome_load l1 l2 s1 s2 :
  heap s1 !! l1 = heap s2 !! l2 ->
  outcome (load l1 s1) = outcome (load l2 s2).
Proof. intros H. unfold load. rewrite H. destruct (heap s2 !! l2); reflexivity. Qed.

Ltac reads_only_steps :=
  repeat first
    [ apply reads_only_ret | apply reads_only_lift | apply reads_only_load
    | apply reads_only_bind; [| intros ?] ].

Lemma radiation_pattern_reads el hl : reads_only (radiation_pattern el hl).
Proof. unfold radiation_pattern. reads_only_steps. Qed.

Lemma flux_from_farfields_reads X el hl :
  reads_only (flux_from_farfields X el hl).
Proof.
  unfold flux_from_farfields. cbv zeta.
  apply reads_only_bind; [apply radiation_pattern_reads | intros ?].
  reads_only_steps.
Qed.

Ltac outcome_steps :=
  repeat first
    [ reflexivity | apply outcome_lift
    | apply outcome_bind; [reads_only_steps | reads_only_steps | | intros ?] ].

Lemma radiation_pattern_outcome s1 s2 e1 h1 e2 h2 :
  heap s1 !! e1 = heap s2 !! e2 -> heap s1 !! h1 = heap s2 !! h2 ->
  outcome (radiation_pattern e1 h1 s1) = outcome (radiation_pattern e2 h2 s2).
Proof.
  intros He Hh. unfold radiation_pattern.
  apply outcome_bind; [reads_only_steps | reads_only_steps | apply outcome_load, He | intros e].
  apply outcome_bind; [reads_only_steps | reads_only_steps | apply outcome_load, Hh | intros h].
  outcome_steps.
Qed.

Lemma flux_from_farfields_outcome X s1 s2 e1 h1 e2 h2 :
  heap s1 !! e1 = heap s2 !! e2 -> heap s1 !! h1 = heap s2 !! h2 ->
  outcome (flux_from_farfields X e1 h1 s1) =
  outcome (flux_from_farfields X e2 h2 s2).
Proof.
  intros He Hh. unfold flux_from_farfields. cbv zeta.
  apply outcome_bind;
    [apply radiation_pattern_reads | apply radiation_pattern_reads
    | apply radiation_pattern_outcome; assumption | intros p].
  outcome_steps.
Qed.

Lemma loop_result_locs X r fuel : forall L Lf,
  loop_result X fuel r L = Some Lf ->
  e_field_total Lf = e_field_total L /\ h_field_total Lf = h_field_total L.
Proof.
  induction fuel as [|fuel IH]; intros L Lf H; [discriminate|].
  cbn [loop_result] in H. destruct (exit_line _).
  - injection H as <-. split; reflexivity.
  - apply IH in H. exact H.
Qed.

(** ** One pass spelled out, and the passes counted *)

Lemma div_nan_l x y : is_nan x = true -> is_nan (x / y) = true.
Proof.
  rewrite !is_nan_spec, div_spec. destruct (Prim2SF x); try discriminate. reflexivity.
Qed.

Lemma ltb_nan_l x y : is_nan x = true -> PrimFloat.ltb x y = false.
Proof.
  intros H. destruct (PrimFloat.ltb x y) eqn:E; [|reflexivity].
  apply ltb_not_nan in E. destruct E; congruence.
Qed.

Lemma ltb_nan_r x y : is_nan y = true -> PrimFloat.ltb x y = false.
Proof.
  intros H. destruct (PrimFloat.ltb x y) eqn:E; [|reflexivity].
  apply ltb_not_nan in E. destruct E; congruence.
Qed.

Lemma loop_body_pass (X : externals) r L s0 e h :
  six_components X ->
  e_field_total L <> h_field_total L ->
  heap s0 !! e_field_total L = Some e -> shape e = (NUM_FARFIELD_PTS, 3) -> rect e ->
  heap s0 !! h_field_total L = Some h -> shape h = (NUM_FARFIELD_PTS, 3) -> rect h ->
  let ks := if (0 <? m L)%Z then [m L; (- m L)%Z] else [m L] in
  let sim := Simulation r (if (0 <? m L)%Z then (- m L)%Z else m L) in
  let flux := flux_of X (e_farfield X sim) (h_farfield X sim) in
  let fm := if PrimFloat.ltb (flux_max L) flux then flux else flux_max L in
  let b := (0 <? m L)%Z && PrimFloat.ltb (flux / fm) POWER_DECAY_THRESHOLD in
  exists s1,
    loop_body X r L s0 =
      Ok ((b, Locals (e_field_total L) (h_field_total L) fm
                     (if b then m L else (m L + 1)%Z)), s1) /\
    runs s1 = runs s0 ++ ks /\
    stdout s1 = stdout s0 ++ [PowerDecay (m L) flux fm (flux / fm)] /\
    heap s1 !! e_field_total L =
      Some (fold_left (fun acc k => add2 acc (e_farfield X (Simulation r k))) ks e) /\
    heap s1 !! h_field_total L =
      Some (fold_left (fun acc k => add2 acc (h_farfield X (Simulation r k))) ks h).
Proof.
  intros H6 Hne He Se Re Hh Sh Rh.
  exact (loop_body_run X H6 r L s0 e h Hne He Se Re Hh Sh Rh).
Qed.

Lemma loop_lines_length_some (X : externals) r fuel L Lf :
  loop_result X fuel r L = Some Lf ->
  Z.of_nat (length (loop_lines X fuel r L)) = (m Lf - m L + 1)%Z.
Proof.
  intros HL.
  destruct (loop_result_some X r fuel L Lf HL)
    as (init & last & Hl & _ & _ & Hm & _).
  pose proof (loop_lines_modes X r fuel L) as Hmodes.
  rewrite Hl in Hmodes. rewrite map_app, length_app, seq_app, map_app in Hmodes.
  apply app_inj_1 in Hmodes; [|rewrite !length_map, length_seq; reflexivity].
  destruct Hmodes as [_ Hlast]. cbn in Hlast. injection Hlast as Hlast.
  rewrite Hl, length_app. cbn [length]. lia.
Qed.

Lemma loop_lines_length_le (X : externals) r fuel : forall L,
  length (loop_lines X fuel r L) <= fuel.
Proof.
  induction fuel as [|f IH]; intros L; cbn [loop_lines length]; [lia|].
  destruct (exit_line _); cbn [length]; [lia|].
  specialize (IH (pass_locals X r L)). lia.
Qed.

Lemma loop_lines_update (X : externals) r fuel : forall L,
  (forall o, loop_lines X fuel r L !! 0 = Some o ->
     line_flux_max o = next_flux_max (flux_max L) (line_flux o)) /\
  (forall i o o', loop_lines X fuel r L !! i = Some o ->
     loop_lines X fuel r L !! S i = Some o' ->
     line_flux_max o' = next_flux_max (line_flux_max o) (line_flux o')).
Proof.
  induction fuel as [|f IH]; intros L; [split; intros; discriminate|].
  cbn [loop_lines]. split.
  - intros o Ho. injection Ho as <-. reflexivity.
  - intros i o o' Hi Hi'. cbn [lookup list_lookup] in Hi'.
    destruct (exit_line (pass_line X r L)); [discriminate|].
    destruct (IH (pass_locals X r L)) as [A B].
    destruct i as [|i].
    + injection Hi as <-. exact (A o' Hi').
    + exact (B i o o' Hi Hi').
Qed.

Lemma loop_lines_m_at (X : externals) r fuel L i o :
  loop_lines X fuel r L !! i = Some o -> line_m o = (m L + Z.of_nat i)%Z.
Proof.
  intros Hi.
  pose proof (loop_lines_modes X r fuel L) as Hm.
  assert (H : (line_m <$> loop_lines X fuel r L) !! i = Some (line_m o))
    by (rewrite list_lookup_fmap, Hi; reflexivity).
  change (map line_m (loop_lines X fuel r L))
    with (line_m <$> loop_lines X fuel r L) in Hm.
  rewrite Hm in H.
  change (map (fun i0 : nat => (m L + Z.of_nat i0)%Z)
              (seq 0 (length (loop_lines X fuel r L))))
    with ((fun i0 : nat => (m L + Z.of_nat i0)%Z) <$>
          seq 0 (length (loop_lines X fuel r L))) in H.
  rewrite list_lookup_fmap in H.
  pose proof (lookup_lt_Some _ _ _ Hi) as Hlt.
  rewrite lookup_seq_lt in H by exact Hlt. cbn in H. congruence.
Qed.

(** With fuel for two passes the loop makes its second pass. *)
Lemma loop_lines_second (X : externals) r fuel :
  2 <= fuel ->
  exists o, loop_lines X fuel r locals0 !! 1 = Some o /\ line_m o = 1%Z.
Proof.
  intros Hf.
  assert (Hlen : 2 <= length (loop_lines X fuel r locals0)).
  { destruct (loop_result X fuel r locals0) as [L|] eqn:HL.
    - apply exit_needs_two_passes. rewrite HL. eexists; reflexivity.
    - destruct (loop_result_none X r fuel locals0 HL) as [-> _]. exact Hf. }
  destruct (lookup_lt_is_Some_2 (loop_lines X fuel r locals0) 1 ltac:(lia)) as [o Ho].
  exists o. split; [exact Ho|].
  rewrite (loop_lines_m_at X r fuel locals0 1 o Ho). reflexivity.
Qed.

Lemma last_lookup_length {A} (l : list A) (x : A) :
  last l = Some x -> l !! (length l - 1) = Some x /\ 0 < length l.
Proof.
  intros H. rewrite last_lookup in H.
  destruct l as [|a l]; [discriminate|]. cbn [length] in *.
  replace (S (length l) - 1) with (Nat.pred (S (length l))) by lia.
  split; [exact H | lia].
Qed.

(** The runs of the loop: mode number 0 first, and alone. *)
Lemma loop_runs_first (X : externals) r fuel :
  exists rest,
    loop_runs X (S fuel) r locals0 = 0%Z :: rest /\
    (fuel = 0 -> rest = []) /\
    (0 < fuel -> exists rest', rest = 1%Z :: (-1)%Z :: rest').
Proof.
  unfold loop_runs. cbn [loop_lines].
  assert (He : exit_line (pass_line X r locals0) = false) by reflexivity.
  rewrite He. cbn [map flat_map]. 
  change (runs_of_mode (line_m (pass_line X r locals0))) with [0%Z].
  eexists. split; [reflexivity|]. split.
  - intros ->. reflexivity.
  - intros Hf. destruct fuel as [|f]; [lia|].
    cbn [loop_lines map flat_map].
    change (runs_of_mode (line_m (pass_line X r (pass_locals X r locals0))))
      with [1%Z; (-1)%Z].
    eexists. reflexivity.
Qed.

(** ** The concrete solvers keep the engine's contract *)

Lemma sample_six : six_components sample_externals.
Proof. intros sim x. reflexivity. Qed.

(** * The claims *)

(** C1. The loop starts at m = 0 and adds one to m in every pass; it leaves
    exactly at the first pass that has both m > 0 and
    flux / flux_max < POWER_DECAY_THRESHOLD, and never while m = 0 or while
    flux / flux_max >= POWER_DECAY_THRESHOLD. *)
Theorem C1_loop_control (X : externals) (fuel : nat) (r : float) :
  six_components X ->
  exists res s,
    main_loop X fuel r initial_state = Ok (res, s) /\
    map line_m (stdout s) = map Z.of_nat (seq 0 (length (stdout s))) /\
    (forall i o, stdout s !! i = Some o ->
       line_power_decay o = (line_flux o / line_flux_max o)%float /\
       ((0 <? line_m o)%Z &&
          PrimFloat.ltb (line_power_decay o) POWER_DECAY_THRESHOLD = true
        <-> exits_at res (stdout s) i) /\
       (line_m o = 0%Z \/
        PrimFloat.leb POWER_DECAY_THRESHOLD (line_power_decay o) = true ->
        ~ exits_at res (stdout s) i)) /\
    (res = None -> length (stdout s) = fuel) /\
    (forall L, res = Some L -> line_m <$> last (stdout s) = Some (m L)).
Proof.
  intros H6.
  destruct (main_loop_run X H6 fuel r) as (s & Hrun & Hout & _).
  exists (loop_result X fuel r locals0), s.
  split; [exact Hrun|]. rewrite Hout.
  split; [rewrite loop_lines_modes; apply map_ext; intros; cbn; lia|].
  split; [|split].
  - intros i o Hi.
    pose proof (exits_at_iff X fuel r locals0 i o Hi) as Hiff.
    rewrite exit_line_eq in Hiff.
    split; [|split].
    + exact (proj1 (Forall_lookup _ _) (loop_lines_ratio X r fuel locals0) _ _ Hi).
    + exact Hiff.
    + intros Hno Hex. apply Hiff in Hex. apply andb_true_iff in Hex.
      destruct Hex as [Hm Hp]. destruct Hno as [H0|Hle].
      * rewrite H0 in Hm. discriminate.
      * apply leb_not_ltb in Hle. congruence.
  - intros Hnone. apply (loop_result_none X r fuel locals0 Hnone).
  - intros L HL.
    destruct (loop_result_some X r fuel locals0 L HL) as (init & last & Hl & _ & _ & Hm & _).
    rewrite Hl, last_snoc. cbn. congruence.
Qed.

(** C1 at the sample solver, with fuel for six passes. *)
Lemma C1_loop_control_witness :
  six_components sample_externals /\
  exists res s,
    main_loop sample_externals 6 0.5 initial_state = Ok (res, s) /\
    map line_m (stdout s) = map Z.of_nat (seq 0 (length (stdout s))) /\
    (forall i o, stdout s !! i = Some o ->
       line_power_decay o = (line_flux o / line_flux_max o)%float /\
       ((0 <? line_m o)%Z &&
          PrimFloat.ltb (line_power_decay o) POWER_DECAY_THRESHOLD = true
        <-> exits_at res (stdout s) i) /\
       (line_m o = 0%Z \/
        PrimFloat.leb POWER_DECAY_THRESHOLD (line_power_decay o) = true ->
        ~ exits_at res (stdout s) i)) /\
    (res = None -> length (stdout s) = 6) /\
    (forall L, res = Some L -> line_m <$> last (stdout s) = Some (m L)).
Proof.
  split; [exact sample_six|].
  apply (C1_loop_control sample_externals 6 0.5 sample_six).
Defined.



(** C3. For arrays of shape (N, 3), [radiation_pattern] returns a 1-D array
    of N reals whose n-th element is sqrt(fx^2 + fz^2), with
    fx = Re(e[n,1] h[n,2] - e[n,2] h[n,1]) and
    fz = Re(e[n,0] h[n,1] - e[n,1] h[n,0]). *)
Theorem C3_radiation_pattern_pointwise
    (s : state) (e_field h_field : loc) (e h : ndarray2) (N : nat) :
  heap s !! e_field = Some e -> heap s !! h_field = Some h ->
  shape e = (N, 3) -> shape h = (N, 3) ->
  exists p,
    radiation_pattern e_field h_field s = Ok (p, s) /\
    length p = N /\
    forall n, n < N ->
      let fx := re (csub (cmul (get2 e n 1) (get2 h n 2))
                         (cmul (get2 e n 2) (get2 h n 1))) in
      let fz := re (csub (cmul (get2 e n 0) (get2 h n 1))
                         (cmul (get2 e n 1) (get2 h n 0))) in
      p !! n = Some (PrimFloat.sqrt (fx * fx + fz * fz)).
Proof.
  intros He Hh Se Sh. exists (pattern_of e h).
  split; [exact (radiation_pattern_run _ _ _ _ _ _ He Hh Se Sh)|].
  assert (Hn : nrows e = N) by (unfold shape in Se; congruence).
  unfold pattern_of, range. rewrite Hn.
  split; [rewrite length_map, length_seq; reflexivity|].
  intros n Hlt. cbv zeta.
  change (map (flux_r_at e h) (seq 0 N)) with (flux_r_at e h <$> seq 0 N).
  rewrite list_lookup_fmap, lookup_seq_lt by exact Hlt. reflexivity.
Qed.

(** C3 at two arrays of two far-field points. *)
Lemma C3_radiation_pattern_pointwise_witness :
  let e := Arr2 3 [[Cx 1 0; Cx 0 1; Cx 2 0]; [Cx 0 0; Cx 3 0; Cx 1 1]] in
  let h := Arr2 3 [[Cx 0 1; Cx 1 0; Cx 1 1]; [Cx 2 0; Cx 0 0; Cx 1 0]] in
  (heap two_point_state !! 0 = Some e /\ heap two_point_state !! 1 = Some h /\
   shape e = (2, 3) /\ shape h = (2, 3)) /\
  exists p,
    radiation_pattern 0 1 two_point_state = Ok (p, two_point_state) /\
    length p = 2 /\
    forall n, n < 2 ->
      let fx := re (csub (cmul (get2 e n 1) (get2 h n 2))
                         (cmul (get2 e n 2) (get2 h n 1))) in
      let fz := re (csub (cmul (get2 e n 0) (get2 h n 1))
                         (cmul (get2 e n 1) (get2 h n 0))) in
      p !! n = Some (PrimFloat.sqrt (fx * fx + fz * fz)).
Proof.
  split; [repeat split|].
  exact (C3_radiation_pattern_pointwise two_point_state 0 1 _ _ 2
           eq_refl eq_refl eq_refl eq_refl).
Defined.

(** C4. [plot_radiation_pattern] divides the flux array by its maximum
    element and prints, as the relative error, the norm of the difference to
    cos^2 of [polar_rad] over the norm of cos^2 of [polar_rad]; [polar_rad]
    holds the NUM_FARFIELD_PTS = 50 angles i (pi/2)/49, i = 0..48, and
    pi/2. *)
Theorem C4_relative_error (X : externals) (radial_flux : list float) (s : state) :
  length radial_flux = NUM_FARFIELD_PTS ->
  exists mx,
    np_max radial_flux = Ok mx /\ In mx radial_flux /\
    (Forall (fun y => is_nan y = false) radial_flux ->
     Forall (fun y => PrimFloat.leb y mx = true) radial_flux) /\
    (let normalized := map (fun x => (x / mx)%float) radial_flux in
     let dipole := map (fun t => (np_cos1 X t * np_cos1 X t)%float) polar_rad in
     plot_radiation_pattern X radial_flux s =
     Ok (tt, State (heap s) (runs s)
               (stdout s ++
                [RelativeError
                   (np_linalg_norm X (zip_with PrimFloat.sub normalized dipole)
                    / np_linalg_norm X dipole)]))) /\
    NUM_FARFIELD_PTS = 50 /\
    polar_rad =
      map (fun i => (float_of_nat i * (math_pi / 2 / float_of_nat 49))%float)
          (seq 0 49) ++ [(math_pi / 2)%float].
Proof.
  intros Hlen.
  destruct (np_max_spec radial_flux) as (mx & Hmx & Hin & Hge).
  { intros ->. discriminate. }
  destruct (plot_radiation_pattern_run X radial_flux s Hlen) as (mx' & Hmx' & Hrun).
  assert (mx' = mx) by congruence. subst mx'.
  exists mx. split; [exact Hmx|]. split; [exact Hin|]. split; [exact Hge|].
  split; [exact Hrun|]. split; [reflexivity | exact polar_rad_samples].
Qed.

(** C4 at the array [polar_rad] itself and the empty store. *)
Lemma C4_relative_error_witness :
  length polar_rad = NUM_FARFIELD_PTS /\
  exists mx,
    np_max polar_rad = Ok mx /\ In mx polar_rad /\
    (Forall (fun y => is_nan y = false) polar_rad ->
     Forall (fun y => PrimFloat.leb y mx = true) polar_rad) /\
    (let normalized := map (fun x => (x / mx)%float) polar_rad in
     let dipole :=
       map (fun t => (np_cos1 sample_externals t * np_cos1 sample_externals t)%float)
           polar_rad in
     plot_radiation_pattern sample_externals polar_rad initial_state =
     Ok (tt, State (heap initial_state) (runs initial_state)
               (stdout initial_state ++
                [RelativeError
                   (np_linalg_norm sample_externals
                      (zip_with PrimFloat.sub normalized dipole)
                    / np_linalg_norm sample_externals dipole)]))) /\
    NUM_FARFIELD_PTS = 50 /\
    polar_rad =
      map (fun i => (float_of_nat i * (math_pi / 2 / float_of_nat 49))%float)
          (seq 0 49) ++ [(math_pi / 2)%float].
Proof.
  split; [reflexivity|].
  exact (C4_relative_error sample_externals polar_rad initial_state eq_refl).
Defined.

(** C5. For arrays of shape (NUM_FARFIELD_PTS, 3), [flux_from_farfields]
    returns the sum over the points of the radiation pattern times the sine of
    the polar angle, times FARFIELD_RADIUS_UM^2, times
    dtheta = (pi/2)/(NUM_FARFIELD_PTS - 1), times dphi = 2 pi. *)
Theorem C5_flux_integral
    (X : externals) (s : state) (e_field h_field : loc) (e h : ndarray2) :
  heap s !! e_field = Some e -> heap s !! h_field = Some h ->
  shape e = (NUM_FARFIELD_PTS, 3) -> shape h = (NUM_FARFIELD_PTS, 3) ->
  exists p,
    radiation_pattern e_field h_field s = Ok (p, s) /\
    length p = NUM_FARFIELD_PTS /\
    let dtheta := (math_pi / 2 / float_of_nat (NUM_FARFIELD_PTS - 1))%float in
    let dphi := (2 * math_pi)%float in
    flux_from_farfields X e_field h_field s =
    Ok ((np_sum X (zip_with PrimFloat.mul p (map (np_sin1 X) polar_rad))
         * (FARFIELD_RADIUS_UM * FARFIELD_RADIUS_UM) * dtheta * dphi)%float,
        s).
Proof.
  intros He Hh Se Sh. exists (pattern_of e h).
  pose proof (radiation_pattern_run _ _ _ _ _ _ He Hh Se Sh) as Hrun.
  assert (Hn : nrows e = NUM_FARFIELD_PTS) by (unfold shape in Se; congruence).
  assert (Hl : length (pattern_of e h) = NUM_FARFIELD_PTS).
  { unfold pattern_of, range. rewrite length_map, length_seq. exact Hn. }
  split; [exact Hrun|]. split; [exact Hl|]. cbv zeta.
  unfold flux_from_farfields. cbv zeta. rewrite bind_run, Hrun.
  erewrite lift_ok;
    [| apply np_binop_same; rewrite length_map, length_polar_rad; exact Hl].
  rewrite dtheta_code. reflexivity.
Qed.

(** C5 at the far fields of the sample solver for mode 0. *)
Lemma C5_flux_integral_witness :
  let e := e_farfield sample_externals (Simulation 0.5 0) in
  let h := h_farfield sample_externals (Simulation 0.5 0) in
  (heap sample_state !! 0 = Some e /\ heap sample_state !! 1 = Some h /\
   shape e = (NUM_FARFIELD_PTS, 3) /\ shape h = (NUM_FARFIELD_PTS, 3)) /\
  exists p,
    radiation_pattern 0 1 sample_state = Ok (p, sample_state) /\
    length p = NUM_FARFIELD_PTS /\
    let dtheta := (math_pi / 2 / float_of_nat (NUM_FARFIELD_PTS - 1))%float in
    let dphi := (2 * math_pi)%float in
    flux_from_farfields sample_externals 0 1 sample_state =
    Ok ((np_sum sample_externals
           (zip_with PrimFloat.mul p (map (np_sin1 sample_externals) polar_rad))
         * (FARFIELD_RADIUS_UM * FARFIELD_RADIUS_UM) * dtheta * dphi)%float,
        sample_state).
Proof.
  split; [repeat split|].
  exact (C5_flux_integral sample_externals sample_state 0 1 _ _
           eq_refl eq_refl eq_refl eq_refl).
Defined.

(** C6. [radiation_pattern] and [flux_from_farfields] leave the store as
    they found it, input arrays included, and what they return or raise is
    determined by the contents of the two input arrays. *)
Theorem C6_helpers_stateless (X : externals) :
  (forall el hl s,
     match radiation_pattern el hl s with
     | Ok (_, s') => s' = s
     | Raise _ => True
     end) /\
  (forall el hl s,
     match flux_from_farfields X el hl s with
     | Ok (_, s') => s' = s
     | Raise _ => True
     end) /\
  (forall s1 s2 e1 h1 e2 h2,
     heap s1 !! e1 = heap s2 !! e2 -> heap s1 !! h1 = heap s2 !! h2 ->
     outcome (radiation_pattern e1 h1 s1) =
     outcome (radiation_pattern e2 h2 s2)) /\
  (forall s1 s2 e1 h1 e2 h2,
     heap s1 !! e1 = heap s2 !! e2 -> heap s1 !! h1 = heap s2 !! h2 ->
     outcome (flux_from_farfields X e1 h1 s1) =
     outcome (flux_from_farfields X e2 h2 s2)).
Proof.
  split; [exact radiation_pattern_reads|].
  split; [exact (flux_from_farfields_reads X)|].
  split; [exact radiation_pattern_outcome | exact (flux_from_farfields_outcome X)].
Qed.

(** C7. [get_farfields] returns two arrays of shape (NUM_FARFIELD_PTS, 3) =
    (50, 3); the accumulators have that shape after any number of passes;
    [radiation_pattern] maps shape (N, 3) to length N; so the array given to
    [plot_radiation_pattern] and the cos^2 reference both have length 50. *)
Theorem C7_array_shapes (X : externals) (fuel : nat) (r : float) :
  six_components X ->
  (forall sim s0, exists el hl s1 e h,
      get_farfields X sim s0 = Ok ((el, hl), s1) /\
      heap s1 !! el = Some e /\ heap s1 !! hl = Some h /\
      shape e = (NUM_FARFIELD_PTS, 3) /\ shape h = (NUM_FARFIELD_PTS, 3)) /\
  (exists res s e h,
      main_loop X fuel r initial_state = Ok (res, s) /\
      heap s !! e_field_total locals0 = Some e /\
      heap s !! h_field_total locals0 = Some h /\
      shape e = (NUM_FARFIELD_PTS, 3) /\ shape h = (NUM_FARFIELD_PTS, 3) /\
      forall L, res = Some L ->
        exists p s',
          radiation_pattern (e_field_total L) (h_field_total L) s = Ok (p, s) /\
          main_finish X L s = Ok (p, s') /\
          plot_radiation_pattern X
            (map (fun x => (x * FARFIELD_RADIUS_UM_sq)%float) p) s = Ok (tt, s') /\
          length (map (fun x => (x * FARFIELD_RADIUS_UM_sq)%float) p) = 50 /\
          length (np_square (map (np_cos1 X) polar_rad)) = 50) /\
  (forall s el hl e h N,
      heap s !! el = Some e -> heap s !! hl = Some h ->
      shape e = (N, 3) -> shape h = (N, 3) ->
      exists p, radiation_pattern el hl s = Ok (p, s) /\ length p = N) /\
  NUM_FARFIELD_PTS = 50.
Proof.
  intros H6.
  assert (Hrp : forall s el hl e h N,
      heap s !! el = Some e -> heap s !! hl = Some h ->
      shape e = (N, 3) -> shape h = (N, 3) ->
      exists p, radiation_pattern el hl s = Ok (p, s) /\ length p = N).
  { intros s el hl e h N He Hh Se Sh. exists (pattern_of e h).
    split; [exact (radiation_pattern_run _ _ _ _ _ _ He Hh Se Sh)|].
    unfold pattern_of, range. rewrite length_map, length_seq.
    unfold shape in Se. congruence. }
  split; [|split; [|split; [exact Hrp | reflexivity]]].
  - intros sim s0. eexists _, _, _, _, _.
    split; [apply (get_farfields_run X H6)|]. cbn [heap].
    split; [apply lookup_pair_l|]. split; [apply lookup_pair_r|].
    split; [apply e_farfield_shape | apply h_farfield_shape].
  - destruct (main_loop_run X H6 fuel r) as (s & Hrun & _ & _ & He & Hh).
    destruct (add_runs_e_ok X r (loop_runs X fuel r locals0) _
                (zeros_shape _ _) (zeros_rect _ _)) as [Se _].
    destruct (add_runs_h_ok X r (loop_runs X fuel r locals0) _
                (zeros_shape _ _) (zeros_rect _ _)) as [Sh _].
    eexists _, s, _, _. split; [exact Hrun|].
    split; [exact He|]. split; [exact Hh|]. split; [exact Se|]. split; [exact Sh|].
    intros L HL. destruct (loop_result_locs X r fuel _ _ HL) as [HeL HhL].
    rewrite HeL, HhL.
    destruct (Hrp s _ _ _ _ _ He Hh Se Sh) as (p & Hp & Hl).
    assert (Hls : length (map (fun x => (x * FARFIELD_RADIUS_UM_sq)%float) p)
                  = NUM_FARFIELD_PTS) by (rewrite length_map; exact Hl).
    destruct (plot_radiation_pattern_run X _ s Hls) as (mx & _ & Hplot).
    eexists p, _. split; [exact Hp|].
    split; [| split; [exact Hplot | split; [exact Hls | reflexivity]]].
    unfold main_finish. rewrite HeL, HhL, bind_run, Hp. cbv zeta.
    rewrite bind_run, Hplot. reflexivity.
Qed.

(** C7 at the sample solver, with fuel for six passes. *)
Lemma C7_array_shapes_witness :
  six_components sample_externals /\
  ((forall sim s0, exists el hl s1 e h,
      get_farfields sample_externals sim s0 = Ok ((el, hl), s1) /\
      heap s1 !! el = Some e /\ heap s1 !! hl = Some h /\
      shape e = (NUM_FARFIELD_PTS, 3) /\ shape h = (NUM_FARFIELD_PTS, 3)) /\
   (exists res s e h,
      main_loop sample_externals 6 0.5 initial_state = Ok (res, s) /\
      heap s !! e_field_total locals0 = Some e /\
      heap s !! h_field_total locals0 = Some h /\
      shape e = (NUM_FARFIELD_PTS, 3) /\ shape h = (NUM_FARFIELD_PTS, 3) /\
      forall L, res = Some L ->
        exists p s',
          radiation_pattern (e_field_total L) (h_field_total L) s = Ok (p, s) /\
          main_finish sample_externals L s = Ok (p, s') /\
          plot_radiation_pattern sample_externals
            (map (fun x => (x * FARFIELD_RADIUS_UM_sq)%float) p) s = Ok (tt, s') /\
          length (map (fun x => (x * FARFIELD_RADIUS_UM_sq)%float) p) = 50 /\
          length (np_square (map (np_cos1 sample_externals) polar_rad)) = 50) /\
   (forall s el hl e h N,
      heap s !! el = Some e -> heap s !! hl = Some h ->
      shape e = (N, 3) -> shape h = (N, 3) ->
      exists p, radiation_pattern el hl s = Ok (p, s) /\ length p = N) /\
   NUM_FARFIELD_PTS = 50).
Proof.
  split; [exact sample_six|].
  apply (C7_array_shapes sample_externals 6 0.5 sample_six).
Defined.

(** C8. From the second pass on (m >= 1), the flux of the convergence test is
    the flux of the far fields of the run with mode number -m alone: a pass
    with m >= 1 prints and tests that flux whatever the accumulators hold,
    and in the loop it is the same for every solver that agrees on that one
    run, whatever the runs with other mode numbers, +m among them, return.
    The loop reaches such a pass as soon as it is given two passes. *)
Theorem C8_flux_of_last_run (X : externals) (fuel : nat) (r : float) :
  six_components X ->
  (forall L s0 e h,
      (1 <= m L)%Z ->
      e_field_total L <> h_field_total L ->
      heap s0 !! e_field_total L = Some e ->
      shape e = (NUM_FARFIELD_PTS, 3) -> rect e ->
      heap s0 !! h_field_total L = Some h ->
      shape h = (NUM_FARFIELD_PTS, 3) -> rect h ->
      let sim := Simulation r (- m L) in
      let flux := flux_of X (e_farfield X sim) (h_farfield X sim) in
      let fm := if PrimFloat.ltb (flux_max L) flux then flux else flux_max L in
      exists b L' s1,
        loop_body X r L s0 = Ok ((b, L'), s1) /\
        stdout s1 = stdout s0 ++ [PowerDecay (m L) flux fm (flux / fm)] /\
        b = PrimFloat.ltb (flux / fm) POWER_DECAY_THRESHOLD /\
        flux_max L' = fm) /\
  exists res s,
    main_loop X fuel r initial_state = Ok (res, s) /\
    (forall i o, stdout s !! i = Some o -> (1 <= line_m o)%Z ->
       let sim := Simulation r (- line_m o) in
       line_flux o = flux_of X (e_farfield X sim) (h_farfield X sim) /\
       forall (X' : externals) (fuel' : nat),
         six_components X' ->
         math_sin X' = math_sin X -> math_cos X' = math_cos X ->
         np_sin1 X' = np_sin1 X -> np_sum X' = np_sum X ->
         (forall x, mp_get_farfield X' sim x = mp_get_farfield X sim x) ->
         exists res' s',
           main_loop X' fuel' r initial_state = Ok (res', s') /\
           forall i' o', stdout s' !! i' = Some o' ->
                         line_m o' = line_m o ->
                         line_flux o' = line_flux o) /\
    (2 <= fuel -> exists o, stdout s !! 1 = Some o /\ line_m o = 1%Z) /\
    (res = None -> length (stdout s) = fuel) /\
    (forall L, res = Some L ->
       (1 <= m L)%Z /\
       exists o, last (stdout s) = Some o /\ line_m o = m L).
Proof.
  intros H6. split.
  { intros L s0 e h Hm Hne He Se Re Hh Sh Rh.
    destruct (loop_body_pass X r L s0 e h H6 Hne He Se Re Hh Sh Rh)
      as (s1 & Hrun & _ & Hout & _).
    assert (Hpos : (0 <? m L)%Z = true) by (apply Z.ltb_lt; lia).
    rewrite Hpos in Hrun, Hout. cbn [andb] in Hrun.
    intros sim flux fm.
    eexists _, _, s1. split; [exact Hrun|]. split; [exact Hout|].
    split; reflexivity. }
  destruct (main_loop_run X H6 fuel r) as (s & Hrun & Hout & _).
  exists (loop_result X fuel r locals0), s.
  split; [exact Hrun|]. rewrite Hout.
  split; [|split; [|split]].
  - intros i o Hi Hm sim.
    pose proof (proj1 (Forall_lookup _ _) (loop_lines_flux X r fuel locals0) _ _ Hi) as Hf.
    cbn beta in Hf.
    assert (Ht : tested_mode (line_m o) = (- line_m o)%Z).
    { unfold tested_mode. destruct (Z.ltb_spec 0 (line_m o)); [reflexivity | lia]. }
    split.
    + rewrite Hf. unfold mode_flux. rewrite Ht. reflexivity.
    + intros X' fuel' H6' Hs Hc Hn Hsum Hff.
      destruct (main_loop_run X' H6' fuel' r) as (s' & Hrun' & Hout' & _).
      exists (loop_result X' fuel' r locals0), s'.
      split; [exact Hrun'|]. rewrite Hout'. intros i' o' Hi' Hm'.
      pose proof (proj1 (Forall_lookup _ _) (loop_lines_flux X' r fuel' locals0) _ _ Hi') as Hf'.
      cbn beta in Hf'. rewrite Hf', Hf, Hm'.
      apply mode_flux_ext; try assumption. rewrite Ht. exact Hff.
  - apply loop_lines_second.
  - intros Hnone. apply (loop_result_none X r fuel locals0 Hnone).
  - intros L HL.
    destruct (loop_result_some X r fuel locals0 L HL)
      as (init & lst & Hl & _ & Hex & Hm & _).
    rewrite exit_line_eq in Hex. apply andb_true_iff in Hex.
    destruct Hex as [Hpos _]. apply Z.ltb_lt in Hpos.
    split; [lia|].
    exists lst. rewrite Hl, last_snoc. split; [reflexivity | congruence].
Qed.

(** C8 at the sample solver, with fuel for six passes. *)
Lemma C8_flux_of_last_run_witness :
  six_components sample_externals /\
  ((forall L s0 e h,
        (1 <= m L)%Z ->
        e_field_total L <> h_field_total L ->
        heap s0 !! e_field_total L = Some e ->
        shape e = (NUM_FARFIELD_PTS, 3) -> rect e ->
        heap s0 !! h_field_total L = Some h ->
        shape h = (NUM_FARFIELD_PTS, 3) -> rect h ->
        let sim := Simulation 0.5 (- m L) in
        let flux := flux_of sample_externals (e_farfield sample_externals sim) (h_farfield sample_externals sim) in
        let fm := if PrimFloat.ltb (flux_max L) flux then flux else flux_max L in
        exists b L' s1,
          loop_body sample_externals 0.5 L s0 = Ok ((b, L'), s1) /\
          stdout s1 = stdout s0 ++ [PowerDecay (m L) flux fm (flux / fm)] /\
          b = PrimFloat.ltb (flux / fm) POWER_DECAY_THRESHOLD /\
          flux_max L' = fm) /\
    exists res s,
      main_loop sample_externals 6 0.5 initial_state = Ok (res, s) /\
      (forall i o, stdout s !! i = Some o -> (1 <= line_m o)%Z ->
         let sim := Simulation 0.5 (- line_m o) in
         line_flux o = flux_of sample_externals (e_farfield sample_externals sim) (h_farfield sample_externals sim) /\
         forall (X' : externals) (fuel' : nat),
           six_components X' ->
           math_sin X' = math_sin sample_externals -> math_cos X' = math_cos sample_externals ->
           np_sin1 X' = np_sin1 sample_externals -> np_sum X' = np_sum sample_externals ->
           (forall x, mp_get_farfield X' sim x = mp_get_farfield sample_externals sim x) ->
           exists res' s',
             main_loop X' fuel' 0.5 initial_state = Ok (res', s') /\
             forall i' o', stdout s' !! i' = Some o' ->
                           line_m o' = line_m o ->
                           line_flux o' = line_flux o) /\
      (2 <= 6 -> exists o, stdout s !! 1 = Some o /\ line_m o = 1%Z) /\
      (res = None -> length (stdout s) = 6) /\
      (forall L, res = Some L ->
         (1 <= m L)%Z /\
         exists o, last (stdout s) = Some o /\ line_m o = m L)).
Proof.
  split; [exact sample_six|].
  exact (C8_flux_of_last_run sample_externals 6 0.5 sample_six).
Defined.

(** C9, as the code has it. After the update of every pass [flux_max] is a
    number and did not decrease; it is at least the flux of the pass when that
    flux is a number; [power_decay] is then at most 1 when [flux_max] is
    positive and finite; and the loop does not leave before its second pass.
    Line i is that of the pass with m = i and holds the flux of the far
    fields that pass tests; the loop prints one line per pass. The update is
    that of the code: [flux_max] becomes the flux when the flux is above it
    and stays as it is otherwise. So a flux that is a NaN leaves
    [flux_max] unchanged, fails both comparisons, flux > flux_max and
    power_decay < POWER_DECAY_THRESHOLD, and does not end the loop. *)
Theorem C9_flux_max_monotone (X : externals) (fuel : nat) (r : float) :
  six_components X ->
  exists res s,
    main_loop X fuel r initial_state = Ok (res, s) /\
    (forall i o, stdout s !! i = Some o ->
       is_nan (line_flux_max o) = false /\
       (is_nan (line_flux o) = false ->
        PrimFloat.leb (line_flux o) (line_flux_max o) = true /\
        (PrimFloat.ltb 0 (line_flux_max o) = true ->
         PrimFloat.ltb (line_flux_max o) infinity = true ->
         PrimFloat.leb (line_power_decay o) 1 = true)) /\
       (forall o', stdout s !! S i = Some o' ->
          PrimFloat.leb (line_flux_max o) (line_flux_max o') = true)) /\
    (forall o, stdout s !! 0 = Some o ->
       PrimFloat.leb 0 (line_flux_max o) = true) /\
    (is_Some res -> 2 <= length (stdout s)) /\
    (res = None -> length (stdout s) = fuel) /\
    (forall i o, stdout s !! i = Some o ->
       let sim :=
         Simulation r (if (0 <? line_m o)%Z then (- line_m o)%Z else line_m o) in
       line_m o = Z.of_nat i /\
       line_flux o = flux_of X (e_farfield X sim) (h_farfield X sim) /\
       line_power_decay o = (line_flux o / line_flux_max o)%float) /\
    (forall o, stdout s !! 0 = Some o ->
       line_flux_max o =
         (if PrimFloat.ltb 0 (line_flux o) then line_flux o else 0%float)) /\
    (forall i o o', stdout s !! i = Some o -> stdout s !! S i = Some o' ->
       line_flux_max o' =
         (if PrimFloat.ltb (line_flux_max o) (line_flux o') then line_flux o'
          else line_flux_max o)) /\
    (forall i o, stdout s !! i = Some o -> is_nan (line_flux o) = true ->
       line_power_decay o = (line_flux o / line_flux_max o)%float /\
       is_nan (line_power_decay o) = true /\
       PrimFloat.ltb (line_power_decay o) POWER_DECAY_THRESHOLD = false /\
       ~ exits_at res (stdout s) i /\
       (i = 0 ->
        PrimFloat.ltb 0 (line_flux o) = false /\ line_flux_max o = 0%float) /\
       (forall j o', i = S j -> stdout s !! j = Some o' ->
          PrimFloat.ltb (line_flux_max o') (line_flux o) = false /\
          line_flux_max o = line_flux_max o')).
Proof.
  intros H6.
  destruct (main_loop_run X H6 fuel r) as (s & Hrun & Hout & _).
  exists (loop_result X fuel r locals0), s.
  split; [exact Hrun|]. rewrite Hout.
  destruct (loop_lines_flux_max X r fuel locals0 eq_refl) as (Ha & Hb & Hc).
  destruct (loop_lines_update X r fuel locals0) as [Hu0 Hu].
  split; [|split; [|split; [|split; [|split; [|split; [|split]]]]]].
  - intros i o Hi. destruct (Ha i o Hi) as [Hnn Hge].
    split; [exact Hnn|]. split.
    + intros Hf. split; [exact (Hge Hf)|].
      intros Hpos Hfin.
      rewrite (proj1 (Forall_lookup _ _) (loop_lines_ratio X r fuel locals0) _ _ Hi).
      apply div_le_one; auto.
    + intros o' Hi'. exact (Hc i o o' Hi Hi').
  - exact Hb.
  - apply exit_needs_two_passes.
  - intros Hnone. apply (loop_result_none X r fuel locals0 Hnone).
  - intros i o Hi sim.
    split; [rewrite (loop_lines_m_at X r fuel locals0 i o Hi); reflexivity|].
    split.
    + exact (proj1 (Forall_lookup _ _) (loop_lines_flux X r fuel locals0) _ _ Hi).
    + exact (proj1 (Forall_lookup _ _) (loop_lines_ratio X r fuel locals0) _ _ Hi).
  - intros o Ho. exact (Hu0 o Ho).
  - intros i o o' Hi Hi'. exact (Hu i o o' Hi Hi').
  - intros i o Hi Hnan.
    pose proof (proj1 (Forall_lookup _ _) (loop_lines_ratio X r fuel locals0) _ _ Hi)
      as Hpd. cbn beta in Hpd.
    assert (Hpn : is_nan (line_power_decay o) = true)
      by (rewrite Hpd; apply div_nan_l; exact Hnan).
    assert (Hlt : PrimFloat.ltb (line_power_decay o) POWER_DECAY_THRESHOLD = false)
      by (apply ltb_nan_l; exact Hpn).
    split; [exact Hpd|]. split; [exact Hpn|]. split; [exact Hlt|].
    split; [|split].
    + intros Hex. apply (exits_at_iff X fuel r locals0 i o Hi) in Hex.
      rewrite exit_line_eq, Hlt, andb_false_r in Hex. discriminate.
    + intros ->. pose proof (Hu0 o Hi) as H0. unfold next_flux_max in H0.
      cbn [locals0 flux_max] in H0.
      rewrite (ltb_nan_r 0 _ Hnan) in H0. split; [apply ltb_nan_r; exact Hnan | exact H0].
    + intros j o' -> Hj. pose proof (Hu j o' o Hj Hi) as H1.
      unfold next_flux_max in H1. rewrite (ltb_nan_r _ _ Hnan) in H1.
      split; [apply ltb_nan_r; exact Hnan | exact H1].
Qed.

(** C9 at the sample solver, with fuel for six passes. *)
Lemma C9_flux_max_monotone_witness :
  six_components sample_externals /\
  (exists res s,
      main_loop sample_externals 6 0.5 initial_state = Ok (res, s) /\
      (forall i o, stdout s !! i = Some o ->
         is_nan (line_flux_max o) = false /\
         (is_nan (line_flux o) = false ->
          PrimFloat.leb (line_flux o) (line_flux_max o) = true /\
          (PrimFloat.ltb 0 (line_flux_max o) = true ->
           PrimFloat.ltb (line_flux_max o) infinity = true ->
           PrimFloat.leb (line_power_decay o) 1 = true)) /\
         (forall o', stdout s !! S i = Some o' ->
            PrimFloat.leb (line_flux_max o) (line_flux_max o') = true)) /\
      (forall o, stdout s !! 0 = Some o ->
         PrimFloat.leb 0 (line_flux_max o) = true) /\
      (is_Some res -> 2 <= length (stdout s)) /\
      (res = None -> length (stdout s) = 6) /\
      (forall i o, stdout s !! i = Some o ->
         let sim :=
           Simulation 0.5 (if (0 <? line_m o)%Z then (- line_m o)%Z else line_m o) in
         line_m o = Z.of_nat i /\
         line_flux o = flux_of sample_externals (e_farfield sample_externals sim) (h_farfield sample_externals sim) /\
         line_power_decay o = (line_flux o / line_flux_max o)%float) /\
      (forall o, stdout s !! 0 = Some o ->
         line_flux_max o =
           (if PrimFloat.ltb 0 (line_flux o) then line_flux o else 0%float)) /\
      (forall i o o', stdout s !! i = Some o -> stdout s !! S i = Some o' ->
         line_flux_max o' =
           (if PrimFloat.ltb (line_flux_max o) (line_flux o') then line_flux o'
            else line_flux_max o)) /\
      (forall i o, stdout s !! i = Some o -> is_nan (line_flux o) = true ->
         line_power_decay o = (line_flux o / line_flux_max o)%float /\
         is_nan (line_power_decay o) = true /\
         PrimFloat.ltb (line_power_decay o) POWER_DECAY_THRESHOLD = false /\
         ~ exits_at res (stdout s) i /\
         (i = 0 ->
          PrimFloat.ltb 0 (line_flux o) = false /\ line_flux_max o = 0%float) /\
         (forall j o', i = S j -> stdout s !! j = Some o' ->
            PrimFloat.ltb (line_flux_max o') (line_flux o) = false /\
            line_flux_max o = line_flux_max o'))).
Proof.
  split; [exact sample_six|].
  exact (C9_flux_max_monotone sample_externals 6 0.5 sample_six).
Defined.

(** C9 as stated fails. The far field of the second pass has components
    1e200: they are finite, the Poynting flux is inf - inf, and the flux of
    the pass is a NaN next to a positive [flux_max]. *)
Lemma C9_counterexample :
  six_components overflow_externals /\
  exists s o,
    main_loop overflow_externals 2 0.5 initial_state = Ok (None, s) /\
    stdout s !! 1 = Some o /\
    PrimFloat.ltb 0 (line_flux_max o) = true /\
    PrimFloat.leb (line_flux o) (line_flux_max o) = false /\
    PrimFloat.leb (line_power_decay o) 1 = false.
Proof.
  split; [exact overflow_six|].
  eexists _, _. split; [vm_compute; reflexivity|].
  split; [reflexivity|]. repeat split; vm_compute; reflexivity.
Qed.

(** C10, as the code has it. The argument fx^2 + fz^2 of the square root is
    never negative; an element of the pattern is a NaN exactly when fx or fz
    is one; otherwise the argument and the element are both at least 0. *)
Theorem C10_pattern_sign
    (s : state) (e_field h_field : loc) (e h : ndarray2) (N : nat) :
  heap s !! e_field = Some e -> heap s !! h_field = Some h ->
  shape e = (N, 3) -> shape h = (N, 3) ->
  exists p,
    radiation_pattern e_field h_field s = Ok (p, s) /\
    length p = N /\
    forall n x, p !! n = Some x ->
      let fx := flux_x_at e h n in
      let fz := flux_z_at e h n in
      x = PrimFloat.sqrt (fx * fx + fz * fz) /\
      PrimFloat.ltb (fx * fx + fz * fz) 0 = false /\
      is_nan x = is_nan fx || is_nan fz /\
      (is_nan fx = false -> is_nan fz = false ->
       PrimFloat.leb 0 (fx * fx + fz * fz) = true /\
       PrimFloat.leb 0 x = true).
Proof.
  intros He Hh Se Sh. exists (pattern_of e h).
  split; [exact (radiation_pattern_run _ _ _ _ _ _ He Hh Se Sh)|].
  assert (Hn : nrows e = N) by (unfold shape in Se; congruence).
  unfold pattern_of, range. rewrite Hn.
  split; [rewrite length_map, length_seq; reflexivity|].
  intros n x Hx. cbv zeta.
  change (map (flux_r_at e h) (seq 0 N)) with (flux_r_at e h <$> seq 0 N) in Hx.
  rewrite list_lookup_fmap in Hx.
  destruct (seq 0 N !! n) as [k|] eqn:Hk; [|discriminate].
  apply lookup_seq in Hk. destruct Hk as [-> _]. cbn in Hx. injection Hx as <-.
  unfold flux_r_at. cbv zeta.
  split; [reflexivity|]. split; [apply norm2_arg_not_negative|].
  split; [apply norm2_nan|].
  intros Hx Hz. split; [apply norm2_arg_nonneg | apply norm2_nonneg]; assumption.
Qed.

(** C10 at two arrays of two far-field points. *)
Lemma C10_pattern_sign_witness :
  let e := Arr2 3 [[Cx 1 0; Cx 0 1; Cx 2 0]; [Cx 0 0; Cx 3 0; Cx 1 1]] in
  let h := Arr2 3 [[Cx 0 1; Cx 1 0; Cx 1 1]; [Cx 2 0; Cx 0 0; Cx 1 0]] in
  (heap two_point_state !! 0 = Some e /\ heap two_point_state !! 1 = Some h /\
   shape e = (2, 3) /\ shape h = (2, 3)) /\
  exists p,
    radiation_pattern 0 1 two_point_state = Ok (p, two_point_state) /\
    length p = 2 /\
    forall n x, p !! n = Some x ->
      let fx := flux_x_at e h n in
      let fz := flux_z_at e h n in
      x = PrimFloat.sqrt (fx * fx + fz * fz) /\
      PrimFloat.ltb (fx * fx + fz * fz) 0 = false /\
      is_nan x = is_nan fx || is_nan fz /\
      (is_nan fx = false -> is_nan fz = false ->
       PrimFloat.leb 0 (fx * fx + fz * fz) = true /\
       PrimFloat.leb 0 x = true).
Proof.
  split; [repeat split|].
  exact (C10_pattern_sign two_point_state 0 1 _ _ 2
           eq_refl eq_refl eq_refl eq_refl).
Defined.

(** C10 as stated fails: for finite inputs whose products overflow, the
    element is inf - inf, a NaN, which is not a non-negative real. *)
Lemma C10_counterexample :
  shape (Arr2 3 [[c0; Cx huge 0; Cx huge 0]]) = (1, 3) /\
  exists p x,
    radiation_pattern 0 1 overflow_state = Ok (p, overflow_state) /\
    p !! 0 = Some x /\ PrimFloat.leb 0 x = false /\ is_nan x = true.
Proof.
  split; [reflexivity|].
  eexists _, _. split; [vm_compute; reflexivity|].
  split; [reflexivity|]. split; vm_compute; reflexivity.
Qed.

(** * Further properties of the script *)

(** ** More binary64 facts *)

Lemma SF64div_self s m e :
  SF64div (S754_finite s m e) (S754_finite s m e) = sf_one.
Proof.
  unfold SF64div. cbn [SFdiv]. rewrite div_core_self, xorb_nilpotent.
  vm_compute. reflexivity.
Qed.

(** A finite number other than zero divided by itself is 1. *)
Lemma div_self x :
  PrimFloat.ltb 0 x = true -> PrimFloat.ltb x infinity = true ->
  (x / x)%float = 1%float.
Proof.
  rewrite !FloatAxioms.ltb_spec. intros Hpos Hfin.
  apply Prim2SF_inj. rewrite div_spec.
  change (Prim2SF 0) with (S754_zero false) in Hpos.
  change (Prim2SF infinity) with (S754_infinity false) in Hfin.
  change (Prim2SF 1) with sf_one.
  destruct (Prim2SF x) as [s|s| |s m e]; try discriminate.
  - destruct s; discriminate.
  - apply SF64div_self.
Qed.

(** The quotient of two equal numbers is 1 or a NaN. *)
Lemma div_eq_one_or_nan x y :
  PrimFloat.leb x y = true -> PrimFloat.ltb x y = false ->
  (x / y)%float = 1%float \/ is_nan (x / y) = true.
Proof.
  rewrite FloatAxioms.leb_spec, FloatAxioms.ltb_spec, is_nan_spec.
  intros Hle Hlt.
  assert (Hq : Prim2SF (x / y) = sf_one \/ sf_is_nan (Prim2SF (x / y)) = true).
  { rewrite div_spec. unfold SFleb, SFltb in *.
    destruct (Prim2SF x) as [s|s| |s m e], (Prim2SF y) as [s'|s'| |s' m' e'];
      try (right; reflexivity);
      try (destruct s, s'; discriminate);
      try (destruct s; discriminate); try (destruct s'; discriminate);
      try discriminate.
    left.
    assert (E : s = s' /\ e = e' /\ m = m').
    { destruct s, s'; cbn [SFcompare] in Hle, Hlt; try discriminate;
        (destruct (Z.compare_spec e e') as [He|He|He]; cbn in Hle, Hlt;
         try discriminate);
        (destruct (Pos.compare_cont Eq m m') eqn:Hc; cbn in Hle, Hlt;
         try discriminate);
        apply Pos.compare_eq in Hc; auto. }
    destruct E as (-> & -> & ->). apply SF64div_self. }
  destruct Hq as [Hq|Hq]; [left | right; exact Hq].
  apply Prim2SF_inj. exact Hq.
Qed.

Lemma div_nan_r x y : is_nan y = true -> is_nan (x / y) = true.
Proof.
  rewrite !is_nan_spec, div_spec.
  destruct (Prim2SF y); try discriminate.
  destruct (Prim2SF x); reflexivity.
Qed.

Lemma sub_nan_l x y : is_nan x = true -> is_nan (x - y) = true.
Proof.
  rewrite !is_nan_spec, sub_spec.
  destruct (Prim2SF x); try discriminate. reflexivity.
Qed.

Lemma ltb_irrefl x : PrimFloat.ltb x x = false.
Proof.
  destruct (PrimFloat.ltb x x) eqn:E; [|reflexivity].
  pose proof (ltb_not_nan _ _ E) as [Hn _].
  pose proof (leb_not_ltb x x (leb_refl x Hn)). congruence.
Qed.

(** Zero or a NaN over zero is a NaN. *)
Lemma div_zero_nan x :
  is_nan x = true \/ PrimFloat.eqb x 0 = true -> is_nan (x / 0) = true.
Proof.
  rewrite !is_nan_spec, FloatAxioms.eqb_spec, div_spec.
  change (Prim2SF 0) with (S754_zero false).
  destruct (Prim2SF x) as [s|s| |s m e]; cbn; intros [H|H]; try discriminate; try reflexivity.
  - destruct s; discriminate.
  - destruct s; discriminate.
Qed.

Lemma ltb_zero_not_pos x :
  is_nan x = true \/ PrimFloat.eqb x 0 = true -> PrimFloat.ltb 0 x = false.
Proof.
  rewrite is_nan_spec, FloatAxioms.eqb_spec, FloatAxioms.ltb_spec.
  change (Prim2SF 0) with (S754_zero false).
  destruct (Prim2SF x) as [s|s| |s m e]; cbn; intros [H|H]; try discriminate; try reflexivity.
  - destruct s; discriminate.
  - destruct s; discriminate.
Qed.

(** ** Exceptions and broadcasting *)

Lemma lift_raise {A B} (r : result A) (e : exn) (k : A -> M B) s :
  r = Raise e -> bind (lift r) k s = Raise e.
Proof. intros ->. reflexivity. Qed.

Lemma np_binop_mismatch {A B C} (f : A -> B -> C) xs ys :
  length xs <> length ys -> length xs <> 1 -> length ys <> 1 ->
  np_binop f xs ys = Raise ValueError.
Proof.
  intros Hne Hx Hy. unfold np_binop.
  destruct (Nat.eqb_spec (length xs) (length ys)) as [|_]; [contradiction|].
  destruct xs as [|x [|x' xs]]; [| simpl in Hx; lia |];
    (destruct ys as [|y [|y' ys]]; [| simpl in Hy; lia |]); reflexivity.
Qed.

Lemma np_binop_compat {A B C} (f : A -> B -> C) xs ys :
  length xs = length ys \/ length xs = 1 \/ length ys = 1 ->
  exists zs, np_binop f xs ys = Ok zs.
Proof.
  intros H. unfold np_binop.
  destruct (Nat.eqb_spec (length xs) (length ys)) as [|Hne]; [eexists; reflexivity|].
  destruct H as [H|[H|H]]; [contradiction| |].
  - destruct xs as [|x [|x' xs]]; simpl in H; try lia. eexists; reflexivity.
  - destruct ys as [|y [|y' ys]]; simpl in H; try lia.
    destruct xs as [|x [|x' xs]]; eexists; reflexivity.
Qed.

Lemma np_binop_single_l {A B C} (f : A -> B -> C) x ys :
  np_binop f [x] ys = Ok (map (f x) ys).
Proof.
  unfold np_binop. destruct (Nat.eqb_spec (length [x]) (length ys)) as [E|_];
    [|reflexivity].
  destruct ys as [|y [|y' ys]]; try discriminate. reflexivity.
Qed.

Lemma np_binop_single_r {A B C} (f : A -> B -> C) xs y :
  np_binop f xs [y] = Ok (map (fun x => f x y) xs).
Proof.
  unfold np_binop. destruct (Nat.eqb_spec (length xs) (length [y])) as [E|_].
  - destruct xs as [|x [|x' xs]]; try discriminate. reflexivity.
  - destruct xs as [|x [|x' xs]]; reflexivity.
Qed.

Lemma column_short a j : ncols a <= j -> column a j = Raise IndexError.
Proof.
  intros H. unfold column.
  destruct (Nat.ltb_spec j (ncols a)); [lia | reflexivity].
Qed.

(** ** The far fields of one run, row by row *)

Lemma get_farfields_unfold X sim s :
  get_farfields X sim s =
  match for_each (range NUM_FARFIELD_PTS)
                 (ff_body X sim (length (heap s)) (S (length (heap s))))
                 (ff_state X s sim 0) with
  | Ok (_, s') => Ok ((length (heap s), S (length (heap s))), s')
  | Raise e => Raise e
  end.
Proof.
  unfold get_farfields.
  rewrite bind_run. unfold alloc at 1. cbn [heap runs stdout].
  rewrite bind_run. unfold alloc at 1. cbn [heap runs stdout].
  rewrite length_app. simpl length. rewrite Nat.add_1_r.
  rewrite bind_run. rewrite <- app_assoc. reflexivity.
Qed.

Section Rows.

Variable X : externals.
Variable sim : simulation.

Lemma e_comprehension_ge t :
  6 <= length (far_field_at X sim t) ->
  comprehension (fun j => rbind (py_index (far_field_at X sim t) j)
                                (fun c => Ok (conj c))) (range 3)
  = Ok (e_row X sim t).
Proof.
  unfold e_row. intros Hl.
  destruct (far_field_at X sim t) as [|a0 [|a1 [|a2 [|a3 [|a4 [|a5 l]]]]]];
    simpl in Hl; try lia. reflexivity.
Qed.

Lemma h_comprehension_ge t :
  6 <= length (far_field_at X sim t) ->
  comprehension (fun j => py_index (far_field_at X sim t) (j + 3)) (range 3)
  = Ok (h_row X sim t).
Proof.
  unfold h_row. intros Hl.
  destruct (far_field_at X sim t) as [|a0 [|a1 [|a2 [|a3 [|a4 [|a5 l]]]]]];
    simpl in Hl; try lia. reflexivity.
Qed.

Lemma comprehension_short t :
  length (far_field_at X sim t) < 6 ->
  comprehension (fun j => rbind (py_index (far_field_at X sim t) j)
                                (fun c => Ok (conj c))) (range 3)
  = Raise IndexError \/
  (comprehension (fun j => rbind (py_index (far_field_at X sim t) j)
                                (fun c => Ok (conj c))) (range 3)
   = Ok (e_row X sim t) /\
   comprehension (fun j => py_index (far_field_at X sim t) (j + 3)) (range 3)
   = Raise IndexError).
Proof.
  unfold e_row. intros Hl.
  destruct (far_field_at X sim t) as [|a0 [|a1 [|a2 [|a3 [|a4 [|a5 l]]]]]];
    simpl in Hl; try lia; (left; reflexivity) || (right; split; reflexivity).
Qed.

Lemma ff_body_ok s k t :
  polar_rad !! k = Some t ->
  6 <= length (far_field_at X sim t) ->
  ff_body X sim (length (heap s)) (S (length (heap s))) k (ff_state X s sim k)
  = Ok (tt, ff_state X s sim (S k)).
Proof.
  intros Ht Hl.
  pose proof (lookup_lt_Some _ _ _ Ht) as Hk. rewrite length_polar_rad in Hk.
  unfold ff_body.
  rewrite (lift_ok _ _ _ _ (py_index_ok _ _ _ Ht)).
  cbv zeta. unfold ff_state at 1.
  rewrite (lift_ok _ _ _ _ (e_comprehension_ge t Hl)).
  erewrite load_ok; [| cbn [heap]; apply lookup_pair_l].
  erewrite lift_ok;
    [| apply set_row_ok; [unfold nrows; cbn [rows]; rewrite partial_rows_length; lia | reflexivity]].
  rewrite store_ok by (simpl; rewrite length_app; simpl; lia).
  cbn [heap runs stdout rows ncols].
  rewrite insert_pair_l.
  rewrite (lift_ok _ _ _ _ (h_comprehension_ge t Hl)).
  erewrite load_ok; [| cbn [heap]; apply lookup_pair_r].
  erewrite lift_ok;
    [| apply set_row_ok; [unfold nrows; cbn [rows]; rewrite partial_rows_length; lia | reflexivity]].
  unfold store. cbn [heap runs stdout rows ncols].
  destruct (Nat.ltb_spec (S (length (heap s))) (length (heap s ++ [Arr2 3 (<[k:=e_row X sim t]> (partial_rows (e_row X sim) k)); Arr2 3 (partial_rows (h_row X sim) k)]))) as [_|Hbad];
    [| rewrite length_app in Hbad; simpl in Hbad; lia].
  rewrite insert_pair_r.
  rewrite !(partial_rows_step _ _ _ Ht). reflexivity.
Qed.

Lemma ff_body_short s k t :
  polar_rad !! k = Some t ->
  length (far_field_at X sim t) < 6 ->
  ff_body X sim (length (heap s)) (S (length (heap s))) k (ff_state X s sim k)
  = Raise IndexError.
Proof.
  intros Ht Hl.
  pose proof (lookup_lt_Some _ _ _ Ht) as Hk. rewrite length_polar_rad in Hk.
  unfold ff_body.
  rewrite (lift_ok _ _ _ _ (py_index_ok _ _ _ Ht)).
  cbv zeta. unfold ff_state at 1.
  destruct (comprehension_short t Hl) as [He|[He Hh]].
  - rewrite bind_run. unfold lift at 1. unfold far_field_at in He. rewrite He. reflexivity.
  - rewrite (lift_ok _ _ _ _ He).
    erewrite load_ok; [| cbn [heap]; apply lookup_pair_l].
    erewrite lift_ok;
      [| apply set_row_ok; [unfold nrows; cbn [rows]; rewrite partial_rows_length; lia | reflexivity]].
    rewrite store_ok by (simpl; rewrite length_app; simpl; lia).
    rewrite bind_run. unfold lift at 1. unfold far_field_at in Hh. rewrite Hh. reflexivity.
Qed.

Lemma ff_rows_short s n : forall k,
  k + n <= NUM_FARFIELD_PTS ->
  (exists i t, k <= i < k + n /\ polar_rad !! i = Some t /\
               length (far_field_at X sim t) < 6) ->
  for_each (seq k n) (ff_body X sim (length (heap s)) (S (length (heap s))))
           (ff_state X s sim k)
  = Raise IndexError.
Proof.
  induction n as [|n IH]; intros k Hk (i & t & Hi & Ht & Hl); [lia|].
  cbn [seq for_each].
  assert (Hlt : k < length polar_rad) by (rewrite length_polar_rad; lia).
  destruct (lookup_lt_is_Some_2 _ _ Hlt) as [tk Htk].
  rewrite bind_run.
  destruct (le_lt_dec 6 (length (far_field_at X sim tk))) as [Hok|Hshort].
  - rewrite (ff_body_ok s k tk Htk Hok).
    apply IH; [lia|]. exists i, t. repeat split; try assumption; try lia.
    destruct (Nat.eq_dec i k) as [->|]; [|lia].
    rewrite Htk in Ht. injection Ht as ->. lia.
  - rewrite (ff_body_short s k tk Htk Hshort). reflexivity.
Qed.

End Rows.

Lemma get2_map_rows (f : float -> list complex) n t j :
  polar_rad !! n = Some t ->
  get2 (Arr2 3 (map f polar_rad)) n j = nth j (f t) c0.
Proof.
  intros Ht. unfold get2. cbn [rows]. f_equal.
  pose proof (lookup_lt_Some _ _ _ Ht) as Hn.
  rewrite (nth_indep _ [] (f 0%float)) by (rewrite length_map; exact Hn).
  rewrite map_nth. f_equal. apply nth_lookup_Some with (d := 0%float) in Ht. exact Ht.
Qed.

(** X1. Row n of the two arrays [get_farfields] returns holds the far field
    of the engine at the point (R sin t, 0, R cos t) for t = polar_rad[n]: the
    conjugates of its components 0, 1, 2 in [e_field], its components 3, 4, 5
    in [h_field]. *)
Theorem X1_get_farfields_rows (X : externals) (sim : simulation) (s : state) :
  six_components X ->
  exists el hl s' e h,
    get_farfields X sim s = Ok ((el, hl), s') /\
    heap s' !! el = Some e /\ heap s' !! hl = Some h /\
    forall n t j, polar_rad !! n = Some t -> j < 3 ->
      let far_field :=
        mp_get_farfield X sim
          (Vector3 (FARFIELD_RADIUS_UM * math_sin X t) 0
                   (FARFIELD_RADIUS_UM * math_cos X t)) in
      (exists c, py_index far_field j = Ok c /\ get2 e n j = conj c) /\
      py_index far_field (j + 3) = Ok (get2 h n j).
Proof.
  intros H6. eexists _, _, _, _, _.
  split; [apply (get_farfields_run X H6)|]. cbn [heap].
  split; [apply lookup_pair_l|]. split; [apply lookup_pair_r|].
  intros n t j Ht Hj.
  unfold e_farfield, h_farfield. rewrite !(get2_map_rows _ n t j Ht).
  unfold e_row, h_row, far_field_at.
  pose proof (H6 sim (Vector3 (FARFIELD_RADIUS_UM * math_sin X t) 0
                              (FARFIELD_RADIUS_UM * math_cos X t))) as Hl.
  set (far_field := mp_get_farfield X sim _) in *.
  destruct far_field as [|a0 [|a1 [|a2 [|a3 [|a4 [|a5 [|a6 l]]]]]]];
    simpl in Hl; try discriminate.
  destruct j as [|[|[|j]]]; try lia; (split; [eexists; split|]; reflexivity).
Qed.

(** X1 at the sample solver. *)
Lemma X1_get_farfields_rows_witness :
  six_components sample_externals /\
  exists el hl s' e h,
    get_farfields sample_externals (Simulation 0.5 0) initial_state
      = Ok ((el, hl), s') /\
    heap s' !! el = Some e /\ heap s' !! hl = Some h /\
    forall n t j, polar_rad !! n = Some t -> j < 3 ->
      let far_field :=
        mp_get_farfield sample_externals (Simulation 0.5 0)
          (Vector3 (FARFIELD_RADIUS_UM * math_sin sample_externals t) 0
                   (FARFIELD_RADIUS_UM * math_cos sample_externals t)) in
      (exists c, py_index far_field j = Ok c /\ get2 e n j = conj c) /\
      py_index far_field (j + 3) = Ok (get2 h n j).
Proof.
  split; [exact sample_six|].
  exact (X1_get_farfields_rows sample_externals (Simulation 0.5 0)
           initial_state sample_six).
Defined.

(** X2. A far field with fewer than six components at some far-field point
    makes [get_farfields] raise [IndexError]. *)
Theorem X2_get_farfields_index_error (X : externals) (sim : simulation) (s : state) :
  (exists n t, polar_rad !! n = Some t /\
     length (mp_get_farfield X sim
               (Vector3 (FARFIELD_RADIUS_UM * math_sin X t) 0
                        (FARFIELD_RADIUS_UM * math_cos X t))) < 6) ->
  get_farfields X sim s = Raise IndexError.
Proof.
  intros (n & t & Ht & Hl).
  pose proof (lookup_lt_Some _ _ _ Ht) as Hn. rewrite length_polar_rad in Hn.
  rewrite get_farfields_unfold. unfold range.
  rewrite (ff_rows_short X sim s NUM_FARFIELD_PTS 0 ltac:(lia)); [reflexivity|].
  exists n, t. repeat split; try assumption; lia.
Qed.

(** X2 at a solver whose far field has five components. *)
Lemma X2_get_farfields_index_error_witness :
  (exists n t, polar_rad !! n = Some t /\
     length (mp_get_farfield short_externals (Simulation 0.5 0)
               (Vector3 (FARFIELD_RADIUS_UM * math_sin short_externals t) 0
                        (FARFIELD_RADIUS_UM * math_cos short_externals t))) < 6) /\
  get_farfields short_externals (Simulation 0.5 0) initial_state = Raise IndexError.
Proof.
  assert (H : exists n t, polar_rad !! n = Some t /\
     length (mp_get_farfield short_externals (Simulation 0.5 0)
               (Vector3 (FARFIELD_RADIUS_UM * math_sin short_externals t) 0
                        (FARFIELD_RADIUS_UM * math_cos short_externals t))) < 6).
  { exists 0, 0%float. split; [reflexivity | cbn; lia]. }
  split; [exact H|].
  exact (X2_get_farfields_index_error short_externals (Simulation 0.5 0) initial_state H).
Defined.

(** X3. A run of the solver allocates two new, distinct arrays and returns
    them; it changes no array that existed before, logs its mode number and
    prints nothing. *)
Theorem X3_dipole_in_vacuum_frame
    (X : externals) (r : float) (k : Z) (s : state) :
  six_components X ->
  exists el hl s',
    dipole_in_vacuum X r k s = Ok ((el, hl), s') /\
    el <> hl /\
    heap s !! el = None /\ heap s !! hl = None /\
    is_Some (heap s' !! el) /\ is_Some (heap s' !! hl) /\
    length (heap s') = length (heap s) + 2 /\
    (forall l a, heap s !! l = Some a -> heap s' !! l = Some a) /\
    runs s' = runs s ++ [k] /\
    stdout s' = stdout s.
Proof.
  intros H6. eexists _, _, _.
  split; [apply (dipole_in_vacuum_run X H6)|]. cbn [heap runs stdout].
  split; [lia|].
  split; [apply lookup_ge_None; lia|].
  split; [apply lookup_ge_None; lia|].
  split; [rewrite lookup_pair_l; eexists; reflexivity|].
  split; [rewrite lookup_pair_r; eexists; reflexivity|].
  split; [rewrite length_app; reflexivity|].
  split; [|split; reflexivity].
  intros l a Hl. rewrite lookup_app_l; [exact Hl|].
  apply (lookup_lt_Some _ _ _ Hl).
Qed.

(** X3 at the sample solver. *)
Lemma X3_dipole_in_vacuum_frame_witness :
  six_components sample_externals /\
  exists el hl s',
    dipole_in_vacuum sample_externals 0.5 1 two_point_state = Ok ((el, hl), s') /\
    el <> hl /\
    heap two_point_state !! el = None /\ heap two_point_state !! hl = None /\
    is_Some (heap s' !! el) /\ is_Some (heap s' !! hl) /\
    length (heap s') = length (heap two_point_state) + 2 /\
    (forall l a, heap two_point_state !! l = Some a -> heap s' !! l = Some a) /\
    runs s' = runs two_point_state ++ [1%Z] /\
    stdout s' = stdout two_point_state.
Proof.
  split; [exact sample_six|].
  exact (X3_dipole_in_vacuum_frame sample_externals 0.5 1 two_point_state
           sample_six).
Defined.

(** ** [radiation_pattern] on arrays of other shapes *)

(** X4. When an array with fewer than three columns is given to
    [radiation_pattern] together with an array whose number of rows is
    compatible (equal, or one of the two is 1), the call raises IndexError. *)
Theorem X4_radiation_pattern_index_error
    (s : state) (e_field h_field : loc) (e h : ndarray2) :
  heap s !! e_field = Some e -> heap s !! h_field = Some h ->
  ncols e < 3 \/ ncols h < 3 ->
  nrows e = nrows h \/ nrows e = 1 \/ nrows h = 1 ->
  radiation_pattern e_field h_field s = Raise IndexError.
Proof.
  intros He Hh Hc Hr. unfold radiation_pattern.
  rewrite (load_ok _ _ _ _ He), (load_ok _ _ _ _ Hh).
  destruct (Nat.ltb_spec 1 (ncols e)) as [E1|E1];
    [|apply lift_raise, column_short; exact E1].
  rewrite (lift_ok _ _ _ _ (column_ok e 1 E1)).
  destruct (Nat.ltb_spec 2 (ncols h)) as [H2|H2];
    [|apply lift_raise, column_short; exact H2].
  rewrite (lift_ok _ _ _ _ (column_ok h 2 H2)).
  destruct (np_binop_compat cmul (map (fun r => nth 1 r c0) (rows e))
                                 (map (fun r => nth 2 r c0) (rows h)))
    as [zs Hz].
  { rewrite !length_map. exact Hr. }
  rewrite (lift_ok _ _ _ _ Hz).
  apply lift_raise, column_short. lia.
Qed.

(** X4 at an accumulator that has only two columns. *)
Lemma X4_radiation_pattern_index_error_witness :
  let s := State [np_zeros2 2 2; np_zeros2 2 3] [] [] in
  (heap s !! 0 = Some (np_zeros2 2 2) /\ heap s !! 1 = Some (np_zeros2 2 3) /\
   (ncols (np_zeros2 2 2) < 3 \/ ncols (np_zeros2 2 3) < 3) /\
   (nrows (np_zeros2 2 2) = nrows (np_zeros2 2 3) \/
    nrows (np_zeros2 2 2) = 1 \/ nrows (np_zeros2 2 3) = 1)) /\
  radiation_pattern 0 1 s = Raise IndexError.
Proof.
  split; [repeat split; [left; simpl; lia | left; reflexivity]|].
  exact (X4_radiation_pattern_index_error
           (State [np_zeros2 2 2; np_zeros2 2 3] [] []) 0 1 _ _
           eq_refl eq_refl (or_introl (Nat.lt_succ_diag_r 2)) (or_introl eq_refl)).
Defined.

(** X5. When the two arrays given to [radiation_pattern] have enough columns
    but numbers of rows that differ, neither being 1, the call raises
    ValueError: the columns cannot be broadcast together. *)
Theorem X5_radiation_pattern_value_error
    (s : state) (e_field h_field : loc) (e h : ndarray2) :
  heap s !! e_field = Some e -> heap s !! h_field = Some h ->
  2 <= ncols e -> 3 <= ncols h ->
  nrows e <> nrows h -> nrows e <> 1 -> nrows h <> 1 ->
  radiation_pattern e_field h_field s = Raise ValueError.
Proof.
  intros He Hh Ce Ch Hne He1 Hh1. unfold radiation_pattern.
  rewrite (load_ok _ _ _ _ He), (load_ok _ _ _ _ Hh).
  rewrite (lift_ok _ _ _ _ (column_ok e 1 ltac:(lia))).
  rewrite (lift_ok _ _ _ _ (column_ok h 2 ltac:(lia))).
  apply lift_raise, np_binop_mismatch; rewrite ?length_map; assumption.
Qed.

(** X5 at arrays of two and of three far-field points. *)
Lemma X5_radiation_pattern_value_error_witness :
  let s := State [np_zeros2 2 3; np_zeros2 3 3] [] [] in
  (heap s !! 0 = Some (np_zeros2 2 3) /\ heap s !! 1 = Some (np_zeros2 3 3) /\
   2 <= ncols (np_zeros2 2 3) /\ 3 <= ncols (np_zeros2 3 3) /\
   nrows (np_zeros2 2 3) <> nrows (np_zeros2 3 3) /\
   nrows (np_zeros2 2 3) <> 1 /\ nrows (np_zeros2 3 3) <> 1) /\
  radiation_pattern 0 1 s = Raise ValueError.
Proof.
  assert (A : 2 <= ncols (np_zeros2 2 3)) by (simpl; lia).
  assert (B : 3 <= ncols (np_zeros2 3 3)) by (simpl; lia).
  assert (C : nrows (np_zeros2 2 3) <> nrows (np_zeros2 3 3)) by (cbv; lia).
  assert (D : nrows (np_zeros2 2 3) <> 1) by (cbv; lia).
  assert (E : nrows (np_zeros2 3 3) <> 1) by (cbv; lia).
  split; [repeat split; assumption|].
  exact (X5_radiation_pattern_value_error
           (State [np_zeros2 2 3; np_zeros2 3 3] [] []) 0 1 _ _
           eq_refl eq_refl A B C D E).
Defined.

Lemma pattern_rows_single_l (er : list complex) (hr : list (list complex)) :
  let c j (a : list (list complex)) := map (fun r => nth j r c0) a in
  np_sqrt
    (zip_with PrimFloat.add
       (np_square (np_real (zip_with csub (map (cmul (nth 1 er c0)) (c 2 hr))
                                          (map (cmul (nth 2 er c0)) (c 1 hr)))))
       (np_square (np_real (zip_with csub (map (cmul (nth 0 er c0)) (c 1 hr))
                                          (map (cmul (nth 1 er c0)) (c 0 hr))))))
  = map (row_flux er) hr.
Proof.
  induction hr as [|r hr IH]; [reflexivity|].
  simpl in *. f_equal. exact IH.
Qed.

Lemma pattern_rows_single_r (er : list (list complex)) (hr : list complex) :
  let c j (a : list (list complex)) := map (fun r => nth j r c0) a in
  np_sqrt
    (zip_with PrimFloat.add
       (np_square (np_real (zip_with csub
                              (map (fun x => cmul x (nth 2 hr c0)) (c 1 er))
                              (map (fun x => cmul x (nth 1 hr c0)) (c 2 er)))))
       (np_square (np_real (zip_with csub
                              (map (fun x => cmul x (nth 1 hr c0)) (c 0 er))
                              (map (fun x => cmul x (nth 0 hr c0)) (c 1 er))))))
  = map (fun r => row_flux r hr) er.
Proof.
  induction er as [|r er IH]; [reflexivity|].
  simpl in *. f_equal. exact IH.
Qed.

Lemma radiation_pattern_single_e s e_field h_field e h er :
  heap s !! e_field = Some e -> heap s !! h_field = Some h ->
  rows e = [er] -> ncols e = 3 -> ncols h = 3 ->
  radiation_pattern e_field h_field s = Ok (map (row_flux er) (rows h), s).
Proof.
  intros He Hh Re Ce Ch. unfold radiation_pattern.
  rewrite (load_ok _ _ _ _ He), (load_ok _ _ _ _ Hh).
  repeat match goal with
  | |- bind (lift (column ?a ?j)) _ _ = _ =>
      rewrite (lift_ok _ _ _ _ (column_ok a j ltac:(lia)))
  | |- bind (lift (np_binop ?f (map _ (rows e)) ?ys)) _ _ = _ =>
      rewrite Re; cbn [map];
      rewrite (lift_ok _ _ _ _ (np_binop_single_l f _ ys))
  | |- bind (lift (np_binop ?f ?xs ?ys)) _ _ = _ =>
      rewrite (lift_ok _ _ _ _ (np_binop_same f xs ys
        ltac:(unfold np_square, np_real;
              repeat first [rewrite length_map | rewrite length_zip_with_same];
              reflexivity)))
  end.
  unfold ret. f_equal. f_equal. apply pattern_rows_single_l.
Qed.

Lemma radiation_pattern_single_h s e_field h_field e h hr :
  heap s !! e_field = Some e -> heap s !! h_field = Some h ->
  rows h = [hr] -> ncols e = 3 -> ncols h = 3 ->
  radiation_pattern e_field h_field s =
  Ok (map (fun r => row_flux r hr) (rows e), s).
Proof.
  intros He Hh Rh Ce Ch. unfold radiation_pattern.
  rewrite (load_ok _ _ _ _ He), (load_ok _ _ _ _ Hh).
  repeat match goal with
  | |- bind (lift (column ?a ?j)) _ _ = _ =>
      rewrite (lift_ok _ _ _ _ (column_ok a j ltac:(lia)))
  | |- bind (lift (np_binop ?f ?xs (map _ (rows h)))) _ _ = _ =>
      rewrite Rh; cbn [map];
      rewrite (lift_ok _ _ _ _ (np_binop_single_r f xs _))
  | |- bind (lift (np_binop ?f ?xs ?ys)) _ _ = _ =>
      rewrite (lift_ok _ _ _ _ (np_binop_same f xs ys
        ltac:(unfold np_square, np_real;
              repeat first [rewrite length_map | rewrite length_zip_with_same];
              reflexivity)))
  end.
  unfold ret. f_equal. f_equal. apply pattern_rows_single_r.
Qed.

Lemma bidx_one k : bidx 1 k = 0.
Proof. reflexivity. Qed.

Lemma bidx_other n k : n <> 1 -> bidx n k = k.
Proof. intros H. unfold bidx. destruct (Nat.eqb_spec n 1); [contradiction|reflexivity]. Qed.

Lemma row_flux_get2 e h i j er hr :
  rows e !! i = Some er -> rows h !! j = Some hr ->
  row_flux er hr =
  (let fx := re (csub (cmul (get2 e i 1) (get2 h j 2))
                      (cmul (get2 e i 2) (get2 h j 1))) in
   let fz := re (csub (cmul (get2 e i 0) (get2 h j 1))
                      (cmul (get2 e i 1) (get2 h j 0))) in
   PrimFloat.sqrt (fx * fx + fz * fz)).
Proof.
  intros He Hh. unfold get2.
  rewrite (nth_lookup_Some _ _ [] _ He), (nth_lookup_Some _ _ [] _ Hh).
  reflexivity.
Qed.

(** X6. [radiation_pattern] broadcasts: for arrays of shapes (N, 3) and
    (M, 3) with N = M, N = 1 or M = 1 it returns as many fluxes as the
    broadcast of N with M has rows and leaves the state alone; the only row
    of a one-row array is paired with every row of the other array. *)
Theorem X6_radiation_pattern_broadcast
    (s : state) (e_field h_field : loc) (e h : ndarray2) (N M : nat) :
  heap s !! e_field = Some e -> heap s !! h_field = Some h ->
  shape e = (N, 3) -> shape h = (M, 3) ->
  N = M \/ N = 1 \/ M = 1 ->
  exists p,
    radiation_pattern e_field h_field s = Ok (p, s) /\
    length p = (if Nat.eqb N 1 then M else N) /\
    forall n, n < length p ->
      let i := bidx N n in
      let j := bidx M n in
      let fx := re (csub (cmul (get2 e i 1) (get2 h j 2))
                         (cmul (get2 e i 2) (get2 h j 1))) in
      let fz := re (csub (cmul (get2 e i 0) (get2 h j 1))
                         (cmul (get2 e i 1) (get2 h j 0))) in
      p !! n = Some (PrimFloat.sqrt (fx * fx + fz * fz)).
Proof.
  intros He Hh Se Sh Hc.
  assert (Ne : length (rows e) = N) by (unfold shape, nrows in Se; congruence).
  assert (Nh : length (rows h) = M) by (unfold shape, nrows in Sh; congruence).
  assert (Ce : ncols e = 3) by (unfold shape in Se; congruence).
  assert (Ch : ncols h = 3) by (unfold shape in Sh; congruence).
  destruct (Nat.eq_dec N 1) as [N1|N1]; [|destruct (Nat.eq_dec M 1) as [M1|M1]].
  - (* one row in e_field *)
    subst N. destruct (rows e) as [|er [|er' l]] eqn:Re; try discriminate.
    exists (map (row_flux er) (rows h)).
    split; [exact (radiation_pattern_single_e _ _ _ _ _ _ He Hh Re Ce Ch)|].
    split; [rewrite length_map; exact Nh|].
    rewrite length_map, Nh. intros n Hn.
    destruct (lookup_lt_is_Some_2 (rows h) n ltac:(lia)) as [hr Hhr].
    change (map (row_flux er) (rows h)) with (row_flux er <$> rows h).
    rewrite list_lookup_fmap, Hhr. cbn [fmap option_fmap option_map]. f_equal.
    assert (Hj : bidx M n = n).
    { unfold bidx. destruct (Nat.eqb_spec M 1); [lia | reflexivity]. }
    rewrite bidx_one, Hj.
    apply row_flux_get2; [rewrite Re; reflexivity | exact Hhr].
  - (* one row in h_field *)
    subst M. destruct (rows h) as [|hr [|hr' l]] eqn:Rh; try discriminate.
    exists (map (fun r => row_flux r hr) (rows e)).
    split; [exact (radiation_pattern_single_h _ _ _ _ _ _ He Hh Rh Ce Ch)|].
    assert (HN : Nat.eqb N 1 = false) by (apply Nat.eqb_neq; exact N1).
    rewrite HN.
    split; [rewrite length_map; exact Ne|].
    rewrite length_map, Ne. intros n Hn.
    destruct (lookup_lt_is_Some_2 (rows e) n ltac:(lia)) as [er Her].
    change (map (fun r => row_flux r hr) (rows e))
      with ((fun r => row_flux r hr) <$> rows e).
    rewrite list_lookup_fmap, Her. cbn [fmap option_fmap option_map]. f_equal.
    rewrite bidx_one, (bidx_other N n N1).
    apply row_flux_get2; [exact Her | rewrite Rh; reflexivity].
  - (* equal numbers of rows *)
    assert (M = N) as -> by lia.
    exists (pattern_of e h).
    split; [exact (radiation_pattern_run _ _ _ _ _ _ He Hh Se Sh)|].
    assert (HN : Nat.eqb N 1 = false) by (apply Nat.eqb_neq; exact N1).
    rewrite HN. unfold pattern_of, range, nrows. rewrite Ne.
    split; [rewrite length_map, length_seq; reflexivity|].
    rewrite length_map, length_seq. intros n Hn.
    rewrite (bidx_other N n N1).
    change (map (flux_r_at e h) (seq 0 N)) with (flux_r_at e h <$> seq 0 N).
    rewrite list_lookup_fmap, lookup_seq_lt by exact Hn. reflexivity.
Qed.

(** X6 at one row of electric and two rows of magnetic far field. *)
Lemma X6_radiation_pattern_broadcast_witness :
  exists e h,
    (heap one_row_state !! 0 = Some e /\ heap one_row_state !! 1 = Some h /\
     shape e = (1, 3) /\ shape h = (2, 3) /\ (1 = 2 \/ 1 = 1 \/ 2 = 1)) /\
    exists p,
      radiation_pattern 0 1 one_row_state = Ok (p, one_row_state) /\
      length p = (if Nat.eqb 1 1 then 2 else 1) /\
      forall n, n < length p ->
        let i := bidx 1 n in
        let j := bidx 2 n in
        let fx := re (csub (cmul (get2 e i 1) (get2 h j 2))
                           (cmul (get2 e i 2) (get2 h j 1))) in
        let fz := re (csub (cmul (get2 e i 0) (get2 h j 1))
                           (cmul (get2 e i 1) (get2 h j 0))) in
        p !! n = Some (PrimFloat.sqrt (fx * fx + fz * fz)).
Proof.
  eexists _, _. split; [repeat split; right; left; reflexivity|].
  exact (X6_radiation_pattern_broadcast one_row_state 0 1 _ _ 1 2
           eq_refl eq_refl eq_refl eq_refl (or_intror (or_introl eq_refl))).
Defined.

(** ** The flux integral and the plot on other inputs *)

(** X7. [flux_from_farfields] raises ValueError on arrays of shape (N, 3)
    when N is neither NUM_FARFIELD_PTS nor 1: the pattern of length N
    cannot be multiplied with the sines of the 50 angles. *)
Theorem X7_flux_from_farfields_value_error
    (X : externals) (s : state) (e_field h_field : loc) (e h : ndarray2) (N : nat) :
  heap s !! e_field = Some e -> heap s !! h_field = Some h ->
  shape e = (N, 3) -> shape h = (N, 3) ->
  N <> NUM_FARFIELD_PTS -> N <> 1 ->
  flux_from_farfields X e_field h_field s = Raise ValueError.
Proof.
  intros He Hh Se Sh Hn H1. unfold flux_from_farfields. cbv zeta.
  rewrite bind_run, (radiation_pattern_run _ _ _ _ _ _ He Hh Se Sh).
  assert (Hl : length (pattern_of e h) = N).
  { unfold pattern_of, range. rewrite length_map, length_seq.
    unfold shape in Se. congruence. }
  apply lift_raise, np_binop_mismatch;
    rewrite ?length_map, ?length_polar_rad, ?Hl; try assumption.
  unfold NUM_FARFIELD_PTS. lia.
Qed.

(** X7 at arrays of two far-field points. *)
Lemma X7_flux_from_farfields_value_error_witness :
  (exists e h,
     heap two_point_state !! 0 = Some e /\ heap two_point_state !! 1 = Some h /\
     shape e = (2, 3) /\ shape h = (2, 3)) /\
  2 <> NUM_FARFIELD_PTS /\ 2 <> 1 /\
  flux_from_farfields sample_externals 0 1 two_point_state = Raise ValueError.
Proof.
  assert (A : 2 <> NUM_FARFIELD_PTS) by (cbv; lia).
  assert (B : 2 <> 1) by lia.
  split; [eexists _, _; repeat split|].
  split; [exact A|]. split; [exact B|].
  exact (X7_flux_from_farfields_value_error sample_externals two_point_state
           0 1 _ _ 2 eq_refl eq_refl eq_refl eq_refl A B).
Defined.

(** X8. [plot_radiation_pattern] raises ValueError on every array whose
    length is not NUM_FARFIELD_PTS: the empty array has no maximum, and any
    other cannot be plotted against the 50 angles. *)
Theorem X8_plot_radiation_pattern_value_error
    (X : externals) (radial_flux : list float) (s : state) :
  length radial_flux <> NUM_FARFIELD_PTS ->
  plot_radiation_pattern X radial_flux s = Raise ValueError.
Proof.
  intros Hn. unfold plot_radiation_pattern.
  destruct radial_flux as [|x xs]; [reflexivity|].
  rewrite (lift_ok (np_max (x :: xs)) (fold_left np_maximum xs x) _ _ eq_refl).
  apply lift_raise. unfold ax_plot.
  rewrite length_map, length_polar_rad.
  destruct (Nat.eqb_spec NUM_FARFIELD_PTS (length (x :: xs))) as [E|_];
    [congruence | reflexivity].
Qed.

(** X8 at an array of two fluxes. *)
Lemma X8_plot_radiation_pattern_value_error_witness :
  length [1%float; 2%float] <> NUM_FARFIELD_PTS /\
  plot_radiation_pattern sample_externals [1%float; 2%float] initial_state
  = Raise ValueError.
Proof.
  assert (A : length [1%float; 2%float] <> NUM_FARFIELD_PTS) by (cbv; lia).
  split; [exact A|].
  exact (X8_plot_radiation_pattern_value_error sample_externals _ initial_state A).
Defined.

Lemma np_maximum_nan a b :
  is_nan a = true \/ is_nan b = true -> is_nan (np_maximum a b) = true.
Proof.
  unfold np_maximum. intros [H|H].
  - rewrite H, orb_true_r. exact H.
  - destruct (PrimFloat.leb b a) eqn:E.
    + apply leb_not_nan in E. destruct E; congruence.
    + destruct (is_nan a) eqn:Ea; [exact Ea | exact H].
Qed.

Lemma fold_maximum_nan r : forall x,
  is_nan x = true \/ Exists (fun y => is_nan y = true) r ->
  is_nan (fold_left np_maximum r x) = true.
Proof.
  induction r as [|y r IH]; intros x [H|H]; cbn [fold_left].
  - exact H.
  - inversion H.
  - apply IH. left. apply np_maximum_nan. left. exact H.
  - apply IH. inversion H as [? ? Hy|? ? Hr]; subst.
    + left. apply np_maximum_nan. right. exact Hy.
    + right. exact Hr.
Qed.

Lemma zip_sub_nan xs :
  Forall (fun y => is_nan y = true) xs ->
  forall d, Forall (fun y => is_nan y = true) (zip_with PrimFloat.sub xs d).
Proof.
  induction 1 as [|y ys Hy _ IH]; intros d; [constructor|].
  destruct d as [|t d]; [constructor|].
  cbn [zip_with]. constructor; [apply sub_nan_l; exact Hy | apply IH].
Qed.

Lemma not_nan_forallb xs :
  forallb (fun y => negb (is_nan y)) xs = true ->
  Forall (fun y => is_nan y = false) xs.
Proof.
  intros H. apply List.Forall_forall. intros y Hy.
  rewrite forallb_forall in H. specialize (H y Hy).
  apply negb_true_iff in H. exact H.
Qed.

(** X9. When the fluxes given to [plot_radiation_pattern] are numbers and
    their maximum is positive and finite, the normalized fluxes that are
    compared with cos^2 are all at most 1, and 1 is among them. *)
Theorem X9_normalized_flux
    (X : externals) (radial_flux : list float) (s : state) (mx : float) :
  length radial_flux = NUM_FARFIELD_PTS ->
  np_max radial_flux = Ok mx ->
  Forall (fun y => is_nan y = false) radial_flux ->
  PrimFloat.ltb 0 mx = true -> PrimFloat.ltb mx infinity = true ->
  let normalized := map (fun x => (x / mx)%float) radial_flux in
  let dipole := map (fun t => (np_cos1 X t * np_cos1 X t)%float) polar_rad in
  plot_radiation_pattern X radial_flux s =
    Ok (tt, State (heap s) (runs s)
              (stdout s ++
               [RelativeError
                  (np_linalg_norm X (zip_with PrimFloat.sub normalized dipole)
                   / np_linalg_norm X dipole)])) /\
  Forall (fun y => PrimFloat.leb y 1 = true) normalized /\
  In 1%float normalized.
Proof.
  intros Hlen Hmx Hnn Hpos Hfin. cbv zeta.
  destruct (plot_radiation_pattern_run X radial_flux s Hlen) as (mx' & Hmx' & Hrun).
  assert (mx' = mx) by congruence. subst mx'.
  split; [exact Hrun|].
  destruct (np_max_spec radial_flux) as (mx' & Hmx'' & Hin & Hge).
  { intros ->. discriminate. }
  assert (mx' = mx) by congruence. subst mx'.
  split.
  - apply List.Forall_forall. intros y Hy. apply in_map_iff in Hy.
    destruct Hy as (x & <- & Hx).
    apply div_le_one; [|assumption|assumption].
    exact (proj1 (List.Forall_forall _ _) (Hge Hnn) x Hx).
  - apply in_map_iff. exists mx. split; [|exact Hin].
    apply div_self; assumption.
Qed.

(** X9 at the array [polar_rad], whose maximum is pi/2. *)
Lemma X9_normalized_flux_witness :
  (length polar_rad = NUM_FARFIELD_PTS /\
   np_max polar_rad = Ok (0.5 * math_pi)%float /\
   Forall (fun y => is_nan y = false) polar_rad /\
   PrimFloat.ltb 0 (0.5 * math_pi) = true /\
   PrimFloat.ltb (0.5 * math_pi) infinity = true) /\
  (plot_radiation_pattern sample_externals polar_rad initial_state =
     Ok (tt, State (heap initial_state) (runs initial_state)
               (stdout initial_state ++
                [RelativeError
                   (np_linalg_norm sample_externals
                      (zip_with PrimFloat.sub
                         (map (fun x => (x / (0.5 * math_pi))%float) polar_rad)
                         (map (fun t => (np_cos1 sample_externals t *
                                         np_cos1 sample_externals t)%float)
                              polar_rad))
                    / np_linalg_norm sample_externals
                        (map (fun t => (np_cos1 sample_externals t *
                                        np_cos1 sample_externals t)%float)
                             polar_rad))])) /\
   Forall (fun y => PrimFloat.leb y 1 = true)
          (map (fun x => (x / (0.5 * math_pi))%float) polar_rad) /\
   In 1%float (map (fun x => (x / (0.5 * math_pi))%float) polar_rad)).
Proof.
  assert (A : np_max polar_rad = Ok (0.5 * math_pi)%float)
    by (vm_compute; reflexivity).
  assert (B : Forall (fun y => is_nan y = false) polar_rad)
    by (apply not_nan_forallb; vm_compute; reflexivity).
  split; [repeat split; assumption || reflexivity|].
  exact (X9_normalized_flux sample_externals polar_rad initial_state
           (0.5 * math_pi) eq_refl A B eq_refl eq_refl).
Defined.

(** X10. A NaN among the fluxes given to [plot_radiation_pattern] makes
    their maximum a NaN, and with it every normalized flux and every
    difference to cos^2 that the printed relative error is the norm of. *)
Theorem X10_nan_flux_spreads
    (X : externals) (radial_flux : list float) (s : state) :
  length radial_flux = NUM_FARFIELD_PTS ->
  Exists (fun y => is_nan y = true) radial_flux ->
  exists mx,
    np_max radial_flux = Ok mx /\ is_nan mx = true /\
    let normalized := map (fun x => (x / mx)%float) radial_flux in
    let dipole := map (fun t => (np_cos1 X t * np_cos1 X t)%float) polar_rad in
    let difference := zip_with PrimFloat.sub normalized dipole in
    Forall (fun y => is_nan y = true) normalized /\
    length difference = NUM_FARFIELD_PTS /\
    Forall (fun y => is_nan y = true) difference /\
    plot_radiation_pattern X radial_flux s =
      Ok (tt, State (heap s) (runs s)
                (stdout s ++
                 [RelativeError
                    (np_linalg_norm X difference / np_linalg_norm X dipole)])).
Proof.
  intros Hlen Hex.
  destruct (plot_radiation_pattern_run X radial_flux s Hlen) as (mx & Hmx & Hrun).
  exists mx. split; [exact Hmx|].
  assert (Hnan : is_nan mx = true).
  { destruct radial_flux as [|x xs]; [discriminate|].
    cbn [np_max] in Hmx. injection Hmx as <-.
    apply fold_maximum_nan.
    inversion Hex; subst; [left | right]; assumption. }
  split; [exact Hnan|]. cbv zeta.
  assert (Hnorm : Forall (fun y => is_nan y = true)
                         (map (fun x => (x / mx)%float) radial_flux)).
  { apply List.Forall_forall. intros y Hy. apply in_map_iff in Hy.
    destruct Hy as (x & <- & _). apply div_nan_r. exact Hnan. }
  split; [exact Hnorm|].
  split; [rewrite length_zip_with, !length_map, Hlen, length_polar_rad; reflexivity|].
  split; [|exact Hrun].
  apply zip_sub_nan. exact Hnorm.
Qed.

(** X10 at fifty NaNs. *)
Lemma X10_nan_flux_spreads_witness :
  (length (replicate NUM_FARFIELD_PTS nan) = NUM_FARFIELD_PTS /\
   Exists (fun y => is_nan y = true) (replicate NUM_FARFIELD_PTS nan)) /\
  exists mx,
    np_max (replicate NUM_FARFIELD_PTS nan) = Ok mx /\ is_nan mx = true /\
    let normalized :=
      map (fun x => (x / mx)%float) (replicate NUM_FARFIELD_PTS nan) in
    let dipole :=
      map (fun t => (np_cos1 sample_externals t *
                     np_cos1 sample_externals t)%float) polar_rad in
    let difference := zip_with PrimFloat.sub normalized dipole in
    Forall (fun y => is_nan y = true) normalized /\
    length difference = NUM_FARFIELD_PTS /\
    Forall (fun y => is_nan y = true) difference /\
    plot_radiation_pattern sample_externals (replicate NUM_FARFIELD_PTS nan)
                           initial_state =
      Ok (tt, State (heap initial_state) (runs initial_state)
                (stdout initial_state ++
                 [RelativeError
                    (np_linalg_norm sample_externals difference
                     / np_linalg_norm sample_externals dipole)])).
Proof.
  assert (A : Exists (fun y => is_nan y = true) (replicate NUM_FARFIELD_PTS nan))
    by exact (Exists_cons_hd _ nan (replicate 49 nan) eq_refl).
  split; [split; [reflexivity | exact A]|].
  exact (X10_nan_flux_spreads sample_externals (replicate NUM_FARFIELD_PTS nan)
           initial_state eq_refl A).
Defined.

(** ** More about the passes of the loop *)

Section RunningMaximum.

Variable X : externals.

Lemma loop_lines_running_max r fuel : forall L,
  is_nan (flux_max L) = false ->
  forall i o, loop_lines X fuel r L !! i = Some o ->
    is_nan (line_flux_max o) = false /\
    PrimFloat.leb (flux_max L) (line_flux_max o) = true /\
    (line_flux_max o = flux_max L \/
     exists j o', j <= i /\ loop_lines X fuel r L !! j = Some o' /\
                  line_flux_max o = line_flux o') /\
    (forall j o', j <= i -> loop_lines X fuel r L !! j = Some o' ->
       is_nan (line_flux o') = false ->
       PrimFloat.leb (line_flux o') (line_flux_max o) = true).
Proof.
  induction fuel as [|f IH]; intros L Hn i o Hi; [discriminate|].
  cbn [loop_lines] in *.
  set (o0 := pass_line X r L) in *.
  assert (Hm0 : line_flux_max o0 = next_flux_max (flux_max L) (line_flux o0))
    by reflexivity.
  destruct i as [|i].
  - injection Hi as <-. rewrite Hm0.
    split; [apply next_flux_max_not_nan; exact Hn|].
    split; [apply next_flux_max_ge_old; exact Hn|].
    split.
    + unfold next_flux_max. destruct (PrimFloat.ltb _ _); [|left; reflexivity].
      right. exists 0, o0. repeat split. lia.
    + intros j o' Hj Hl Hf. assert (j = 0) as -> by lia.
      injection Hl as <-. apply next_flux_max_ge_flux; assumption.
  - cbn [lookup list_lookup] in Hi.
    destruct (exit_line o0) eqn:E; [discriminate|].
    assert (Hn' : is_nan (flux_max (pass_locals X r L)) = false).
    { apply next_flux_max_not_nan. exact Hn. }
    destruct (IH _ Hn' i o Hi) as (A & B & C & D).
    change (flux_max (pass_locals X r L)) with (line_flux_max o0) in B, C.
    split; [exact A|].
    split; [apply (leb_trans _ (line_flux_max o0)); [|exact B];
            rewrite Hm0; apply next_flux_max_ge_old; exact Hn|].
    split.
    + destruct C as [C|(j & o' & Hj & Hl & Hq)].
      * rewrite C, Hm0. unfold next_flux_max.
        destruct (PrimFloat.ltb _ _); [|left; reflexivity].
        right. exists 0, o0. repeat split. lia.
      * right. exists (S j), o'. repeat split; [lia | exact Hl | exact Hq].
    + intros [|j] o' Hj Hl Hf.
      * injection Hl as <-.
        apply (leb_trans _ (line_flux_max o0)); [|exact B].
        rewrite Hm0. apply next_flux_max_ge_flux; assumption.
      * apply (D j o'); [lia | exact Hl | exact Hf].
Qed.

(** Every printed line is the line of a pass that started with a number as
    [flux_max]. *)
Lemma loop_lines_passes r fuel : forall L,
  is_nan (flux_max L) = false ->
  Forall (fun o => exists L', is_nan (flux_max L') = false /\ o = pass_line X r L')
         (loop_lines X fuel r L).
Proof.
  induction fuel as [|f IH]; intros L Hn; [constructor|].
  cbn [loop_lines]. constructor; [exists L; auto|].
  destruct (exit_line _); [constructor|].
  apply IH. apply next_flux_max_not_nan. exact Hn.
Qed.

Lemma exit_flux_below_max fm f :
  is_nan fm = false ->
  PrimFloat.ltb (f / next_flux_max fm f) POWER_DECAY_THRESHOLD = true ->
  is_nan f = false /\ PrimFloat.ltb f (next_flux_max fm f) = true.
Proof.
  intros Hn Hlt.
  destruct (ltb_not_nan _ _ Hlt) as [Hq _].
  assert (Hf : is_nan f = false).
  { destruct (is_nan f) eqn:E; [|reflexivity].
    rewrite (div_nan_l f _ E) in Hq. discriminate. }
  split; [exact Hf|].
  assert (Hone : PrimFloat.ltb 1 POWER_DECAY_THRESHOLD = false) by reflexivity.
  unfold next_flux_max in *. destruct (PrimFloat.ltb fm f) eqn:E.
  - exfalso.
    destruct (div_eq_one_or_nan f f (leb_refl f Hf)
                (leb_not_ltb f f (leb_refl f Hf))) as [H1|H1].
    + rewrite H1 in Hlt. congruence.
    + congruence.
  - destruct (PrimFloat.ltb f fm) eqn:E'; [reflexivity|exfalso].
    destruct (div_eq_one_or_nan f fm (not_ltb_leb fm f Hn Hf E) E') as [H1|H1].
    + rewrite H1 in Hlt. congruence.
    + congruence.
Qed.

(** With a flux that is zero or a NaN in every mode the loop goes on. *)
Lemma zero_flux_lines r :
  (forall k, is_nan (mode_flux X r k) = true \/
             PrimFloat.eqb (mode_flux X r k) 0 = true) ->
  forall fuel L, flux_max L = 0%float ->
    loop_result X fuel r L = None /\
    length (loop_lines X fuel r L) = fuel /\
    Forall (fun o => line_flux_max o = 0%float /\
                     is_nan (line_power_decay o) = true)
           (loop_lines X fuel r L).
Proof.
  intros Hz. induction fuel as [|f IH]; intros L HL.
  { repeat split. constructor. }
  cbn [loop_lines loop_result].
  assert (Hfm : line_flux_max (pass_line X r L) = 0%float).
  { cbn [line_flux_max pass_line]. cbv zeta. unfold next_flux_max. rewrite HL.
    rewrite (ltb_zero_not_pos _ (Hz (m L))). reflexivity. }
  assert (Hpd : is_nan (line_power_decay (pass_line X r L)) = true).
  { cbn [line_power_decay pass_line]. cbv zeta.
    change (next_flux_max (flux_max L) (mode_flux X r (m L)))
      with (line_flux_max (pass_line X r L)).
    rewrite Hfm. apply div_zero_nan, Hz. }
  assert (He : exit_line (pass_line X r L) = false).
  { rewrite exit_line_eq. rewrite (ltb_nan_l _ _ Hpd). apply andb_false_r. }
  rewrite He.
  destruct (IH (pass_locals X r L)) as (A & B & C); [exact Hfm|].
  split; [exact A|]. split; [cbn [length]; congruence|].
  constructor; [split; assumption | exact C].
Qed.

(** The number of solver runs of [n] passes. *)
Lemma length_runs_of_passes n :
  length (flat_map runs_of_mode (map (fun i => (0 + Z.of_nat i)%Z) (seq 0 n)))
  = 2 * n - 1.
Proof.
  induction n as [|n IH]; [reflexivity|].
  rewrite seq_S, map_app, flat_map_app, length_app, IH.
  cbn [map flat_map app Nat.add]. unfold runs_of_mode.
  destruct n; [reflexivity|].
  replace (0 <? 0 + Z.of_nat (S n))%Z with true
    by (symmetry; apply Z.ltb_lt; lia).
  cbn [length app]. lia.
Qed.

End RunningMaximum.

(** X11. With at least one pass allowed, the loop makes its first pass: it
    runs the solver once, with mode number 0, and prints a line with m = 0
    whose flux is that of the far fields of this run; a flux above zero
    becomes [flux_max], and [power_decay] is then exactly 1 when the flux is
    finite; with any other flux [flux_max] stays 0. The loop does not leave
    at this pass: a second pass starts with the runs 1 and -1. *)
Theorem X11_first_pass (X : externals) (fuel : nat) (r : float) :
  six_components X ->
  exists res s o rest,
    main_loop X (S fuel) r initial_state = Ok (res, s) /\
    stdout s !! 0 = Some o /\
    runs s = 0%Z :: rest /\
    (fuel = 0 -> rest = [] /\ res = None) /\
    (0 < fuel -> exists rest', rest = 1%Z :: (-1)%Z :: rest') /\
    line_m o = 0%Z /\
    line_flux o = flux_of X (e_farfield X (Simulation r 0))
                            (h_farfield X (Simulation r 0)) /\
    line_power_decay o = (line_flux o / line_flux_max o)%float /\
    (PrimFloat.ltb 0 (line_flux o) = true ->
     line_flux_max o = line_flux o /\
     (PrimFloat.ltb (line_flux o) infinity = true ->
      line_power_decay o = 1%float)) /\
    (PrimFloat.ltb 0 (line_flux o) = false -> line_flux_max o = 0%float).
Proof.
  intros H6.
  destruct (main_loop_run X H6 (S fuel) r) as (s & Hrun & Hout & Hruns & _).
  destruct (loop_runs_first X r fuel) as (rest & Hr & Hr0 & Hr1).
  exists (loop_result X (S fuel) r locals0), s, (pass_line X r locals0), rest.
  split; [exact Hrun|]. rewrite Hout, Hruns.
  split; [reflexivity|]. split; [exact Hr|].
  split; [intros ->; split; [apply Hr0; reflexivity | reflexivity]|].
  split; [exact Hr1|].
  cbn [pass_line line_m line_flux line_flux_max line_power_decay locals0 m flux_max].
  cbv zeta. unfold next_flux_max.
  split; [reflexivity|]. split; [reflexivity|]. split; [reflexivity|]. split.
  - intros Hpos. rewrite Hpos. split; [reflexivity|].
    intros Hfin. apply div_self; assumption.
  - intros Hnp. rewrite Hnp. reflexivity.
Qed.

(** X11 at the sample solver, with fuel for six passes. *)
Lemma X11_first_pass_witness :
  six_components sample_externals /\
  (exists res s o rest,
      main_loop sample_externals (S 5) 0.5 initial_state = Ok (res, s) /\
      stdout s !! 0 = Some o /\
      runs s = 0%Z :: rest /\
      (5 = 0 -> rest = [] /\ res = None) /\
      (0 < 5 -> exists rest', rest = 1%Z :: (-1)%Z :: rest') /\
      line_m o = 0%Z /\
      line_flux o = flux_of sample_externals (e_farfield sample_externals (Simulation 0.5 0))
                              (h_farfield sample_externals (Simulation 0.5 0)) /\
      line_power_decay o = (line_flux o / line_flux_max o)%float /\
      (PrimFloat.ltb 0 (line_flux o) = true ->
       line_flux_max o = line_flux o /\
       (PrimFloat.ltb (line_flux o) infinity = true ->
        line_power_decay o = 1%float)) /\
      (PrimFloat.ltb 0 (line_flux o) = false -> line_flux_max o = 0%float)).
Proof.
  split; [exact sample_six|].
  exact (X11_first_pass sample_externals 5 0.5 sample_six).
Defined.

(** X12. After every pass [flux_max] is the largest of 0 and the fluxes
    printed so far that are numbers: it is 0 or one of these fluxes, and at
    least each of them. *)
Theorem X12_running_maximum (X : externals) (fuel : nat) (r : float) :
  six_components X ->
  exists res s,
    main_loop X fuel r initial_state = Ok (res, s) /\
    forall i o, stdout s !! i = Some o ->
      PrimFloat.leb 0 (line_flux_max o) = true /\
      (line_flux_max o = 0%float \/
       exists j o', j <= i /\ stdout s !! j = Some o' /\
                    line_flux_max o = line_flux o') /\
      (forall j o', j <= i -> stdout s !! j = Some o' ->
         is_nan (line_flux o') = false ->
         PrimFloat.leb (line_flux o') (line_flux_max o) = true).
Proof.
  intros H6.
  destruct (main_loop_run X H6 fuel r) as (s & Hrun & Hout & _).
  exists (loop_result X fuel r locals0), s.
  split; [exact Hrun|]. rewrite Hout. intros i o Hi.
  destruct (loop_lines_running_max X r fuel locals0 eq_refl i o Hi)
    as (_ & B & C & D).
  split; [exact B|]. split; [exact C | exact D].
Qed.

(** X12 at the sample solver, with fuel for six passes. *)
Lemma X12_running_maximum_witness :
  six_components sample_externals /\
  exists res s,
    main_loop sample_externals 6 0.5 initial_state = Ok (res, s) /\
    forall i o, stdout s !! i = Some o ->
      PrimFloat.leb 0 (line_flux_max o) = true /\
      (line_flux_max o = 0%float \/
       exists j o', j <= i /\ stdout s !! j = Some o' /\
                    line_flux_max o = line_flux o') /\
      (forall j o', j <= i -> stdout s !! j = Some o' ->
         is_nan (line_flux o') = false ->
         PrimFloat.leb (line_flux o') (line_flux_max o) = true).
Proof.
  split; [exact sample_six|].
  exact (X12_running_maximum sample_externals 6 0.5 sample_six).
Defined.

(** The line at which the loop left. *)
Lemma exit_line_facts (X : externals) r fuel L :
  loop_result X fuel r locals0 = Some L ->
  exists o,
    last (loop_lines X fuel r locals0) = Some o /\
    loop_lines X fuel r locals0 !! (length (loop_lines X fuel r locals0) - 1)
      = Some o /\
    0 < length (loop_lines X fuel r locals0) /\
    exits_at (Some L) (loop_lines X fuel r locals0)
             (length (loop_lines X fuel r locals0) - 1) /\
    line_m o = m L /\ (1 <= m L)%Z /\ line_flux_max o = flux_max L /\
    PrimFloat.ltb (line_power_decay o) POWER_DECAY_THRESHOLD = true.
Proof.
  intros HL.
  destruct (loop_result_some X r fuel locals0 L HL)
    as (init & lst & Hl & _ & Hex & Hm & Hfm).
  exists lst.
  assert (Hlast : last (loop_lines X fuel r locals0) = Some lst)
    by (rewrite Hl; apply last_snoc).
  destruct (last_lookup_length _ _ Hlast) as [Hi Hpos].
  split; [exact Hlast|]. split; [exact Hi|]. split; [exact Hpos|].
  split; [split; [eexists; reflexivity | lia]|].
  rewrite exit_line_eq in Hex. apply andb_true_iff in Hex.
  destruct Hex as [Hmp Hlt]. apply Z.ltb_lt in Hmp.
  split; [congruence|]. split; [lia|]. split; [congruence | exact Hlt].
Qed.

(** X13. A loop that has left printed, last, the line of the pass at which it
    left: its mode number m is at least 1, its flux is that of the far fields
    of the run with mode number -m, a number, and lies strictly below
    [flux_max]; so the maximum it is compared with is 0 or the flux of an
    earlier pass, never its own. A loop that has not left has printed one
    line for each pass it was allowed. *)
Theorem X13_exit_below_maximum (X : externals) (fuel : nat) (r : float) :
  six_components X ->
  exists res s,
    main_loop X fuel r initial_state = Ok (res, s) /\
    (res = None -> length (stdout s) = fuel) /\
    (forall L, res = Some L ->
       exists o,
         last (stdout s) = Some o /\
         exits_at res (stdout s) (length (stdout s) - 1) /\
         line_m o = m L /\ (1 <= m L)%Z /\ line_flux_max o = flux_max L /\
         line_flux o = flux_of X (e_farfield X (Simulation r (- m L)))
                                 (h_farfield X (Simulation r (- m L))) /\
         line_power_decay o = (line_flux o / line_flux_max o)%float /\
         PrimFloat.ltb (line_power_decay o) POWER_DECAY_THRESHOLD = true) /\
    (forall i o, stdout s !! i = Some o -> exits_at res (stdout s) i ->
       is_nan (line_flux o) = false /\
       PrimFloat.ltb (line_flux o) (line_flux_max o) = true /\
       (line_flux_max o = 0%float \/
        exists j o', j < i /\ stdout s !! j = Some o' /\
                     line_flux_max o = line_flux o')).
Proof.
  intros H6.
  destruct (main_loop_run X H6 fuel r) as (s & Hrun & Hout & _).
  exists (loop_result X fuel r locals0), s.
  split; [exact Hrun|]. rewrite Hout.
  split; [|split].
  - intros Hnone. apply (loop_result_none X r fuel locals0 Hnone).
  - intros L HL.
    destruct (exit_line_facts X r fuel L HL)
      as (o & Hlast & Hi & _ & Hex & Hm & Hm1 & Hfm & Hlt).
    exists o. split; [exact Hlast|].
    split; [rewrite HL; exact Hex|].
    split; [exact Hm|]. split; [exact Hm1|]. split; [exact Hfm|].
    split; [|split; [|exact Hlt]].
    + pose proof (proj1 (Forall_lookup _ _) (loop_lines_flux X r fuel locals0) _ _ Hi)
        as Hf. cbn beta in Hf. rewrite Hf, Hm. unfold mode_flux, tested_mode.
      destruct (Z.ltb_spec 0 (m L)); [reflexivity | lia].
    + exact (proj1 (Forall_lookup _ _) (loop_lines_ratio X r fuel locals0) _ _ Hi).
  - intros i o Hi Hex.
    apply (exits_at_iff X fuel r locals0 i o Hi) in Hex.
    pose proof (proj1 (Forall_lookup _ _)
                  (loop_lines_passes X r fuel locals0 eq_refl) _ _ Hi)
      as (L' & Hn' & ->).
    rewrite exit_line_eq in Hex. apply andb_true_iff in Hex.
    destruct Hex as [_ Hlt].
    cbn [pass_line line_flux line_flux_max line_power_decay] in *. cbv zeta in *.
    destruct (exit_flux_below_max _ _ Hn' Hlt) as [Hf Hs].
    split; [exact Hf|]. split; [exact Hs|].
    destruct (loop_lines_running_max X r fuel locals0 eq_refl i _ Hi)
      as (_ & _ & C & _).
    cbn [pass_line line_flux_max] in C. cbv zeta in C.
    destruct C as [C|(j & o' & Hj & Hl & Hq)]; [left; exact C|].
    right. exists j, o'. split; [|split; assumption].
    destruct (Nat.eq_dec j i) as [->|Hne]; [|lia].
    exfalso. rewrite Hi in Hl. injection Hl as <-.
    cbn [pass_line line_flux] in Hq. cbv zeta in Hq.
    rewrite Hq, ltb_irrefl in Hs. discriminate.
Qed.

(** X13 at the sample solver, with fuel for six passes. *)
Lemma X13_exit_below_maximum_witness :
  six_components sample_externals /\
  (exists res s,
      main_loop sample_externals 6 0.5 initial_state = Ok (res, s) /\
      (res = None -> length (stdout s) = 6) /\
      (forall L, res = Some L ->
         exists o,
           last (stdout s) = Some o /\
           exits_at res (stdout s) (length (stdout s) - 1) /\
           line_m o = m L /\ (1 <= m L)%Z /\ line_flux_max o = flux_max L /\
           line_flux o = flux_of sample_externals (e_farfield sample_externals (Simulation 0.5 (- m L)))
                                   (h_farfield sample_externals (Simulation 0.5 (- m L))) /\
           line_power_decay o = (line_flux o / line_flux_max o)%float /\
           PrimFloat.ltb (line_power_decay o) POWER_DECAY_THRESHOLD = true) /\
      (forall i o, stdout s !! i = Some o -> exits_at res (stdout s) i ->
         is_nan (line_flux o) = false /\
         PrimFloat.ltb (line_flux o) (line_flux_max o) = true /\
         (line_flux_max o = 0%float \/
          exists j o', j < i /\ stdout s !! j = Some o' /\
                       line_flux_max o = line_flux o'))).
Proof.
  split; [exact sample_six|].
  exact (X13_exit_below_maximum sample_externals 6 0.5 sample_six).
Defined.

Lemma zero_six : six_components zero_externals.
Proof. intros sim x. reflexivity. Qed.

Lemma zero_flux (k : Z) :
  let sim := Simulation 0.5 k in
  let flux := flux_of zero_externals (e_farfield zero_externals sim)
                      (h_farfield zero_externals sim) in
  is_nan flux = true \/ PrimFloat.eqb flux 0 = true.
Proof. right. vm_compute. reflexivity. Qed.

(** X14. When the flux of the far fields is zero or a NaN in every mode,
    [flux_max] stays 0, every [power_decay] is a NaN and the loop does not
    leave, however many passes it is given. *)
Theorem X14_zero_flux_never_ends (X : externals) (fuel : nat) (r : float) :
  six_components X ->
  (forall k : Z,
     let sim := Simulation r k in
     let flux := flux_of X (e_farfield X sim) (h_farfield X sim) in
     is_nan flux = true \/ PrimFloat.eqb flux 0 = true) ->
  exists s,
    main_loop X fuel r initial_state = Ok (None, s) /\
    length (stdout s) = fuel /\
    forall o, In o (stdout s) ->
      line_flux_max o = 0%float /\ is_nan (line_power_decay o) = true.
Proof.
  intros H6 Hz.
  destruct (main_loop_run X H6 fuel r) as (s & Hrun & Hout & _).
  destruct (zero_flux_lines X r (fun k => Hz (tested_mode k)) fuel locals0 eq_refl)
    as (A & B & C).
  exists s. rewrite Hrun, A, Hout. split; [reflexivity|]. split; [exact B|].
  intros o Ho. exact (proj1 (List.Forall_forall _ _) C o Ho).
Qed.

(** X14 at the solver whose far field is zero, with fuel for six passes. *)
Lemma X14_zero_flux_never_ends_witness :
  (six_components zero_externals /\
   forall k : Z,
     let sim := Simulation 0.5 k in
     let flux := flux_of zero_externals (e_farfield zero_externals sim)
                         (h_farfield zero_externals sim) in
     is_nan flux = true \/ PrimFloat.eqb flux 0 = true) /\
  exists s,
    main_loop zero_externals 6 0.5 initial_state = Ok (None, s) /\
    length (stdout s) = 6 /\
    forall o, In o (stdout s) ->
      line_flux_max o = 0%float /\ is_nan (line_power_decay o) = true.
Proof.
  split; [split; [exact zero_six | exact zero_flux]|].
  exact (X14_zero_flux_never_ends zero_externals 6 0.5 zero_six zero_flux).
Defined.

(** X15. A pass runs the solver once when m <= 0 and twice when m >= 1, and
    prints one line. A loop that has not left within [fuel] passes has made
    them all, with 2 fuel - 1 runs of the solver; a loop that has left with
    mode number m has made m + 1 passes, with 2m + 1 runs. *)
Theorem X15_number_of_runs (X : externals) (fuel : nat) (r : float) :
  six_components X ->
  (forall L s0 e h,
      e_field_total L <> h_field_total L ->
      heap s0 !! e_field_total L = Some e ->
      shape e = (NUM_FARFIELD_PTS, 3) -> rect e ->
      heap s0 !! h_field_total L = Some h ->
      shape h = (NUM_FARFIELD_PTS, 3) -> rect h ->
      exists b L' s1,
        loop_body X r L s0 = Ok ((b, L'), s1) /\
        length (runs s1) =
          length (runs s0) + (if (0 <? m L)%Z then 2 else 1) /\
        length (stdout s1) = length (stdout s0) + 1) /\
  exists res s,
    main_loop X fuel r initial_state = Ok (res, s) /\
    length (runs s) = 2 * length (stdout s) - 1 /\
    (res = None ->
     length (stdout s) = fuel /\ length (runs s) = 2 * fuel - 1) /\
    (forall L, res = Some L ->
       Z.of_nat (length (stdout s)) = (m L + 1)%Z /\
       length (stdout s) <= fuel /\
       Z.of_nat (length (runs s)) = (2 * m L + 1)%Z).
Proof.
  intros H6. split.
  { intros L s0 e h Hne He Se Re Hh Sh Rh.
    destruct (loop_body_pass X r L s0 e h H6 Hne He Se Re Hh Sh Rh)
      as (s1 & Hrun & Hruns & Hout & _).
    eexists _, _, s1. split; [exact Hrun|].
    rewrite Hruns, Hout, !length_app.
    split; [|reflexivity]. destruct (0 <? m L)%Z; reflexivity. }
  destruct (main_loop_run X H6 fuel r) as (s & Hrun & Hout & Hruns & _).
  exists (loop_result X fuel r locals0), s.
  split; [exact Hrun|].
  assert (Hlen : length (runs s) = 2 * length (stdout s) - 1).
  { rewrite Hruns, Hout. unfold loop_runs.
    rewrite loop_lines_modes. apply length_runs_of_passes. }
  split; [exact Hlen|]. rewrite Hlen, Hout. split.
  - intros Hnone.
    destruct (loop_result_none X r fuel locals0 Hnone) as [-> _]. split; reflexivity.
  - intros L HL.
    pose proof (loop_lines_length_some X r fuel locals0 L HL) as Hn.
    cbn [locals0 m] in Hn.
    destruct (exit_line_facts X r fuel L HL) as (_ & _ & _ & Hpos & _).
    split; [lia|]. split; [apply loop_lines_length_le|]. lia.
Qed.

(** X15 at the sample solver, with fuel for six passes. *)
Lemma X15_number_of_runs_witness :
  six_components sample_externals /\
  ((forall L s0 e h,
        e_field_total L <> h_field_total L ->
        heap s0 !! e_field_total L = Some e ->
        shape e = (NUM_FARFIELD_PTS, 3) -> rect e ->
        heap s0 !! h_field_total L = Some h ->
        shape h = (NUM_FARFIELD_PTS, 3) -> rect h ->
        exists b L' s1,
          loop_body sample_externals 0.5 L s0 = Ok ((b, L'), s1) /\
          length (runs s1) =
            length (runs s0) + (if (0 <? m L)%Z then 2 else 1) /\
          length (stdout s1) = length (stdout s0) + 1) /\
    exists res s,
      main_loop sample_externals 6 0.5 initial_state = Ok (res, s) /\
      length (runs s) = 2 * length (stdout s) - 1 /\
      (res = None ->
       length (stdout s) = 6 /\ length (runs s) = 2 * 6 - 1) /\
      (forall L, res = Some L ->
         Z.of_nat (length (stdout s)) = (m L + 1)%Z /\
         length (stdout s) <= 6 /\
         Z.of_nat (length (runs s)) = (2 * m L + 1)%Z)).
Proof.
  split; [exact sample_six|].
  exact (X15_number_of_runs sample_externals 6 0.5 sample_six).
Defined.

(** ** The main block as a whole *)

Lemma loop_lines_power_decay (X : externals) r fuel : forall L,
  Forall (fun o => exists k f fm p, o = PowerDecay k f fm p)
         (loop_lines X fuel r L).
Proof.
  induction fuel as [|f IH]; intros L; [constructor|].
  cbn [loop_lines]. constructor; [unfold pass_line; eexists _, _, _, _; reflexivity|].
  destruct (exit_line _); [constructor | apply IH].
Qed.

(** X16. Under the engine's contract the main block never raises. While the
    loop has not left, only power_decay lines were printed. Once it has left,
    the script computes the pattern of the two accumulators, 50 fluxes, and
    prints one more line, the relative error; this last step runs no solver
    and changes no array. *)
Theorem X16_main_block (X : externals) (fuel : nat) (r : float) :
  six_components X ->
  exists res s,
    main_loop X fuel r initial_state = Ok (res, s) /\
    Forall (fun o => exists k f fm p, o = PowerDecay k f fm p) (stdout s) /\
    match res with
    | None => main X fuel r initial_state = Ok (None, s)
    | Some L =>
        exists p err,
          main X fuel r initial_state =
            Ok (Some (L, p),
                State (heap s) (runs s) (stdout s ++ [RelativeError err])) /\
          radiation_pattern (e_field_total L) (h_field_total L) s = Ok (p, s) /\
          length p = NUM_FARFIELD_PTS
    end.
Proof.
  intros H6.
  destruct (main_loop_run X H6 fuel r) as (s & Hrun & Hout & _ & He & Hh).
  exists (loop_result X fuel r locals0), s.
  split; [exact Hrun|].
  split; [rewrite Hout; apply loop_lines_power_decay|].
  destruct (loop_result X fuel r locals0) as [L|] eqn:HL.
  - destruct (add_runs_e_ok X r (loop_runs X fuel r locals0) _
                (zeros_shape _ _) (zeros_rect _ _)) as [Se _].
    destruct (add_runs_h_ok X r (loop_runs X fuel r locals0) _
                (zeros_shape _ _) (zeros_rect _ _)) as [Sh _].
    destruct (loop_result_locs X r fuel _ _ HL) as [HeL HhL].
    pose proof (radiation_pattern_run _ _ _ _ _ _ He Hh Se Sh) as Hp.
    set (p := pattern_of _ _) in Hp.
    assert (Hl : length p = NUM_FARFIELD_PTS).
    { unfold p, pattern_of, range. rewrite length_map, length_seq.
      unfold shape in Se. congruence. }
    assert (Hls : length (map (fun x => (x * FARFIELD_RADIUS_UM_sq)%float) p)
                  = NUM_FARFIELD_PTS) by (rewrite length_map; exact Hl).
    destruct (plot_radiation_pattern_run X _ s Hls) as (mx & _ & Hplot).
    eexists p, _. rewrite HeL, HhL.
    split; [|split; [exact Hp | exact Hl]].
    unfold main. rewrite bind_run, Hrun.
    rewrite bind_run. unfold main_finish. rewrite HeL, HhL, bind_run, Hp. cbv zeta.
    rewrite bind_run, Hplot. reflexivity.
  - unfold main. rewrite bind_run, Hrun. reflexivity.
Qed.

(** X16 at the sample solver, with fuel for six passes. *)
Lemma X16_main_block_witness :
  six_components sample_externals /\
  exists res s,
    main_loop sample_externals 6 0.5 initial_state = Ok (res, s) /\
    Forall (fun o => exists k f fm p, o = PowerDecay k f fm p) (stdout s) /\
    match res with
    | None => main sample_externals 6 0.5 initial_state = Ok (None, s)
    | Some L =>
        exists p err,
          main sample_externals 6 0.5 initial_state =
            Ok (Some (L, p),
                State (heap s) (runs s) (stdout s ++ [RelativeError err])) /\
          radiation_pattern (e_field_total L) (h_field_total L) s = Ok (p, s) /\
          length p = NUM_FARFIELD_PTS
    end.
Proof.
  split; [exact sample_six|].
  exact (X16_main_block sample_externals 6 0.5 sample_six).
Defined.
